(** * AI-Home-Plus-Scheduler: the scheduling core and its validator

    A shallow embedding of [server/utils/time.js], [server/utils/data.js],
    [server/scheduler.js] and [server/validator.js], and the properties of
    the natural-language specification checked against it; then the
    schemas of [server/zod.js], [server/schemas.js] and [server/index.js],
    the handler of [server/index.js] that calls the scheduler and the
    validator, and the webhook client of [server/zapierClient.js], with
    further properties of the code.

    Conventions of the embedding.
    - JavaScript values are the inductive [value]; an object is an
      association list of own properties (first binding wins), a [Date]
      carries its time value in milliseconds, [None] for an Invalid Date.
    - JavaScript numbers are IEEE 754 binary64 values, the primitive type
      [float]; their arithmetic and comparisons are the primitive ones.
    - Time values are integers ([Z]).  A [Date] made from a number or by
      [setHours] is an Invalid Date outside the range of time values; the
      sum [end + 24 h] of [normalizeRange] is kept as it is, and a statement
      that depends on the range assumes that the sum is a time value.
    - [String(v)], template literals, [Number.parseFloat(v)] and
      [new Date(v)] throw a [TypeError] for an object that owns a property
      [toString], alone or inside an array; the embedding gives these
      conversions for the values that [convertible] accepts, and a statement
      that a function returns assumes it of the input.
    - [Map] is an insertion-ordered association list keyed by [value];
      SameValueZero is structural equality, so the identity of arrays,
      objects and dates used as keys is not represented.
    - Built-ins whose result depends on the host or on a long algorithm
      of the language (date-string parsing, the local time zone, the text of
      a number or a date, decimal parsing, collation) are fields of the
      class [Runtime].
    - Strings are byte strings: [trim] removes ASCII white space and the case
      conversions act on ASCII letters.
    - A thrown [TypeError] is the [Throw] outcome of the type [result].
    - The own properties of an object stand in the order in which the engine
      enumerates them; the order of integer-like keys is not represented. *)

From Stdlib Require Import ZArith String Ascii List Bool Lia.
From Stdlib Require Import RelationClasses OrdersEx DecimalString Floats.
Import ListNotations.

Local Open Scope string_scope.
Local Open Scope Z_scope.
Local Open Scope list_scope.

(** ** JavaScript values *)

Unset Elimination Schemes.
Inductive value : Type :=
| VUndef
| VNull
| VBool (b : bool)
| VNum (n : float)
| VStr (s : string)
| VDate (t : option Z)
| VArr (items : list value)
| VObj (props : list (string * value)).
Set Elimination Schemes.

(** The host-dependent built-ins. *)
Class Runtime : Type := {
  (* [new Date(s).getTime()] for a string [s]; [None] when it is NaN *)
  Date_parse : string -> option Z;
  (* the time value after [date.setHours(h, m, 0, 0)] on a date at [t];
     [None] when it is NaN *)
  Date_setHours : Z -> Z -> Z -> option Z;
  (* [String(n)] for a number *)
  Number_toString : float -> string;
  (* [String(d)] for a date at a time value *)
  Date_toString : Z -> string;
  (* [Number.parseFloat(s)] *)
  parseFloat_string : string -> float;
  (* the sign of [a.localeCompare(b)] *)
  localeCompare : string -> string -> comparison
}.

(** Outcome of a computation that may throw. *)
Inductive result (A : Type) : Type :=
| Ok (a : A)
| Throw (e : string).
Arguments Ok {A} a.
Arguments Throw {A} e.

Definition bind {A B : Type} (r : result A) (k : A -> result B) : result B :=
  match r with
  | Ok a => k a
  | Throw e => Throw e
  end.

Notation "x <- c ;; k" := (bind c (fun x => k))
  (at level 61, c at next level, right associativity).

Definition TypeError : string := "TypeError".

(** ** Numbers *)

(** The number nearest to an integer, ties to even. *)
Definition Number_ofZ (z : Z) : float :=
  SF2Prim (binary_normalize prec emax z 0 false).

(** [x || 0] for a number: [0], [-0] and NaN are falsy. *)
Definition orZero (x : float) : float :=
  if (x =? 0)%float || is_nan x then 0%float else x.

(** The sign that [Array.prototype.sort] reads off a number returned by its
    comparator: NaN counts as zero. *)
Definition sign (x : float) : comparison :=
  if (x <? 0)%float then Lt else if (0 <? x)%float then Gt else Eq.

(** The integral part of a finite number. *)
Definition truncate (x : float) : Z :=
  match Prim2SF x with
  | S754_finite s m e =>
      let a := if 0 <=? e then Z.pos m * 2 ^ e else Z.pos m / 2 ^ (- e) in
      if s then - a else a
  | _ => 0
  end.

(** The largest time value, 100 000 000 days in milliseconds. *)
Definition maxTime : Z := 8640000000000000.

(** TimeClip: the time value of a number, [None] for NaN. *)
Definition timeClip (n : float) : option Z :=
  if is_finite n && (abs n <=? Number_ofZ maxTime)%float
  then Some (truncate n) else None.

(** ToBoolean. *)
Definition truthy (v : value) : bool :=
  match v with
  | VUndef | VNull => false
  | VBool b => b
  | VNum n => negb ((n =? 0)%float || is_nan n)
  | VStr s => negb (String.eqb s "")
  | VDate _ | VArr _ | VObj _ => true
  end.

(** [a || b] *)
Definition or_else (a b : value) : value := if truthy a then a else b.
Infix "||'" := or_else (at level 50, left associativity).

(** [Object.prototype.hasOwnProperty.call(v, key)] together with [v[key]]:
    the own property of an object, [None] when there is none.  Strings and
    arrays own only index keys and [length], which no caller asks for. *)
Fixpoint assoc {A : Type} (key : string) (l : list (string * A)) : option A :=
  match l with
  | [] => None
  | (k, a) :: rest => if String.eqb k key then Some a else assoc key rest
  end.

Definition getOwn (v : value) (key : string) : option value :=
  match v with
  | VObj props => assoc key props
  | _ => None
  end.

(** [v.key] on a value that is not null or undefined, for the property
    names the program reads (none of them lives on a prototype). *)
Definition getProp (v : value) (key : string) : value :=
  match getOwn v key with
  | Some x => x
  | None => VUndef
  end.

(** Structural equality of values, the key comparison of [Map]: on
    numbers SameValueZero differs from it only in taking [0] and [-0] for
    the same key, and the program uses no falsy value as a key. *)

Definition option_Z_eqb (a b : option Z) : bool :=
  match a, b with
  | Some x, Some y => Z.eqb x y
  | None, None => true
  | _, _ => false
  end.

Fixpoint value_eqb (a b : value) {struct a} : bool :=
  match a, b with
  | VUndef, VUndef => true
  | VNull, VNull => true
  | VBool x, VBool y => Bool.eqb x y
  | VNum x, VNum y => PrimFloat.Leibniz.eqb x y
  | VStr x, VStr y => String.eqb x y
  | VDate x, VDate y => option_Z_eqb x y
  | VArr xs, VArr ys =>
      (fix go (xs ys : list value) {struct xs} : bool :=
         match xs, ys with
         | [], [] => true
         | x :: xs', y :: ys' => value_eqb x y && go xs' ys'
         | _, _ => false
         end) xs ys
  | VObj xs, VObj ys =>
      (fix go (xs ys : list (string * value)) {struct xs} : bool :=
         match xs, ys with
         | [], [] => true
         | (k, x) :: xs', (k', y) :: ys' =>
             String.eqb k k' && value_eqb x y && go xs' ys'
         | _, _ => false
         end) xs ys
  | _, _ => false
  end.

(** Induction on values through the lists they nest. *)
Section ValueInduction.
Variable P : value -> Prop.
Hypothesis Hundef : P VUndef.
Hypothesis Hnull : P VNull.
Hypothesis Hbool : forall b, P (VBool b).
Hypothesis Hnum : forall n, P (VNum n).
Hypothesis Hstr : forall s, P (VStr s).
Hypothesis Hdate : forall t, P (VDate t).
Hypothesis Harr : forall items, Forall P items -> P (VArr items).
Hypothesis Hobj : forall props, Forall (fun kv => P (snd kv)) props -> P (VObj props).

Fixpoint value_ind (v : value) : P v :=
  match v with
  | VUndef => Hundef
  | VNull => Hnull
  | VBool b => Hbool b
  | VNum n => Hnum n
  | VStr s => Hstr s
  | VDate t => Hdate t
  | VArr items =>
      Harr items
        ((fix go (l : list value) : Forall P l :=
            match l with
            | [] => Forall_nil P
            | x :: rest => Forall_cons x (value_ind x) (go rest)
            end) items)
  | VObj props =>
      Hobj props
        ((fix go (l : list (string * value)) : Forall (fun kv => P (snd kv)) l :=
            match l with
            | [] => Forall_nil _
            | kv :: rest => Forall_cons kv (value_ind (snd kv)) (go rest)
            end) props)
  end.
End ValueInduction.

(** The values that [String(v)] converts: a conversion to a primitive
    throws a [TypeError] for an object that owns a property [toString],
    which no value of the model can call, and for an array that holds one.
    [convertible] asks it of every value inside [v] as well, since the
    program converts the values it reads from [v]. *)
Fixpoint convertible (v : value) : bool :=
  match v with
  | VArr items => forallb convertible items
  | VObj props =>
      negb (existsb (fun kv => String.eqb (fst kv) "toString") props)
      && forallb (fun kv => convertible (snd kv)) props
  | _ => true
  end.

(** ** Strings *)

Definition is_space (c : ascii) : bool :=
  let n := nat_of_ascii c in
  (Nat.eqb n 32 || (Nat.leb 9 n && Nat.leb n 13))%bool.

Fixpoint trimStart (s : string) : string :=
  match s with
  | EmptyString => EmptyString
  | String c rest => if is_space c then trimStart rest else s
  end.

Fixpoint trimEnd (s : string) : string :=
  match s with
  | EmptyString => EmptyString
  | String c rest =>
      match trimEnd rest with
      | EmptyString => if is_space c then EmptyString else String c EmptyString
      | rest' => String c rest'
      end
  end.

Definition trim (s : string) : string := trimEnd (trimStart s).

Definition upper_char (c : ascii) : ascii :=
  let n := nat_of_ascii c in
  if (Nat.leb 97 n && Nat.leb n 122)%bool then ascii_of_nat (n - 32) else c.

Definition lower_char (c : ascii) : ascii :=
  let n := nat_of_ascii c in
  if (Nat.leb 65 n && Nat.leb n 90)%bool then ascii_of_nat (n + 32) else c.

Fixpoint map_string (f : ascii -> ascii) (s : string) : string :=
  match s with
  | EmptyString => EmptyString
  | String c rest => String (f c) (map_string f rest)
  end.

Definition toUpperCase : string -> string := map_string upper_char.
Definition toLowerCase : string -> string := map_string lower_char.

(** [s.includes(c)] for a one-character needle. *)
Fixpoint includes (s : string) (c : ascii) : bool :=
  match s with
  | EmptyString => false
  | String d rest => Ascii.eqb d c || includes rest c
  end.

(** [s.split(c)] for a one-character separator. *)
Fixpoint split (s : string) (c : ascii) : list string :=
  match s with
  | EmptyString => [EmptyString]
  | String d rest =>
      if Ascii.eqb d c then EmptyString :: split rest c
      else match split rest c with
           | [] => [String d EmptyString]
           | x :: xs => String d x :: xs
           end
  end.

Definition digit (c : ascii) : option Z :=
  let n := Z.of_nat (nat_of_ascii c) in
  if (48 <=? n) && (n <=? 57) then Some (n - 48) else None.

Fixpoint digits (acc : option Z) (s : string) : option Z :=
  match s with
  | EmptyString => acc
  | String c rest =>
      match digit c with
      | Some d =>
          digits (Some (10 * match acc with Some a => a | None => 0 end + d)) rest
      | None => acc
      end
  end.

(** [Number.parseInt(s, 10)]; [None] is NaN. *)
Definition parseInt10 (s : string) : option Z :=
  match trimStart s with
  | String "-"%char rest => option_map Z.opp (digits None rest)
  | String "+"%char rest => digits None rest
  | rest => digits None rest
  end.

Section WithRuntime.
Context {rt : Runtime}.

(** [String(v)], for a value that [convertible] accepts. *)
Fixpoint String_ (v : value) : string :=
  match v with
  | VUndef => "undefined"
  | VNull => "null"
  | VBool b => if b then "true" else "false"
  | VNum n => Number_toString n
  | VStr s => s
  | VDate (Some t) => Date_toString t
  | VDate None => "Invalid Date"
  | VArr items =>
      String.concat ","
        (map (fun item =>
                match item with
                | VUndef | VNull => ""
                | _ => String_ item
                end)
           items)
  | VObj _ => "[object Object]"
  end.

(** ** server/utils/time.js *)

Definition MS_IN_HOUR : Z := 60 * 60 * 1000.
Definition MS_IN_DAY : Z := 24 * MS_IN_HOUR.

(** A value that is either [null] or a valid [Date] is an [option Z]. *)
Definition dateValue (d : option Z) : value :=
  match d with
  | Some t => VDate (Some t)
  | None => VNull
  end.

(** The time value of [new Date(v)] for one argument, [None] for an
    Invalid Date; for a value that [convertible] accepts. *)
Definition newDate (v : value) : option Z :=
  match v with
  | VUndef => None
  | VNull => Some 0
  | VBool b => Some (if b then 1 else 0)
  | VNum n => timeClip n
  | VStr s => Date_parse s
  | VDate t => t
  | VArr _ | VObj _ => Date_parse (String_ v)
  end.

Definition toDate (v : value) : option Z :=
  if negb (truthy v) then None
  else match v with
       | VDate t => t
       | _ => newDate v
       end.

Definition isString (v : value) : bool :=
  match v with
  | VStr _ => true
  | _ => false
  end.

Definition nth_or (l : list string) (n : nat) (d : string) : string :=
  nth n l d.

Definition intOrZero (s : string) : Z :=
  match parseInt10 s with
  | Some n => n
  | None => 0
  end.

(** The result is [null] or a [Date], which [setHours] may have made an
    Invalid Date. *)
Definition combineDateTime (dateVal timeVal : value) : value :=
  if negb (truthy dateVal) && negb (truthy timeVal) then VNull
  else if truthy timeVal && isString timeVal
          && includes (String_ timeVal) "T"%char
  then dateValue (toDate timeVal)
  else
    match toDate dateVal with
    | None => dateValue (toDate timeVal)
    | Some baseDate =>
        if negb (truthy timeVal) then VDate (Some baseDate)
        else
          let timeString := match timeVal with VStr s => s | _ => "" end in
          let parts := split timeString ":"%char in
          let hours := nth_or parts 0 "0" in
          let minutes := nth_or parts 1 "0" in
          VDate (Date_setHours baseDate (intOrZero hours) (intOrZero minutes))
    end.

Record range : Type := { r_start : option Z; r_end : option Z }.

Definition normalizeRange (start end_ : value) : range :=
  match toDate start, toDate end_ with
  | Some startDate, Some endDate =>
      if endDate <=? startDate
      then {| r_start := Some startDate; r_end := Some (endDate + MS_IN_DAY) |}
      else {| r_start := Some startDate; r_end := Some endDate |}
  | _, _ => {| r_start := None; r_end := None |}
  end.

Definition hoursBetween (start end_ : value) : float :=
  let range := normalizeRange start end_ in
  match r_start range, r_end range with
  | Some s, Some e =>
      let diff := ((Number_ofZ e - Number_ofZ s) / Number_ofZ MS_IN_HOUR)%float in
      if is_finite diff then diff else 0%float
  | _, _ => 0%float
  end.

Record block : Type := {
  b_start : option Z;
  b_end : option Z;
  b_shiftId : value
}.

(** One iteration of the [blocks.some] callback of [overlaps], for a
    candidate whose normalized range is [candStart], [candEnd]. *)
Definition overlapsBlock (candStart candEnd : Z) (b : block) : bool :=
  let normalized := normalizeRange (dateValue (b_start b)) (dateValue (b_end b)) in
  match r_start normalized, r_end normalized with
  | Some startA, Some endA =>
      let startB := candStart in
      let endB := if candEnd <=? candStart then candEnd + MS_IN_DAY else candEnd in
      if endA <=? startA then false
      else (startA <? endB) && (startB <? endA)
  | _, _ => false
  end.

(** [overlaps(blocks, start, end)]; an [undefined] block list is passed as
    the empty list, which the first guard treats alike. *)
Definition overlaps (blocks : list block) (start end_ : value) : bool :=
  match blocks with
  | [] => false
  | _ =>
      let candidate := normalizeRange start end_ in
      match r_start candidate, r_end candidate with
      | Some cs, Some ce => existsb (overlapsBlock cs ce) blocks
      | _, _ => false
      end
  end.

(** ** server/utils/data.js *)

(** [Map]: an association list in insertion order; [map_set] on a key
    already present replaces the value in place. *)
Definition Map (V : Type) : Type := list (value * V).

Fixpoint map_get {V : Type} (m : Map V) (key : value) : option V :=
  match m with
  | [] => None
  | (k, v) :: rest => if value_eqb k key then Some v else map_get rest key
  end.

Fixpoint map_set {V : Type} (m : Map V) (key : value) (v : V) : Map V :=
  match m with
  | [] => [(key, v)]
  | (k, v0) :: rest =>
      if value_eqb k key then (k, v) :: rest else (k, v0) :: map_set rest key v
  end.

Definition map_values {V : Type} (m : Map V) : list V := map snd m.

Definition DEFAULT_WEEKLY_CAP : float := 40.

Fixpoint findOwn (v : value) (keys : list string) : option value :=
  match keys with
  | [] => None
  | key :: rest =>
      match getOwn v key with
      | Some x => Some x
      | None => findOwn v rest
      end
  end.

Definition readField (record : value) (keys : list string) : value :=
  match (if truthy record then findOwn record keys else None) with
  | Some x => x
  | None =>
      let fields := if truthy record then getProp record "fields" else record in
      if negb (truthy fields) then VUndef
      else match findOwn fields keys with
           | Some x => x
           | None => VUndef
           end
  end.

Record employee : Type := {
  e_id : value;
  e_name : value;
  e_role : string;
  e_status : string;
  e_weeklyCap : float
}.

(** [Number.parseFloat(v)], for a value that [convertible] accepts: the
    text of a number reads back as the number, [-0] as [0]. *)
Definition parseFloat (v : value) : float :=
  match v with
  | VNum n => if (n =? 0)%float then 0%float else n
  | _ => parseFloat_string (String_ v)
  end.

Definition normalizeEmployee (map : Map employee) (record : value) : Map employee :=
  let id := readField record ["id"; "employee_id"; "employeeId"] in
  if negb (truthy id) then map
  else
    let role := toUpperCase (trim (String_ (readField record ["role"] ||' VStr ""))) in
    let status :=
      toLowerCase (trim (String_ (readField record ["status"] ||' VStr "Active"))) in
    let weeklyCapRaw := readField record ["weekly_cap"; "weeklyCap"; "Weekly Cap"] in
    let weeklyCapNumber := parseFloat weeklyCapRaw in
    map_set map id
      {| e_id := id;
         e_name := readField record ["name"; "Name"] ||' VStr "";
         e_role := role;
         e_status := status;
         e_weeklyCap :=
           if is_finite weeklyCapNumber && (0 <? weeklyCapNumber)%float
           then weeklyCapNumber else DEFAULT_WEEKLY_CAP |}.

Definition normalizeEmployees (records : list value) : Map employee :=
  fold_left normalizeEmployee records [].

Record window : Type := {
  w_start : option Z;
  w_end : option Z;
  w_preferred : bool;
  w_recordId : value
}.

Definition map_get_list {V : Type} (m : Map (list V)) (key : value) : list V :=
  match map_get m key with
  | Some l => l
  | None => []
  end.

(** [if (!m.has(key)) m.set(key, []); m.get(key).push(x)] *)
Definition map_push {V : Type} (m : Map (list V)) (key : value) (x : V)
  : Map (list V) :=
  map_set m key (map_get_list m key ++ [x]).

Definition normalizeAvailabilityRecord (availability : Map (list window))
    (record : value) : Map (list window) :=
  let fields :=
    if truthy record && truthy (getProp record "fields")
    then getProp record "fields" else record in
  let employeeField :=
    readField fields
      ["employee_id"; "employee"; "Employee"; "employees"; "Employee ID"] in
  let employeeIds :=
    match employeeField with
    | VArr items => filter truthy items
    | _ => if truthy employeeField then [employeeField] else []
    end in
  match employeeIds with
  | [] => availability
  | _ =>
      let typeRaw := readField fields ["type"; "Type"] ||' VStr "Available" in
      let type := toLowerCase (trim (String_ typeRaw)) in
      if String.eqb type "unavailable" then availability
      else
        let dateVal := readField fields ["date"; "Date"] in
        let startValue := readField fields ["start_time"; "start"; "Start"] in
        let endValue := readField fields ["end_time"; "end"; "End"] in
        let start := combineDateTime dateVal startValue in
        let end_ := combineDateTime dateVal endValue in
        let range := normalizeRange start end_ in
        match r_start range, r_end range with
        | Some _, Some _ =>
            fold_left
              (fun availability employeeId =>
                 map_push availability employeeId
                   {| w_start := r_start range;
                      w_end := r_end range;
                      w_preferred := String.eqb type "preferred";
                      w_recordId :=
                        getProp record "id" ||' getProp record "availability_id"
                          ||' getProp record "availabilityId" |})
              employeeIds availability
        | _, _ => availability
        end
  end.

Definition normalizeAvailability (records : list value) : Map (list window) :=
  fold_left normalizeAvailabilityRecord records [].

Record shift : Type := {
  s_id : value;
  s_roleNeeded : string;
  s_start : option Z;
  s_end : option Z;
  s_hours : float;
  s_fields : value
}.

(** The callback of [records.map] in [normalizeShiftRecords]; [None] is the
    [null] that [filter(Boolean)] removes. *)
Definition normalizeShiftRecord (record : value) : option shift :=
  let fields :=
    if truthy record && truthy (getProp record "fields")
    then getProp record "fields" else record in
  let id := readField record ["id"; "shift_id"; "Shift Id"; "shiftId"] in
  if negb (truthy id) then None
  else
    let roleRaw := readField fields ["role_needed"; "role"; "Role"] in
    let roleNeeded0 := toUpperCase (trim (String_ (roleRaw ||' VStr "Either"))) in
    let roleNeeded := if String.eqb roleNeeded0 "EITHER" then "" else roleNeeded0 in
    let dateVal := readField fields ["date"; "Date"] in
    let startValue := readField fields ["start_time"; "start"; "Start"] in
    let endValue := readField fields ["end_time"; "end"; "End"] in
    let start := combineDateTime dateVal startValue in
    let end_ := combineDateTime dateVal endValue in
    let range := normalizeRange start end_ in
    Some {| s_id := id;
            s_roleNeeded := roleNeeded;
            s_start := r_start range;
            s_end := r_end range;
            s_hours :=
              hoursBetween (dateValue (r_start range)) (dateValue (r_end range));
            s_fields := fields |}.

Fixpoint filterSome {A : Type} (l : list (option A)) : list A :=
  match l with
  | [] => []
  | Some a :: rest => a :: filterSome rest
  | None :: rest => filterSome rest
  end.

Definition normalizeShiftRecords (records : list value) : list shift :=
  filterSome (map normalizeShiftRecord records).

(** role matcher used by scheduler and validator *)
Definition roleMatches (empRole roleNeeded : value) : bool :=
  let e := toUpperCase (trim (String_ (empRole ||' VStr ""))) in
  let r := toUpperCase (trim (String_ (roleNeeded ||' VStr ""))) in
  if String.eqb r "" then true
  else if String.eqb e r then true
  else if String.eqb r "CNA_OR_CMA" then String.eqb e "CNA" || String.eqb e "CMA"
  else false.

(** [Object.entries] of an object: each own key once, with its value. *)
Fixpoint entries (seen : list string) (props : list (string * value))
  : list (string * value) :=
  match props with
  | [] => []
  | (k, v) :: rest =>
      if existsb (String.eqb k) seen then entries seen rest
      else (k, v) :: entries (k :: seen) rest
  end.

Definition normalizeAssignments (records : value) : Map value :=
  match records with
  | VArr items =>
      fold_left
        (fun map record =>
           let shiftId := readField record ["shift_id"; "shiftId"; "id"] in
           let employeeId :=
             readField record ["employee_id"; "employeeId"; "assigned_employee"] in
           if truthy shiftId && truthy employeeId
           then map_set map shiftId employeeId else map)
        items []
  | VObj props =>
      fold_left
        (fun map entry =>
           let shiftId := VStr (fst entry) in
           let employeeId := snd entry in
           if truthy shiftId && truthy employeeId
           then map_set map shiftId employeeId else map)
        (entries [] props) []
  | _ => []
  end.

(** ** server/scheduler.js *)

(** [norm]: role helper *)
Definition norm (s : value) : string :=
  toUpperCase (trim (String_ (s ||' VStr ""))).

Definition accepts (empRole roleNeeded : value) : bool :=
  let e := norm empRole in
  let r := norm roleNeeded in
  if String.eqb e r then true
  else if String.eqb r "CNA_OR_CMA" then String.eqb e "CNA" || String.eqb e "CMA"
  else false.

(** An integer as a number whose digits are exact. *)
Definition SF_ofZ (n : Z) : spec_float :=
  match n with
  | Z0 => S754_zero false
  | Zpos p => S754_finite false p 0
  | Zneg p => S754_finite true p 0
  end.

(** [Number(x.toFixed(2))]: [toFixed] takes the integer [n] for which
    [n / 100] is nearest to [x], the larger of two, and writes its digits;
    [Number] reads them as the number nearest to [n / 100].  From 10^21 on,
    and for NaN and the infinities, the text is that of [x]. *)
Definition toFixed2 (x : float) : float :=
  match Prim2SF x with
  | S754_finite s m e =>
      if (Number_ofZ (10 ^ 21) <=? abs x)%float then x
      else
        let n :=
          if 0 <=? e then Z.pos m * 2 ^ e * 100
          else (2 * 100 * Z.pos m + 2 ^ (- e)) / 2 ^ (- e + 1) in
        let r := SF2Prim (SFdiv prec emax (SF_ofZ n) (SF_ofZ 100)) in
        if s then (- r)%float else r
  | S754_zero _ => 0%float
  | _ => x
  end.

(** [totals.get(id) || 0] *)
Definition hoursOf (totals : Map float) (id : value) : float :=
  match map_get totals id with
  | Some h => orZero h
  | None => 0%float
  end.

Record summary : Type := {
  sum_employeeId : value;
  sum_name : value;
  sum_role : string;
  sum_weeklyCap : float;
  sum_hours : float;
  sum_assignments : nat
}.

(** [object[key] = x] on an object made by a literal: the key [__proto__]
    reaches the setter of [Object.prototype] and makes no own property. *)
Fixpoint setOwn {A : Type} (props : list (string * A)) (key : string) (x : A)
  : list (string * A) :=
  match props with
  | [] => [(key, x)]
  | (k, y) :: rest =>
      if String.eqb k key then (k, x) :: rest else (k, y) :: setOwn rest key x
  end.

Definition assign {A : Type} (props : list (string * A)) (key : string) (x : A)
  : list (string * A) :=
  if String.eqb key "__proto__" then props else setOwn props key x.

(** The own properties of the summary object; the property key of an id is
    its text. *)
Definition summarizeTotals (employeeMap : Map employee) (totals : Map float)
    (blocks : Map (list block)) : list (string * summary) :=
  fold_left
    (fun summary kv =>
       let id := fst kv in
       let employee := snd kv in
       assign summary (String_ id)
         {| sum_employeeId := id;
            sum_name := e_name employee;
            sum_role := e_role employee;
            sum_weeklyCap := e_weeklyCap employee;
            sum_hours := toFixed2 (hoursOf totals id);
            sum_assignments := length (map_get_list blocks id) |})
    employeeMap [].

Record coverage : Type := { available : bool; preferred : bool }.

Definition coverageForShift (windows : list window) (shiftStart shiftEnd : option Z)
  : coverage :=
  match shiftStart, shiftEnd with
  | Some shiftStartMs, Some shiftEnd0 =>
      fold_left
        (fun acc window =>
           match w_start window, w_end window with
           | Some start, Some end_ =>
               let shiftEndMs :=
                 if shiftEnd0 <=? shiftStartMs
                 then shiftEnd0 + 24 * 60 * 60 * 1000 else shiftEnd0 in
               if (start <=? shiftStartMs) && (end_ >=? shiftEndMs)
               then {| available := true;
                       preferred := preferred acc || w_preferred window |}
               else acc
           | _, _ => acc
           end)
        windows {| available := false; preferred := false |}
  | _, _ => {| available := false; preferred := false |}
  end.

Record assignment : Type := {
  a_shiftId : value;
  a_employeeId : value;          (* [VNull] when the shift is unfilled *)
  a_reason : option string
}.

Record issue : Type := {
  i_shiftId : value;
  i_employeeId : option value;
  i_reason : string
}.

(** The accumulators of one run. *)
Record state : Type := {
  assignments : list assignment;
  issues : list issue;
  totals : Map float;
  blocks : Map (list block)
}.

Definition initialState : state :=
  {| assignments := []; issues := []; totals := []; blocks := [] |}.

Definition pushAssignment (st : state) (a : assignment) : state :=
  {| assignments := assignments st ++ [a];
     issues := issues st;
     totals := totals st;
     blocks := blocks st |}.

Definition pushIssue (st : state) (i : issue) : state :=
  {| assignments := assignments st;
     issues := issues st ++ [i];
     totals := totals st;
     blocks := blocks st |}.

Definition trackAssignment (st : state) (employeeId : value) (shift : shift) : state :=
  let hours := orZero (s_hours shift) in
  {| assignments := assignments st;
     issues := issues st;
     totals :=
       map_set (totals st) employeeId (hoursOf (totals st) employeeId + hours)%float;
     blocks := map_push (blocks st) employeeId
                 {| b_start := s_start shift;
                    b_end := s_end shift;
                    b_shiftId := s_id shift |} |}.

(** [assignments.push({shiftId, employeeId: null, reason}); issues.push(...)] *)
Definition unfilled (st : state) (shift : shift) (reason : string) : state :=
  pushIssue
    (pushAssignment st
       {| a_shiftId := s_id shift; a_employeeId := VNull; a_reason := Some reason |})
    {| i_shiftId := s_id shift; i_employeeId := None; i_reason := reason |}.

Definition commit (st : state) (employeeId : value) (shift : shift) : state :=
  trackAssignment
    (pushAssignment st
       {| a_shiftId := s_id shift; a_employeeId := employeeId; a_reason := None |})
    employeeId shift.

Record entry : Type := { en_employee : employee; en_coverage : coverage }.

(** The comparator of the tie-break sort; its sign as a [comparison]. *)
Definition compareEntries (st : state) (a b : entry) : result comparison :=
  if negb (Bool.eqb (preferred (en_coverage a)) (preferred (en_coverage b)))
  then Ok (if preferred (en_coverage a) then Lt else Gt)
  else
    let hoursA := hoursOf (totals st) (e_id (en_employee a)) in
    let hoursB := hoursOf (totals st) (e_id (en_employee b)) in
    if negb (hoursA =? hoursB)%float then Ok (sign (hoursA - hoursB)%float)
    else
      let assignsA := length (map_get_list (blocks st) (e_id (en_employee a))) in
      let assignsB := length (map_get_list (blocks st) (e_id (en_employee b))) in
      if negb (Nat.eqb assignsA assignsB) then Ok (Nat.compare assignsA assignsB)
      else
        match e_name (en_employee a) ||' VStr "" with
        | VStr nameA =>
            Ok (localeCompare nameA (String_ (e_name (en_employee b) ||' VStr "")))
        | _ => Throw TypeError   (* [localeCompare] is not a function *)
        end.

(** [Array.prototype.sort] is stable; for a consistent comparator every
    stable sort returns the same array.  The model inserts each element, in
    order, behind the elements that do not compare greater; a comparator
    that throws ends the sort.  Which pairs an engine compares, and in which
    argument order, is its own choice; the statements about the sort below
    concern candidates whose names are all strings, where the comparator is
    consistent and never throws, or whose names are all numbers, where every
    comparison on the names throws. *)
Fixpoint insertM {A : Type} (cmp : A -> A -> result comparison) (x : A)
    (sorted : list A) : result (list A) :=
  match sorted with
  | [] => Ok [x]
  | y :: rest =>
      c <- cmp y x ;;
      match c with
      | Gt => Ok (x :: y :: rest)
      | _ => r <- insertM cmp x rest ;; Ok (y :: r)
      end
  end.

Fixpoint sortFrom {A : Type} (cmp : A -> A -> result comparison)
    (sorted : list A) (l : list A) : result (list A) :=
  match l with
  | [] => Ok sorted
  | x :: rest => s <- insertM cmp x sorted ;; sortFrom cmp s rest
  end.

Definition sortM {A : Type} (cmp : A -> A -> result comparison) (l : list A)
  : result (list A) :=
  sortFrom cmp [] l.

Definition isSome {A : Type} (o : option A) : bool :=
  match o with
  | Some _ => true
  | None => false
  end.

Section Pass.
Variable employeeMap : Map employee.
Variable availabilityMap : Map (list window).
Variable existing : Map value.

(** The conjunction [canAssign] of the existing-assignment branch. *)
Definition canAssign (st : state) (shift : shift) (needed : string)
    (existingEmployeeId : value) : bool :=
  match map_get employeeMap existingEmployeeId with
  | None => false
  | Some employee =>
      let coverage := map_get_list availabilityMap existingEmployeeId in
      let coverageResult := coverageForShift coverage (s_start shift) (s_end shift) in
      let currentHours := hoursOf (totals st) existingEmployeeId in
      String.eqb (e_status employee) "active"
      && accepts (VStr (e_role employee)) (VStr needed)
      && available coverageResult
      && (currentHours + orZero (s_hours shift) <=? e_weeklyCap employee)%float
      && negb (overlaps (map_get_list (blocks st) existingEmployeeId)
                 (dateValue (s_start shift)) (dateValue (s_end shift)))
  end.

Definition activeEmployees (needed : string) : list employee :=
  filter (fun employee =>
            String.eqb (e_status employee) "active"
            && accepts (VStr (e_role employee)) (VStr needed))
         (map_values employeeMap).

Definition availabilityCandidates (shift : shift) (needed : string) : list entry :=
  filter (fun entry => available (en_coverage entry))
    (map (fun employee =>
            {| en_employee := employee;
               en_coverage :=
                 coverageForShift (map_get_list availabilityMap (e_id employee))
                   (s_start shift) (s_end shift) |})
         (activeEmployees needed)).

Definition withinCap (st : state) (shift : shift) (needed : string) : list entry :=
  filter (fun entry =>
            let hoursSoFar := hoursOf (totals st) (e_id (en_employee entry)) in
            (hoursSoFar + orZero (s_hours shift)
             <=? e_weeklyCap (en_employee entry))%float)
         (availabilityCandidates shift needed).

Definition withoutConflicts (st : state) (shift : shift) (needed : string)
  : list entry :=
  filter (fun entry =>
            let employeeBlocks := map_get_list (blocks st) (e_id (en_employee entry)) in
            negb (overlaps employeeBlocks
                    (dateValue (s_start shift)) (dateValue (s_end shift))))
         (withinCap st shift needed).

(** The body of [shifts.forEach] after the existing-assignment branch. *)
Definition assignFresh (st : state) (shift : shift) (needed : string) : result state :=
  match activeEmployees needed with
  | [] =>
      Ok (unfilled st shift
            ("No employees available for role "
               ++ (if String.eqb needed "" then "Either" else needed) ++ "."))
  | _ =>
      match availabilityCandidates shift needed with
      | [] => Ok (unfilled st shift
                    "No employees are available during the shift window.")
      | _ =>
          match withinCap st shift needed with
          | [] => Ok (unfilled st shift
                        "All available employees would exceed their weekly cap.")
          | _ =>
              match withoutConflicts st shift needed with
              | [] => Ok (unfilled st shift
                            "All available employees have conflicting assignments.")
              | candidates =>
                  sorted <- sortM (compareEntries st) candidates ;;
                  match sorted with
                  | first :: _ =>
                      let chosen := en_employee first in
                      Ok (commit st (e_id chosen) shift)
                  | [] => Throw TypeError
                  end
              end
          end
      end
  end.

(** [needed]: the role requirement of the shift, normalized once. *)
Definition neededRole (shift : shift) : string :=
  norm (VStr (s_roleNeeded shift) ||' VUndef ||' VStr "").

(** The body of [shifts.forEach]. *)
Definition scheduleShift (st : state) (shift : shift) : result state :=
  let existingEmployeeId :=
    match map_get existing (s_id shift) with
    | Some id => id
    | None => VUndef
    end in
  if negb (isSome (s_start shift)) || negb (isSome (s_end shift))
  then Ok (unfilled st shift "Shift is missing start or end time.")
  else
    let needed := neededRole shift in
    if truthy existingEmployeeId
    then
      if canAssign st shift needed existingEmployeeId
      then Ok (commit st existingEmployeeId shift)
      else
        assignFresh
          (pushIssue st
             {| i_shiftId := s_id shift;
                i_employeeId := Some existingEmployeeId;
                i_reason :=
                  "Existing assignment violates scheduling rules and was released." |})
          shift needed
    else assignFresh st shift needed.

Fixpoint forEachM {S A : Type} (f : S -> A -> result S) (st : S) (l : list A)
  : result S :=
  match l with
  | [] => Ok st
  | x :: rest => st' <- f st x ;; forEachM f st' rest
  end.

Definition runPass (shifts : list shift) : result state :=
  forEachM scheduleShift initialState shifts.

End Pass.

Record scheduleResult : Type := {
  res_assignments : list assignment;
  res_issues : list issue;
  res_totalsByEmployee : list (string * summary)
}.

Definition schedule (shiftTemplate employees availability : list value)
    (existingAssignments : value) : result scheduleResult :=
  let employeeMap := normalizeEmployees employees in
  let availabilityMap := normalizeAvailability availability in
  let shifts := normalizeShiftRecords shiftTemplate in
  let existing := normalizeAssignments existingAssignments in
  st <- runPass employeeMap availabilityMap existing shifts ;;
  Ok {| res_assignments := assignments st;
        res_issues := issues st;
        res_totalsByEmployee :=
          summarizeTotals employeeMap (totals st) (blocks st) |}.

(** The object literal that [schedule] pushes for an assignment. *)
Definition assignmentValue (a : assignment) : value :=
  VObj ([("shiftId", a_shiftId a); ("employeeId", a_employeeId a)]
          ++ match a_reason a with
             | Some r => [("reason", VStr r)]
             | None => []
             end).

(** ** server/validator.js *)

(** A validation error: its [type] with the ids it carries (the text of
    [message] is not represented). *)
Inductive verror : Type :=
| missing_shift (shiftId employeeId : value)
| missing_employee (shiftId employeeId : value)
| inactive_employee (shiftId employeeId : value)
| role_mismatch (shiftId employeeId : value)
| availability (shiftId employeeId : value)
| weekly_cap (employeeId : value)
| overlap (employeeId shiftIdA shiftIdB : value).

Record vstate : Type := {
  errors : list verror;
  hoursByEmployee : Map float;
  blocksByEmployee : Map (list block)
}.

Definition pushErrors (vs : vstate) (es : list verror) : vstate :=
  {| errors := errors vs ++ es;
     hoursByEmployee := hoursByEmployee vs;
     blocksByEmployee := blocksByEmployee vs |}.

Definition hasCoverage (windows : list window) (shift : shift) : bool :=
  existsb
    (fun window =>
       match w_start window, w_end window, s_start shift, s_end shift with
       | Some start, Some end_, Some shiftStart, Some shiftEnd0 =>
           let shiftEnd :=
             if shiftEnd0 <=? shiftStart
             then shiftEnd0 + 24 * 60 * 60 * 1000 else shiftEnd0 in
           (start <=? shiftStart) && (end_ >=? shiftEnd)
       | _, _, _, _ => false
       end)
    windows.

(** The body of [assignments.forEach] once both ids are read. *)
Definition checkAssignment (shiftMap : Map shift) (employeeMap : Map employee)
    (availabilityMap : Map (list window)) (vs : vstate) (shiftId employeeId : value)
  : vstate :=
  if negb (truthy shiftId) || negb (truthy employeeId) then vs
  else
    match map_get shiftMap shiftId with
    | None => pushErrors vs [missing_shift shiftId employeeId]
    | Some shift =>
        match map_get employeeMap employeeId with
        | None => pushErrors vs [missing_employee shiftId employeeId]
        | Some employee =>
            let inactive :=
              if negb (String.eqb (e_status employee) "active")
              then [inactive_employee shiftId employeeId] else [] in
            let mismatch :=
              if negb (String.eqb (s_roleNeeded shift) "EITHER")
                 && negb (String.eqb (e_role employee) (s_roleNeeded shift))
              then [role_mismatch shiftId employeeId] else [] in
            let windows := map_get_list availabilityMap employeeId in
            let uncovered :=
              if negb (hasCoverage windows shift)
              then [availability shiftId employeeId] else [] in
            let hours := orZero (s_hours shift) in
            {| errors := errors vs ++ inactive ++ mismatch ++ uncovered;
               hoursByEmployee :=
                 map_set (hoursByEmployee vs) employeeId
                   (hoursOf (hoursByEmployee vs) employeeId + hours)%float;
               blocksByEmployee :=
                 map_push (blocksByEmployee vs) employeeId
                   {| b_start := s_start shift;
                      b_end := s_end shift;
                      b_shiftId := shiftId |} |}
        end
    end.

(** The body of [assignments.forEach]: reading a property of [null] or
    [undefined] throws. *)
Definition validateAssignment (shiftMap : Map shift) (employeeMap : Map employee)
    (availabilityMap : Map (list window)) (vs : vstate) (assignment : value)
  : result vstate :=
  match assignment with
  | VUndef | VNull => Throw TypeError
  | _ =>
      let shiftId := getProp assignment "shiftId" ||' getProp assignment "shift_id" in
      let employeeId :=
        getProp assignment "employeeId" ||' getProp assignment "employee_id" in
      Ok (checkAssignment shiftMap employeeMap availabilityMap vs shiftId employeeId)
  end.

Definition capErrors (employeeMap : Map employee) (hoursByEmployee : Map float)
  : list verror :=
  flat_map
    (fun kv =>
       let employeeId := fst kv in
       let hours := snd kv in
       match map_get employeeMap employeeId with
       | Some employee =>
           if (e_weeklyCap employee <? hours)%float
           then [weekly_cap employeeId] else []
       | None => []
       end)
    hoursByEmployee.

(** The loops over [i] and [j > i] for one employee. *)
Fixpoint overlapPairs (employeeId : value) (blocks : list block) : list verror :=
  match blocks with
  | [] => []
  | bi :: rest =>
      flat_map
        (fun bj =>
           if overlaps [bi] (dateValue (b_start bj)) (dateValue (b_end bj))
           then [overlap employeeId (b_shiftId bi) (b_shiftId bj)] else [])
        rest
        ++ overlapPairs employeeId rest
  end.

Definition overlapErrors (blocksByEmployee : Map (list block)) : list verror :=
  flat_map (fun kv => overlapPairs (fst kv) (snd kv)) blocksByEmployee.

Definition validate (assignments shifts employees availability : list value)
  : result (list verror) :=
  let employeeMap := normalizeEmployees employees in
  let availabilityMap := normalizeAvailability availability in
  let shiftMap :=
    fold_left (fun m shift => map_set m (s_id shift) shift)
      (normalizeShiftRecords shifts) [] in
  vs <- forEachM (validateAssignment shiftMap employeeMap availabilityMap)
          {| errors := []; hoursByEmployee := []; blocksByEmployee := [] |}
          assignments ;;
  Ok (errors vs
        ++ capErrors employeeMap (hoursByEmployee vs)
        ++ overlapErrors (blocksByEmployee vs)).

End WithRuntime.

(** ** The specification's wording, for comparison *)

(** Half-open interval intersection as the specification writes it. *)
Definition intersects (startA endA startB endB : Z) : bool :=
  (startA <? endB) && (startB <? endA).

(** The normalized range of a stored block, as [overlaps] recomputes it. *)
Definition normalizedBlock {rt : Runtime} (b : block) : range :=
  normalizeRange (dateValue (b_start b)) (dateValue (b_end b)).

(** [overlaps] as the specification describes it: the candidate's normalized
    range against each block's normalized range, a block that is unparsable
    or still has [end <= start] contributing nothing. *)
Definition overlaps_spec {rt : Runtime} (blocks : list block) (start end_ : value)
  : bool :=
  let candidate := normalizeRange start end_ in
  match r_start candidate, r_end candidate with
  | Some startB, Some endB =>
      existsb
        (fun b =>
           let normalized :=
             normalizeRange (dateValue (b_start b)) (dateValue (b_end b)) in
           match r_start normalized, r_end normalized with
           | Some startA, Some endA =>
               negb (endA <=? startA) && intersects startA endA startB endB
           | _, _ => false
           end)
        blocks
  | _, _ => false
  end.

(** ** Bookkeeping for the statements about numbers *)

(** The value of a number in units of 2^-1074, the least positive number;
    an infinity counts as 2^2098, beyond every finite number. *)
Definition SFvalue (x : spec_float) : Z :=
  match x with
  | S754_zero _ | S754_nan => 0
  | S754_infinity s => cond_Zopp s (2 ^ 2098)
  | S754_finite s m e => cond_Zopp s (Z.pos m * 2 ^ (e + 1074))
  end.

Definition SFis_nan (x : spec_float) : bool :=
  match x with
  | S754_nan => true
  | _ => false
  end.

Definition num (x : float) : Z := SFvalue (Prim2SF x).

(** The hours from one time value to another as [hoursBetween] computes
    them: the quotient of two doubles, 0 when it is not finite. *)
Definition doubleHours (a b : Z) : float :=
  let diff := ((Number_ofZ b - Number_ofZ a) / Number_ofZ MS_IN_HOUR)%float in
  if is_finite diff then diff else 0%float.

(** ** Bookkeeping for the statements about a pass *)

(** The shifts of a processed prefix that the assignments give to [id]. *)
Fixpoint committedShifts (id : value) (shifts : list shift)
    (assignments : list assignment) : list shift :=
  match shifts, assignments with
  | s :: shifts', a :: assignments' =>
      if value_eqb (a_employeeId a) id
      then s :: committedShifts id shifts' assignments'
      else committedShifts id shifts' assignments'
  | _, _ => []
  end.

(** The hours of a list of shifts as the pass adds them up: in order, each
    [shift.hours || 0] added to the running total, which is read back
    through [|| 0]. *)
Definition sumHours (l : list shift) : float :=
  fold_left (fun total s => orZero (total + orZero (s_hours s))%float) l 0%float.

(** No instant lies in both half-open intervals [[start, end)]. *)
Definition disjointShifts (a b : shift) : Prop :=
  forall sa ea sb eb,
    s_start a = Some sa -> s_end a = Some ea ->
    s_start b = Some sb -> s_end b = Some eb ->
    forall t, ~ (sa <= t < ea /\ sb <= t < eb).

(** The block that [trackAssignment] records for a shift. *)
Definition blockOfShift (s : shift) : block :=
  {| b_start := s_start s; b_end := s_end s; b_shiftId := s_id s |}.

(** An employee map as [normalizeEmployees] builds it: one entry per id,
    stored under the employee's own truthy id, with a positive cap. *)
Definition wfEmployees (m : Map employee) : Prop :=
  NoDup (map fst m)
  /\ Forall (fun kv => e_id (snd kv) = fst kv
                       /\ truthy (fst kv) = true
                       /\ (0 <? e_weeklyCap (snd kv))%float = true) m.

(** [st'] is [st] after [shift] was left unfilled. *)
Definition leftUnfilled (st : state) (shift : shift) (st' : state) : Prop :=
  exists reason,
    assignments st' =
    assignments st
      ++ [{| a_shiftId := s_id shift; a_employeeId := VNull;
             a_reason := Some reason |}]
    /\ totals st' = totals st
    /\ blocks st' = blocks st.

(** [st'] is [st] after [shift] was committed to [e]: an active employee of
    the map with a covering window, capacity for the shift and no
    overlapping block. *)
Definition committedTo {rt : Runtime} (employeeMap : Map employee)
    (availabilityMap : Map (list window)) (st : state) (shift : shift)
    (e : employee) (st' : state) : Prop :=
  map_get employeeMap (e_id e) = Some e
  /\ e_status e = "active"
  /\ accepts (VStr (e_role e)) (VStr (neededRole shift)) = true
  /\ available (coverageForShift (map_get_list availabilityMap (e_id e))
                  (s_start shift) (s_end shift)) = true
  /\ (hoursOf (totals st) (e_id e) + orZero (s_hours shift)
      <=? e_weeklyCap e)%float = true
  /\ overlaps (map_get_list (blocks st) (e_id e))
       (dateValue (s_start shift)) (dateValue (s_end shift)) = false
  /\ assignments st' =
     assignments st
       ++ [{| a_shiftId := s_id shift; a_employeeId := e_id e; a_reason := None |}]
  /\ totals st' =
     map_set (totals st) (e_id e)
       (hoursOf (totals st) (e_id e) + orZero (s_hours shift))%float
  /\ blocks st' = map_push (blocks st) (e_id e) (blockOfShift shift).

(** What holds of the accumulators after a prefix of the shifts. *)
Record passInvariant (employeeMap : Map employee) (processed : list shift)
    (st : state) : Prop := {
  inv_length : length (assignments st) = length processed;
  inv_ids : map a_shiftId (assignments st) = map s_id processed;
  inv_totals :
    forall id, id <> VNull ->
      hoursOf (totals st) id
      = sumHours (committedShifts id processed (assignments st));
  inv_blocks :
    forall id, id <> VNull ->
      map_get_list (blocks st) id =
      map blockOfShift (committedShifts id processed (assignments st));
  inv_cap :
    forall id e, map_get employeeMap id = Some e ->
      (hoursOf (totals st) id <=? e_weeklyCap e)%float = true;
  inv_disjoint :
    forall id, id <> VNull ->
      ForallOrdPairs disjointShifts
        (committedShifts id processed (assignments st))
}.

(** The validator's pairwise overlap test finds nothing for [bi], [bj]. *)
Definition noOverlap {rt : Runtime} (bi bj : block) : Prop :=
  overlaps [bi] (dateValue (b_start bj)) (dateValue (b_end bj)) = false.

(** A [role_mismatch] for a pairing that the Scheduler's [accepts] allowed
    although the two role tokens differ. *)
Definition roleDisagreement {rt : Runtime} (employeeMap : Map employee)
    (shifts : list shift) (err : verror) : Prop :=
  exists shift e,
    err = role_mismatch (s_id shift) (e_id e)
    /\ In shift shifts
    /\ map_get employeeMap (e_id e) = Some e
    /\ accepts (VStr (e_role e)) (VStr (neededRole shift)) = true
    /\ e_role e <> s_roleNeeded shift.

(** The validator's accumulators [vs] after it has read the assignments of
    the scheduler state [st]. *)
Record agreement {rt : Runtime} (employeeMap : Map employee) (shifts : list shift)
    (st : state) (vs : vstate) : Prop := {
  agr_hours : hoursByEmployee vs = totals st;
  agr_blocks : blocksByEmployee vs = blocks st;
  agr_errors : Forall (roleDisagreement employeeMap shifts) (errors vs);
  agr_cap :
    Forall (fun kv => forall e, map_get employeeMap (fst kv) = Some e ->
                                (e_weeklyCap e <? snd kv)%float = false) (totals st);
  agr_overlap : Forall (fun kv => ForallOrdPairs noOverlap (snd kv)) (blocks st)
}.

(** The validator's map from shift id to shift. *)
Definition shiftMapOf (shifts : list shift) : Map shift :=
  fold_left (fun m shift => map_set m (s_id shift) shift) shifts [].

(** The name the tie-break compares: [employee.name || ""]. *)
Definition nameOf (e : entry) : value := e_name (en_employee e) ||' VStr "".

(** The four levels of the tie-break between two candidates, of which the
    first is not after the second: a preference, the hours, the number of
    assignments and the names. *)
Definition notAfter {rt : Runtime} (prefA prefB : bool) (hoursA hoursB : float)
    (assignsA assignsB : nat) (nameA nameB : value) : Prop :=
  (prefA = true /\ prefB = false)
  \/ (prefA = prefB
      /\ ((hoursA <? hoursB)%float = true
          \/ ((hoursA =? hoursB)%float = true
              /\ ((assignsA < assignsB)%nat
                  \/ (assignsA = assignsB
                      /\ localeCompare (String_ nameA) (String_ nameB) <> Gt))))).

(** The order of the tie-break on the entries that the sort compares, read
    off the accumulators: [a] is not after [b]. *)
Definition precedes {rt : Runtime} (st : state) (a b : entry) : Prop :=
  notAfter (preferred (en_coverage a)) (preferred (en_coverage b))
    (hoursOf (totals st) (e_id (en_employee a)))
    (hoursOf (totals st) (e_id (en_employee b)))
    (length (map_get_list (blocks st) (e_id (en_employee a))))
    (length (map_get_list (blocks st) (e_id (en_employee b))))
    (nameOf a) (nameOf b).

(** The entries on which the comparator does not throw: the name is a
    string. *)
Definition comparable (c : entry) : Prop := exists s, nameOf c = VStr s.

(** The first element of a list is not after any element of it. *)
Definition headLeast {A : Type} (le : A -> A -> Prop) (l : list A) : Prop :=
  match l with
  | [] => True
  | h :: _ => forall z, In z l -> le h z
  end.

(** The collation of the host is a total preorder. *)
Class Collation (rt : Runtime) : Prop := {
  localeCompare_total :
    forall a b, localeCompare a b = Gt -> localeCompare b a <> Gt;
  localeCompare_trans :
    forall a b c,
      localeCompare a b <> Gt -> localeCompare b c <> Gt -> localeCompare a c <> Gt
}.

(** ** A host and records for the closed examples *)

(** A host in UTC that compares strings by code unit.  The examples pass
    instants as [Date] objects and caps as numbers, so its parsing and
    printing are never reached. *)
Definition utcHost : Runtime :=
  {| Date_parse := fun _ => None;
     Date_setHours := fun t h m =>
       let t' := t - t mod MS_IN_DAY + h * MS_IN_HOUR + m * 60000 in
       if Z.abs t' <=? maxTime then Some t' else None;
     Number_toString := fun _ => "";
     Date_toString := fun _ => "";
     parseFloat_string := fun _ => nan;
     localeCompare := String_as_OT.compare |}.

(** The same host with a collation that, as the root collation of ICU
    does on letters, compares the letters before their case, and puts a
    small letter before its capital. *)
Definition caseCollation (a b : string) : comparison :=
  match String_as_OT.compare (toLowerCase a) (toLowerCase b) with
  | Eq => CompOpp (String_as_OT.compare a b)
  | c => c
  end.

Definition icuHost : Runtime :=
  {| Date_parse := Date_parse (Runtime := utcHost);
     Date_setHours := Date_setHours (Runtime := utcHost);
     Number_toString := Number_toString (Runtime := utcHost);
     Date_toString := Date_toString (Runtime := utcHost);
     parseFloat_string := parseFloat_string (Runtime := utcHost);
     localeCompare := caseCollation |}.

(** [new Date(h * MS_IN_HOUR)] *)
Definition at_hour (h : Z) : value := VDate (Some (h * MS_IN_HOUR)).

Definition shiftRecord (id role : string) (startHour endHour : Z) : value :=
  VObj [("id", VStr id); ("role_needed", VStr role);
        ("start_time", at_hour startHour); ("end_time", at_hour endHour)].

Definition employeeRecord (id role : string) (name : value) (cap : float) : value :=
  VObj [("id", VStr id); ("role", VStr role); ("weekly_cap", VNum cap);
        ("status", VStr "Active"); ("name", name)].

Definition availabilityRecord (employeeId type : string) (startHour endHour : Z)
  : value :=
  VObj [("employee_id", VStr employeeId); ("type", VStr type);
        ("start_time", at_hour startHour); ("end_time", at_hour endHour)].

Definition blockAt (id : string) (startHour endHour : Z) : block :=
  {| b_start := Some (startHour * MS_IN_HOUR);
     b_end := Some (endHour * MS_IN_HOUR);
     b_shiftId := VStr id |}.

Definition blockWithoutTimes (id : string) : block :=
  {| b_start := None; b_end := None; b_shiftId := VStr id |}.

(** Canonical entities, as the normalizers build them. *)
Definition employeeOf (id role : string) (name : value) (cap : float) : employee :=
  {| e_id := VStr id; e_name := name; e_role := role;
     e_status := "active"; e_weeklyCap := cap |}.

Definition shiftOf (id role : string) (startHour endHour : Z) : shift :=
  {| s_id := VStr id; s_roleNeeded := role;
     s_start := Some (startHour * MS_IN_HOUR);
     s_end := Some (endHour * MS_IN_HOUR);
     s_hours := Number_ofZ (endHour - startHour);
     s_fields := VNull |}.

Definition shiftWithoutTimes (id role : string) : shift :=
  {| s_id := VStr id; s_roleNeeded := role;
     s_start := None; s_end := None; s_hours := 0; s_fields := VNull |}.

(** Four consecutive 12-hour shifts for one employee with a 40-hour cap. *)
Definition weekShifts : list value :=
  [shiftRecord "s1" "CNA" 7 19; shiftRecord "s2" "CNA" 31 43;
   shiftRecord "s3" "CNA" 55 67; shiftRecord "s4" "CNA" 79 91].

Definition weekEmployees : list value :=
  [employeeRecord "e1" "CNA" (VStr "Ann") 40].

Definition weekAvailability : list value :=
  [availabilityRecord "e1" "Available" 7 19;
   availabilityRecord "e1" "Available" 31 43;
   availabilityRecord "e1" "Available" 55 67;
   availabilityRecord "e1" "Available" 79 91].

(** Two shifts on one day that overlap, and a third on the next day. *)
Definition dayShifts : list value :=
  [shiftRecord "s1" "CNA" 7 19; shiftRecord "s2" "CNA" 13 19;
   shiftRecord "s3" "CNA" 31 43].

Definition dayAvailability : list value :=
  [availabilityRecord "e1" "Available" 7 23;
   availabilityRecord "e1" "Available" 31 43].

(** Two employees and two shifts on consecutive days: only the first
    employee has a window for the first shift, both have one for the second,
    the first of type [type]. *)
Definition tieEmployees : list value :=
  [employeeRecord "e1" "CNA" (VStr "Ann") 40;
   employeeRecord "e2" "CNA" (VStr "Bob") 40].

Definition tieAvailability (type : string) : list value :=
  [availabilityRecord "e1" "Available" 7 19;
   availabilityRecord "e1" type 31 43;
   availabilityRecord "e2" "Available" 31 43].

(** Two employees who differ in their names only, the first with a
    capital. *)
Definition caseEmployees : list value :=
  [employeeRecord "e1" "CNA" (VStr "Bob") 40;
   employeeRecord "e2" "CNA" (VStr "ann") 40].

Definition caseAvailability : list value :=
  [availabilityRecord "e1" "Available" 7 19;
   availabilityRecord "e2" "Available" 7 19].

(** Shifts of 20 minutes, 8 h 20 and 3 h 20 on one day, which do not
    overlap, and an employee with a cap of 12 hours: in doubles the three
    lengths add up to 12.000000000000002. *)
Definition timedShift (id : string) (start end_ : Z) : value :=
  VObj [("id", VStr id); ("role_needed", VStr "CNA");
        ("start_time", VDate (Some start)); ("end_time", VDate (Some end_))].

Definition thirdsShifts : list value :=
  [timedShift "s1" 0 1200000;
   timedShift "s2" 7200000 37200000;
   timedShift "s3" 39600000 51600000].

Definition thirdsEmployees : list value :=
  [employeeRecord "e1" "CNA" (VStr "Ann") 12].

Definition thirdsAvailability : list value :=
  [availabilityRecord "e1" "Available" 0 24].

(** A shift of 1.005 hours, and an employee whose id is [__proto__]. *)
Definition roundShifts : list value := [timedShift "s1" 0 3618000].

Definition roundEmployees : list value :=
  [employeeRecord "e1" "CNA" (VStr "Ann") 40;
   employeeRecord "__proto__" "CMA" (VStr "Bob") 40].

Definition roundAvailability : list value :=
  [availabilityRecord "e1" "Available" 0 12].

(** ** [buildDateFilter] of server/utils/data.js *)

(** [toISOString], a built-in of the host, is a parameter: for a valid
    time value it returns the UTC timestamp text, of which the filter keeps
    the first ten characters. *)
Definition buildDateFilter {rt : Runtime} (toISOString : Z -> string)
    (fieldName : string) (range : value) : result value :=
  match range with
  | VNull => Throw TypeError
  | _ =>
      let startClause :=
        if truthy (getProp range "start")
        then match toDate (getProp range "start") with
             | Some start =>
                 let iso := substring 0 10 (toISOString start) in
                 [("IS_AFTER({" ++ fieldName ++ "}, DATEADD('" ++ iso
                     ++ "', -1, 'day'))")%string]
             | None => []
             end
        else [] in
      let endClause :=
        if truthy (getProp range "end")
        then match toDate (getProp range "end") with
             | Some end_ =>
                 let iso := substring 0 10 (toISOString end_) in
                 [("IS_BEFORE({" ++ fieldName ++ "}, DATEADD('" ++ iso
                     ++ "', 1, 'day'))")%string]
             | None => []
             end
        else [] in
      match startClause ++ endClause with
      | [] => Ok VUndef
      | [clause] => Ok (VStr clause)
      | clauses => Ok (VStr ("AND(" ++ String.concat ", " clauses ++ ")")%string)
      end
  end.

(** ** Further bookkeeping definitions *)

(** A string that is empty or starts with a character that is not white
    space. *)
Definition headNotSpace (s : string) : Prop :=
  match s with
  | EmptyString => True
  | String c _ => is_space c = false
  end.

(** The test that [coverageForShift] makes of one window: the window has
    both times and contains the shift, whose end counts 24 hours later when
    it is at or before the start. *)
Definition covers (shiftStart shiftEnd : Z) (w : window) : bool :=
  match w_start w, w_end w with
  | Some start, Some end_ =>
      (start <=? shiftStart)
      && (end_ >=? (if shiftEnd <=? shiftStart
                    then shiftEnd + 24 * 60 * 60 * 1000 else shiftEnd))
  | _, _ => false
  end.

(** Some window of the employee contains the shift; some window that
    contains the shift is marked preferred. *)
Definition coveredBy (availabilityMap : Map (list window)) (shift : shift)
    (e : employee) : bool :=
  match s_start shift, s_end shift with
  | Some a, Some b => existsb (covers a b) (map_get_list availabilityMap (e_id e))
  | _, _ => false
  end.

Definition prefers (availabilityMap : Map (list window)) (shift : shift)
    (e : employee) : bool :=
  match s_start shift, s_end shift with
  | Some a, Some b =>
      existsb (fun w => covers a b w && w_preferred w)
        (map_get_list availabilityMap (e_id e))
  | _, _ => false
  end.

(** A candidate for [shift] that the coverage, cap and conflict filters
    leave, when the shifts [processed] have got the assignments [asg]: an
    active employee of the map whose role the shift accepts, with a window
    that contains the shift, whose committed hours with the hours of the
    shift stay within the cap, and none of whose committed shifts overlaps
    the shift. *)
Definition survives {rt : Runtime} (employeeMap : Map employee)
    (availabilityMap : Map (list window)) (processed : list shift)
    (asg : list assignment) (shift : shift) (e : employee) : Prop :=
  map_get employeeMap (e_id e) = Some e
  /\ e_status e = "active"
  /\ accepts (VStr (e_role e)) (VStr (neededRole shift)) = true
  /\ coveredBy availabilityMap shift e = true
  /\ (sumHours (committedShifts (e_id e) processed asg) + orZero (s_hours shift)
      <=? e_weeklyCap e)%float = true
  /\ overlaps (map blockOfShift (committedShifts (e_id e) processed asg))
       (dateValue (s_start shift)) (dateValue (s_end shift)) = false.

(** The order of the tie-break between two employees at that point: [a] is
    not after [b] when [a] has a preferred window for the shift and [b] has
    none, or both or neither have one and [a] has fewer committed hours, or
    as many and fewer committed shifts, or as many and a name that the
    collation of the host does not put after the name of [b]. *)
Definition tieBreak {rt : Runtime} (availabilityMap : Map (list window))
    (processed : list shift) (asg : list assignment) (shift : shift)
    (a b : employee) : Prop :=
  notAfter (prefers availabilityMap shift a) (prefers availabilityMap shift b)
    (sumHours (committedShifts (e_id a) processed asg))
    (sumHours (committedShifts (e_id b) processed asg))
    (length (committedShifts (e_id a) processed asg))
    (length (committedShifts (e_id b) processed asg))
    (e_name a ||' VStr "") (e_name b ||' VStr "").

(** What an assignment of the result says about its shift: it carries the
    shift's id and either names no employee and gives a reason, or gives no
    reason and names an active employee of the map whose role the shift
    accepts and who has a window that contains the shift. *)
Definition settles {rt : Runtime} (employeeMap : Map employee)
    (availabilityMap : Map (list window)) (shift : shift) (a : assignment) : Prop :=
  a_shiftId a = s_id shift
  /\ ((a_employeeId a = VNull /\ exists reason, a_reason a = Some reason)
      \/ (a_reason a = None
          /\ truthy (a_employeeId a) = true
          /\ exists e,
               map_get employeeMap (a_employeeId a) = Some e
               /\ e_status e = "active"
               /\ accepts (VStr (e_role e)) (VStr (neededRole shift)) = true
               /\ available
                    (coverageForShift (map_get_list availabilityMap (a_employeeId a))
                       (s_start shift) (s_end shift)) = true)).

(** The issue that [schedule] pushes when it releases an existing
    assignment. *)
Definition releasedIssue (shift : shift) (employeeId : value) : issue :=
  {| i_shiftId := s_id shift;
     i_employeeId := Some employeeId;
     i_reason := "Existing assignment violates scheduling rules and was released." |}.

(** [st] with the issue list replaced. *)
Definition withIssues (st : state) (l : list issue) : state :=
  {| assignments := assignments st; issues := l;
     totals := totals st; blocks := blocks st |}.

(** The unfilled assignments of a result and the issues without an
    employee, each as the pair of shift id and reason. *)
Definition unfilledAssignments (l : list assignment) : list (value * option string) :=
  map (fun a => (a_shiftId a, a_reason a))
    (filter (fun a => negb (truthy (a_employeeId a))) l).

Definition unfilledIssues (l : list issue) : list (value * option string) :=
  map (fun i => (i_shiftId i, Some (i_reason i)))
    (filter (fun i => negb (isSome (i_employeeId i))) l).

(** The two ids that [validate] reads from an assignment. *)
Definition assignmentIds (assignment : value) : value * value :=
  (getProp assignment "shiftId" ||' getProp assignment "shift_id",
   getProp assignment "employeeId" ||' getProp assignment "employee_id").

(** An assignment that carries both ids; [validate] skips every other. *)
Definition carriesIds (assignment : value) : bool :=
  truthy (fst (assignmentIds assignment)) && truthy (snd (assignmentIds assignment)).

(** The shifts that the assignments of a list give to [id], for the
    assignments whose shift and employee are both known: the ones that
    [validate] adds to the hours of [id]. *)
Definition resolvedShifts (shiftMap : Map shift) (employeeMap : Map employee)
    (id : value) (assignments : list value) : list shift :=
  flat_map
    (fun a =>
       if carriesIds a && value_eqb (snd (assignmentIds a)) id
       then match map_get shiftMap (fst (assignmentIds a)),
                  map_get employeeMap (snd (assignmentIds a)) with
            | Some s, Some _ => [s]
            | _, _ => []
            end
       else [])
    assignments.

(** An error about one assignment, as opposed to one about the hours or the
    blocks of an employee. *)
Definition aboutAssignment (err : verror) : bool :=
  match err with
  | weekly_cap _ | overlap _ _ _ => false
  | _ => true
  end.

(** The blocks that [validate] records for [id], in the order of the
    assignments. *)
Definition resolvedBlocks (shiftMap : Map shift) (employeeMap : Map employee)
    (id : value) (assignments : list value) : list block :=
  flat_map
    (fun a =>
       if carriesIds a && value_eqb (snd (assignmentIds a)) id
       then match map_get shiftMap (fst (assignmentIds a)),
                  map_get employeeMap (snd (assignmentIds a)) with
            | Some s, Some _ =>
                [{| b_start := s_start s; b_end := s_end s;
                    b_shiftId := fst (assignmentIds a) |}]
            | _, _ => []
            end
       else [])
    assignments.

(** The errors that [validate] reports about one assignment, whatever the
    other assignments are. *)
Definition assignmentErrors {rt : Runtime} (shiftMap : Map shift)
    (employeeMap : Map employee) (availabilityMap : Map (list window))
    (assignment : value) : list verror :=
  errors
    (checkAssignment shiftMap employeeMap availabilityMap
       {| errors := []; hoursByEmployee := []; blocksByEmployee := [] |}
       (fst (assignmentIds assignment)) (snd (assignmentIds assignment))).

(** One clause of the date filter: [name] is the comparison, [offset] the
    number of days by which the bound is moved. *)
Definition dateClause (toISOString : Z -> string) (fieldName name offset : string)
    (t : Z) : string :=
  (name ++ "({" ++ fieldName ++ "}, DATEADD('" ++ substring 0 10 (toISOString t)
     ++ "', " ++ offset ++ ", 'day'))")%string.

(** ** server/zod.js: the schemas behind [z] *)

(** An issue names the place it was found at: the keys and indices that lead
    from the parsed value to it. *)
Inductive pathItem : Type :=
| PKey (key : string)
| PIndex (index : nat).

Record zissue : Type := { zi_path : list pathItem; zi_message : string }.

(** A refinement of an object schema: [check] is called on the parsed
    object and may throw. *)
Record refinement : Type := {
  rf_check : value -> result bool;
  rf_message : string;
  rf_path : list pathItem
}.

(** A schema, by the function of [z] or the method that made it.  The
    builders of the source change the schema they are called on and return
    it; every schema of the program is built once and then only parsed
    with, so a built schema is a value here. *)
Unset Elimination Schemes.
Inductive schema : Type :=
| ZString (minLength : option nat)
| ZDate
| ZNull
| ZAny
| ZUnion (schemas : list schema)
| ZArray (item : schema)
| ZRecord (valueSchema : schema)
| ZObject (shape : list (string * schema)) (passthrough : bool)
    (refinements : list refinement)
| ZOptional (inner : schema)
| ZDefault (defaultValue : value) (inner : schema)
| ZRefine (check : value -> result bool) (message : string) (inner : schema).
Set Elimination Schemes.

(** Induction on schemas through the lists they nest. *)
Section SchemaInduction.
Variable P : schema -> Prop.
Hypothesis Hstring : forall m, P (ZString m).
Hypothesis Hdate : P ZDate.
Hypothesis Hnull : P ZNull.
Hypothesis Hany : P ZAny.
Hypothesis Hunion : forall l, Forall P l -> P (ZUnion l).
Hypothesis Harray : forall s, P s -> P (ZArray s).
Hypothesis Hrecord : forall s, P s -> P (ZRecord s).
Hypothesis Hobject :
  forall shape pass refs, Forall (fun kv => P (snd kv)) shape -> P (ZObject shape pass refs).
Hypothesis Hoptional : forall s, P s -> P (ZOptional s).
Hypothesis Hdefault : forall d s, P s -> P (ZDefault d s).
Hypothesis Hrefine : forall c m s, P s -> P (ZRefine c m s).

Fixpoint schema_induction (s : schema) : P s :=
  match s with
  | ZString m => Hstring m
  | ZDate => Hdate
  | ZNull => Hnull
  | ZAny => Hany
  | ZUnion l =>
      Hunion l
        ((fix go (l : list schema) : Forall P l :=
            match l with
            | [] => Forall_nil P
            | x :: rest => Forall_cons x (schema_induction x) (go rest)
            end) l)
  | ZArray s => Harray s (schema_induction s)
  | ZRecord s => Hrecord s (schema_induction s)
  | ZObject shape pass refs =>
      Hobject shape pass refs
        ((fix go (l : list (string * schema)) : Forall (fun kv => P (snd kv)) l :=
            match l with
            | [] => Forall_nil _
            | kv :: rest => Forall_cons kv (schema_induction (snd kv)) (go rest)
            end) shape)
  | ZOptional s => Hoptional s (schema_induction s)
  | ZDefault d s => Hdefault d s (schema_induction s)
  | ZRefine c m s => Hrefine c m s (schema_induction s)
  end.
End SchemaInduction.

Definition ZodError : string := "ZodError".

Definition pushIssueAt (issues : list zissue) (path : list pathItem)
    (message : string) : list zissue :=
  issues ++ [{| zi_path := path; zi_message := message |}].

(** [result[key] = v] on the own properties of an object. *)
Fixpoint objSet (props : list (string * value)) (key : string) (v : value)
  : list (string * value) :=
  match props with
  | [] => [(key, v)]
  | (k, x) :: rest =>
      if String.eqb k key then (k, v) :: rest else (k, x) :: objSet rest key v
  end.

(** [typeof v === "object" && v !== null && !Array.isArray(v)], with the
    own properties of [v]. *)
Definition ownProps (v : value) : option (list (string * value)) :=
  match v with
  | VObj props => Some (entries [] props)
  | VDate _ => Some []
  | _ => None
  end.

(** The decimal digits of a length, as a template literal prints it. *)
Definition decimal (n : nat) : string := NilEmpty.string_of_uint (Nat.to_uint n).

(** The loops of the parsers, over a parser [parseWith] for the members. *)

(** [for (const schema of schemas)] in a union: the first member that
    parses [v] without an issue of its own gives the result. *)
Fixpoint firstMatch (parseWith : schema -> result (value * list zissue))
    (schemas : list schema) : result (option value) :=
  match schemas with
  | [] => Ok None
  | candidate :: rest =>
      r <- parseWith candidate ;;
      match snd r with
      | [] => Ok (Some (fst r))
      | _ => firstMatch parseWith rest
      end
  end.

(** [value.map((item, index) => schema._parse(item, path.concat(index), issues))] *)
Fixpoint parseItems
    (parseAt : value -> list pathItem -> list zissue -> result (value * list zissue))
    (path : list pathItem) (items : list value) (index : nat) (issues : list zissue)
  : result (list value * list zissue) :=
  match items with
  | [] => Ok ([], issues)
  | item :: rest =>
      r <- parseAt item (path ++ [PIndex index]) issues ;;
      r' <- parseItems parseAt path rest (S index) (snd r) ;;
      Ok (fst r :: fst r', snd r')
  end.

(** [for (const key of Object.keys(value)) result[key] = ...] in a record. *)
Fixpoint parseEntries
    (parseAt : value -> list pathItem -> list zissue -> result (value * list zissue))
    (path : list pathItem) (props : list (string * value))
    (parsed : list (string * value)) (issues : list zissue)
  : result (list (string * value) * list zissue) :=
  match props with
  | [] => Ok (parsed, issues)
  | (key, x) :: rest =>
      r <- parseAt x (path ++ [PKey key]) issues ;;
      parseEntries parseAt path rest (objSet parsed key (fst r)) (snd r)
  end.

(** [for (const key of Object.keys(state.shape))] in an object. *)
Fixpoint parseShape
    (parseWith : schema -> value -> list pathItem -> list zissue
                 -> result (value * list zissue))
    (v : value) (path : list pathItem) (shape : list (string * schema))
    (parsed : list (string * value)) (issues : list zissue)
  : result (list (string * value) * list zissue) :=
  match shape with
  | [] => Ok (parsed, issues)
  | (key, childSchema) :: rest =>
      r <- parseWith childSchema (getProp v key) (path ++ [PKey key]) issues ;;
      parseShape parseWith v path rest
        (if negb (value_eqb (fst r) VUndef) || isSome (getOwn v key)
         then objSet parsed key (fst r) else parsed)
        (snd r)
  end.

(** [for (const refine of state.refinements)] in an object. *)
Fixpoint runRefinements (parsed : value) (path : list pathItem)
    (refinements : list refinement) (issues : list zissue) : result (list zissue) :=
  match refinements with
  | [] => Ok issues
  | refine :: rest =>
      ok <- rf_check refine parsed ;;
      runRefinements parsed path rest
        (if ok then issues
         else pushIssueAt issues (path ++ rf_path refine) (rf_message refine))
  end.

(** [schema._parse(value, path, issues)]: the parsed value and the issues
    after the call. *)
Fixpoint _parse (s : schema) (v : value) (path : list pathItem)
    (issues : list zissue) {struct s} : result (value * list zissue) :=
  match s with
  | ZString minLength =>
      match v with
      | VStr str =>
          match minLength with
          | Some n =>
              if (String.length str <? n)%nat
              then Ok (v, pushIssueAt issues path
                            ("String must contain at least " ++ decimal n
                               ++ " character(s)")%string)
              else Ok (v, issues)
          | None => Ok (v, issues)
          end
      | _ => Ok (v, pushIssueAt issues path "Expected string")
      end
  | ZDate =>
      match v with
      | VDate _ => Ok (v, issues)
      | _ => Ok (v, pushIssueAt issues path "Expected Date")
      end
  | ZNull =>
      match v with
      | VNull => Ok (v, issues)
      | _ => Ok (v, pushIssueAt issues path "Expected null")
      end
  | ZAny => Ok (v, issues)
  | ZUnion schemas =>
      found <- firstMatch (fun candidate => _parse candidate v path []) schemas ;;
      match found with
      | Some parsed => Ok (parsed, issues)
      | None => Ok (v, pushIssueAt issues path "Value did not match any union type")
      end
  | ZArray item =>
      match v with
      | VArr items =>
          r <- parseItems (_parse item) path items 0%nat issues ;;
          Ok (VArr (fst r), snd r)
      | _ => Ok (VArr [], pushIssueAt issues path "Expected array")
      end
  | ZRecord valueSchema =>
      match ownProps v with
      | Some props =>
          r <- parseEntries (_parse valueSchema) path props [] issues ;;
          Ok (VObj (fst r), snd r)
      | None => Ok (VObj [], pushIssueAt issues path "Expected object")
      end
  | ZObject shape passthrough refinements =>
      match ownProps v with
      | Some props =>
          r <- parseShape (fun childSchema => _parse childSchema) v path shape
                 (if passthrough then props else []) issues ;;
          issues' <- runRefinements (VObj (fst r)) path refinements (snd r) ;;
          Ok (VObj (fst r), issues')
      | None => Ok (VObj [], pushIssueAt issues path "Expected object")
      end
  | ZOptional inner =>
      match v with
      | VUndef => Ok (VUndef, issues)
      | _ => _parse inner v path issues
      end
  | ZDefault defaultValue inner =>
      _parse inner (match v with VUndef => defaultValue | _ => v end) path issues
  | ZRefine check message inner =>
      r <- _parse inner v path issues ;;
      ok <- check (fst r) ;;
      Ok (fst r, if ok then snd r else pushIssueAt (snd r) path message)
  end.

(** [schema.parse(value)] *)
Definition parse (s : schema) (v : value) : result value :=
  r <- _parse s v [] [] ;;
  match snd r with
  | [] => Ok (fst r)
  | _ => Throw ZodError
  end.

(** The methods of an object schema. *)
Definition passthrough (s : schema) : schema :=
  match s with
  | ZObject shape _ refinements => ZObject shape true refinements
  | _ => s
  end.

Fixpoint shapeSet (shape : list (string * schema)) (key : string) (s : schema)
  : list (string * schema) :=
  match shape with
  | [] => [(key, s)]
  | (k, x) :: rest =>
      if String.eqb k key then (k, s) :: rest else (k, x) :: shapeSet rest key s
  end.

Definition z_object (shape : list (string * schema)) : schema :=
  ZObject (fold_left (fun sh kv => shapeSet sh (fst kv) (snd kv)) shape []) false [].

Definition extend (s : schema) (additional : list (string * schema)) : schema :=
  match s with
  | ZObject shape pass refinements =>
      ZObject (fold_left (fun sh kv => shapeSet sh (fst kv) (snd kv)) additional shape)
        pass refinements
  | _ => s
  end.

Definition refine (s : schema) (check : value -> result bool) (message : string)
    (path : list pathItem) : schema :=
  match s with
  | ZObject shape pass refinements =>
      ZObject shape pass
        (refinements
           ++ [{| rf_check := check; rf_message := message; rf_path := path |}])
  | _ => ZRefine check message s
  end.

(** [z.string()] and [schema.min(length)], which string schemas have. *)
Definition z_string : schema := ZString None.
Definition z_min (s : schema) (length : nat) : schema :=
  match s with
  | ZString _ => ZString (Some length)
  | _ => s
  end.

(** ** server/schemas.js and the request schemas of server/index.js *)

Definition ScheduleRequest : schema :=
  z_object [("week_id", z_min z_string 1);
            ("start_date", z_min z_string 1);
            ("end_date", z_min z_string 1)].

Definition stringOrDate : schema := ZUnion [z_string; ZDate].
Definition nullableStringOrDate : schema := ZOptional (ZUnion [stringOrDate; ZNull]).

Definition baseRecordSchema : schema :=
  passthrough
    (z_object [("id", ZOptional (z_min z_string 1));
               ("fields", ZOptional (ZRecord ZAny))]).

(** [typeof v === "string" && v.trim()], as a condition. *)
Definition nonBlank (v : value) : bool :=
  match v with
  | VStr s => truthy (VStr (trim s))
  | _ => false
  end.

(** The check of the two refinements that require an id, for the aliases
    [a] and [b]; [v.id.trim()] throws when [v.id] is truthy and not a
    string. *)
Definition requiresId (a b : string) (v : value) : result bool :=
  byId <- (if truthy (getProp v "id")
           then match getProp v "id" with
                | VStr s => Ok (truthy (VStr (trim s)))
                | _ => Throw TypeError
                end
           else Ok false) ;;
  if byId then Ok true
  else if nonBlank (getProp v a) then Ok true
  else if nonBlank (getProp v b) then Ok true
  else
    let f := getProp v "fields" ||' VObj [] in
    Ok (nonBlank (getProp f a) || nonBlank (getProp f b) || nonBlank (getProp f "id")).

Definition employeeRecordSchema : schema :=
  refine
    (passthrough
       (extend baseRecordSchema
          [("employee_id", ZOptional (z_min z_string 1));
           ("employeeId", ZOptional (z_min z_string 1))]))
    (requiresId "employee_id" "employeeId")
    "Employee record requires an id" [PKey "id"].

Definition availabilityRecordSchema : schema :=
  passthrough
    (extend baseRecordSchema
       [("availability_id", ZOptional (z_min z_string 1));
        ("availabilityId", ZOptional (z_min z_string 1));
        ("employee_id", ZOptional (ZUnion [z_string; ZArray z_string]));
        ("employeeId", ZOptional (ZUnion [z_string; ZArray z_string]));
        ("employee", ZOptional (ZUnion [z_string; ZArray z_string]))]).

Definition shiftRecordSchema : schema :=
  refine
    (passthrough
       (extend baseRecordSchema
          [("shift_id", ZOptional (z_min z_string 1));
           ("shiftId", ZOptional (z_min z_string 1));
           ("date", nullableStringOrDate);
           ("role_needed", ZOptional (ZUnion [z_string; ZNull]));
           ("start_time", nullableStringOrDate);
           ("end_time", nullableStringOrDate);
           ("assigned_employee", ZOptional (ZUnion [z_string; ZNull]))]))
    (requiresId "shift_id" "shiftId")
    "Shift record requires an id" [PKey "shift_id"].

Definition assignmentRecordSchema : schema :=
  passthrough
    (extend baseRecordSchema
       [("shift_id", ZOptional (ZUnion [z_min z_string 1; ZNull]));
        ("shiftId", ZOptional (ZUnion [z_min z_string 1; ZNull]));
        ("employee_id", ZOptional (ZUnion [z_min z_string 1; ZNull]));
        ("employeeId", ZOptional (ZUnion [z_min z_string 1; ZNull]));
        ("assigned_employee", ZOptional (ZUnion [z_min z_string 1; ZNull]))]).

Definition scheduleRequestSchema : schema :=
  passthrough
    (extend ScheduleRequest
       [("shift_template", ZDefault (VArr []) (ZArray shiftRecordSchema));
        ("employees", ZDefault (VArr []) (ZArray employeeRecordSchema));
        ("availability", ZDefault (VArr []) (ZArray availabilityRecordSchema));
        ("existing_assignments",
         ZOptional (ZUnion [ZArray assignmentRecordSchema; ZRecord z_string]))]).

(** ** The handler of [POST /generate-schedule] in server/index.js *)

(** The answers of the handler.  The [zapier] member of a 200 answer, which
    reports on the webhook call, is not represented; an issue made from a
    validation error is that error. *)
Inductive answer : Type :=
| Generated (assignments : list assignment)               (* status 200 *)
    (totalsByEmployee : list (string * summary)) (issues : list (issue + verror))
| InvalidPayload (details : list zissue)                  (* status 400 *)
| Failed.                                                 (* status 500 *)

(** The elements of a parsed array. *)
Definition elements (v : value) : list value :=
  match v with
  | VArr items => items
  | _ => []
  end.

Definition generateSchedule {rt : Runtime} (body : value) : answer :=
  let payload := body ||' VObj [] in
  match _parse scheduleRequestSchema payload [] [] with
  | Throw _ => Failed
  | Ok (parsed, []) =>
      let shiftTemplate := elements (getProp parsed "shift_template") in
      let employees := elements (getProp parsed "employees") in
      let availability := elements (getProp parsed "availability") in
      let existingAssignments := getProp parsed "existing_assignments" ||' VArr [] in
      match schedule shiftTemplate employees availability existingAssignments with
      | Throw _ => Failed
      | Ok result =>
          match validate (map assignmentValue (res_assignments result))
                  shiftTemplate employees availability with
          | Throw _ => Failed
          | Ok validationErrors =>
              Generated (res_assignments result) (res_totalsByEmployee result)
                (map inl (res_issues result) ++ map inr validationErrors)
          end
      end
  | Ok (_, issues) => InvalidPayload issues
  end.

(** ** Bookkeeping for the statements about the request schemas *)

(** The issues of a call are appended to the ones passed in, and neither
    they nor the parsed value depend on those. *)
Definition framed {A : Type} (r0 : result (A * list zissue)) (issues : list zissue)
  : result (A * list zissue) :=
  match r0 with
  | Ok (a, new) => Ok (a, issues ++ new)
  | Throw e => Throw e
  end.

Definition frames
    (parseAt : value -> list pathItem -> list zissue -> result (value * list zissue))
  : Prop :=
  forall v path issues, parseAt v path issues = framed (parseAt v path []) issues.

Fixpoint distinct (keys : list string) : bool :=
  match keys with
  | [] => true
  | k :: rest => negb (existsb (String.eqb k) rest) && distinct rest
  end.

(** A value as [JSON.parse] builds it: no [undefined], no [Date], and
    objects whose keys are distinct. *)
Fixpoint isJSON (v : value) : bool :=
  match v with
  | VUndef | VDate _ => false
  | VNull | VBool _ | VNum _ | VStr _ => true
  | VArr items => forallb isJSON items
  | VObj props =>
      distinct (map fst props) && forallb (fun kv => isJSON (snd kv)) props
  end.

(** A schema without defaults whose object schemas all pass unknown keys
    through. *)
Fixpoint plain (s : schema) : bool :=
  match s with
  | ZString _ | ZDate | ZNull | ZAny => true
  | ZUnion schemas => forallb plain schemas
  | ZArray inner | ZRecord inner | ZOptional inner | ZRefine _ _ inner => plain inner
  | ZObject shape pass _ => pass && forallb (fun kv => plain (snd kv)) shape
  | ZDefault _ _ => false
  end.

(** ** server/zapierClient.js *)

Definition payloadSchema : schema :=
  z_object [("week_id", z_min z_string 1);
            ("start_date", z_min z_string 1);
            ("end_date", z_min z_string 1);
            ("assignments", ZArray ZAny);
            ("totalsByEmployee", ZRecord ZAny);
            ("issues", ZArray ZAny)].

(** What one [fetch] of the webhook, with the reading of the response text,
    comes to: a response, or an error that is thrown (a network failure, or
    the abort after five seconds). *)
Inductive fetchOutcome : Type :=
| Responded (ok : bool) (status : Z) (text : string)
| Rejected (message : string).

Record posted : Type := { p_ok : bool; p_status : Z; p_text : string }.

(** What a call leaves behind: the weeks posted so far, the bodies sent and
    the waits, in milliseconds, between the attempts. *)
Record webhookState : Type := {
  postedWeeks : list value;
  sent : list value;
  waits : list Z
}.

(** [set.has(v)] and [set.add(v)] of a [Set]. *)
Definition has (set : list value) (v : value) : bool :=
  existsb (fun x => value_eqb x v) set.

Definition add (set : list value) (v : value) : list value :=
  if has set v then set else set ++ [v].

(** The loop over the attempts, from [attempt] on; [fuel] is the number of
    attempts that remain, and the [n]-th call of [fetch] since the state
    was new ends as [outcomes n] says. *)
Fixpoint attemptsFrom (outcomes : nat -> fetchOutcome) (parsed : value)
    (fuel : nat) (attempt : nat) (st : webhookState) : posted * webhookState :=
  match fuel with
  | O => ({| p_ok := false; p_status := 500;
             p_text := "Zapier webhook failed after retries" |}, st)
  | S fuel' =>
      let st1 := {| postedWeeks := postedWeeks st;
                    sent := sent st ++ [parsed];
                    waits := waits st |} in
      let wait (s : webhookState) :=
        {| postedWeeks := postedWeeks s;
           sent := sent s;
           waits := waits s ++ [250 * 2 ^ Z.of_nat attempt] |} in
      match outcomes (length (sent st)) with
      | Responded ok status text =>
          if ok || (status <? 500)
          then
            ({| p_ok := ok; p_status := status; p_text := text |},
             if ok && (200 <=? status) && (status <? 300)
             then {| postedWeeks := add (postedWeeks st1) (getProp parsed "week_id");
                     sent := sent st1;
                     waits := waits st1 |}
             else st1)
          else
            attemptsFrom outcomes parsed fuel' (S attempt)
              (if (attempt <? 3 - 1)%nat then wait st1 else st1)
      | Rejected message =>
          if (attempt <? 3 - 1)%nat
          then attemptsFrom outcomes parsed fuel' (S attempt) (wait st1)
          else ({| p_ok := false; p_status := 0; p_text := message |}, st1)
      end
  end.

(** [postSchedule(payload, { force })] with the webhook address
    [webhookUrl]; a payload that the schema does not accept makes the call
    throw. *)
Definition postSchedule (webhookUrl : string) (outcomes : nat -> fetchOutcome)
    (payload : value) (force : bool) (st : webhookState)
  : result (posted * webhookState) :=
  parsed <- parse payloadSchema payload ;;
  if negb force && has (postedWeeks st) (getProp parsed "week_id")
  then Ok ({| p_ok := true; p_status := 204; p_text := "Duplicate week skipped" |}, st)
  else if negb (truthy (VStr webhookUrl))
  then Ok ({| p_ok := false; p_status := 0; p_text := "Missing Zapier webhook URL" |}, st)
  else Ok (attemptsFrom outcomes parsed 3 0 st).

(** ** Payloads for the closed examples *)

Definition exampleBody : value :=
  VObj [("week_id", VStr "2024-W18");
        ("start_date", VStr "2024-04-29");
        ("end_date", VStr "2024-05-05");
        ("shift_template", VArr [VObj [("id", VStr "s1"); ("role_needed", VStr "CNA")]]);
        ("employees",
         VArr [VObj [("employee_id", VStr "e1"); ("name", VStr "Ann");
                     ("role", VStr "CNA")]])].

Definition examplePayload : value :=
  VObj [("week_id", VStr "2024-W18");
        ("start_date", VStr "2024-04-29");
        ("end_date", VStr "2024-05-05");
        ("assignments", VArr []);
        ("totalsByEmployee", VObj []);
        ("issues", VArr [])].

Definition newWebhookState : webhookState :=
  {| postedWeeks := []; sent := []; waits := [] |}.

(** * Properties *)

(** ** Numbers *)

(** *** The comparison of two numbers is that of their values *)

Lemma digits2_size (m : positive) : digits2_pos m = Pos.size m.
Proof. induction m; cbn; congruence. Qed.

Lemma digits2_bounds (m : positive) :
  2 ^ (Z.pos (digits2_pos m) - 1) <= Z.pos m < 2 ^ Z.pos (digits2_pos m).
Proof.
  rewrite digits2_size. split.
  - pose proof (Pos.size_le m) as H.
    assert (Z.pos (2 ^ Pos.size m) <= Z.pos m~0) as H' by exact H.
    rewrite Pos2Z.inj_pow in H'.
    replace (Z.pos (Pos.size m)) with (Z.succ (Z.pos (Pos.size m) - 1)) in H' by lia.
    rewrite Z.pow_succ_r in H' by lia. lia.
  - pose proof (Pos.size_gt m) as H.
    assert (Z.pos m < Z.pos (2 ^ Pos.size m)) as H' by exact H.
    now rewrite Pos2Z.inj_pow in H'.
Qed.

(** What validity says of a finite number. *)
Lemma valid_finite (s : bool) (m : positive) (e : Z) :
  valid_binary (S754_finite s m e) = true ->
  -1074 <= e <= 971
  /\ Z.pos (digits2_pos m) <= 53
  /\ (-1074 < e -> Z.pos (digits2_pos m) = 53).
Proof.
  cbn. unfold bounded, canonical_mantissa, fexp, SpecFloat.emin, prec, emax.
  rewrite andb_true_iff, Z.eqb_eq, Z.leb_le. lia.
Qed.

Lemma finite_value_bounds (s : bool) (m : positive) (e : Z) :
  valid_binary (S754_finite s m e) = true ->
  0 < Z.pos m * 2 ^ (e + 1074) < 2 ^ 2098.
Proof.
  intros H. apply valid_finite in H. destruct H as (He & Hd & _).
  pose proof (digits2_bounds m) as [_ Hm].
  assert (Z.pos m < 2 ^ 53) as Hm'.
  { eapply Z.lt_le_trans; [exact Hm|]. apply Z.pow_le_mono_r; lia. }
  assert (0 < 2 ^ (e + 1074)) as Hp by (apply Z.pow_pos_nonneg; lia).
  assert (2 ^ (e + 1074) <= 2 ^ 2045) as Hq by (apply Z.pow_le_mono_r; lia).
  replace (2 ^ 2098) with (2 ^ 53 * 2 ^ 2045) by (rewrite <- Z.pow_add_r; [reflexivity|lia|lia]).
  split; [lia|]. nia.
Qed.

Lemma finite_compare (m1 m2 : positive) (e1 e2 : Z) (s1 s2 : bool) :
  valid_binary (S754_finite s1 m1 e1) = true ->
  valid_binary (S754_finite s2 m2 e2) = true ->
  match e1 ?= e2 with
  | Lt => Lt
  | Gt => Gt
  | Eq => Pos.compare_cont Eq m1 m2
  end = (Z.pos m1 * 2 ^ (e1 + 1074) ?= Z.pos m2 * 2 ^ (e2 + 1074)).
Proof.
  intros H1 H2. apply valid_finite in H1, H2.
  destruct H1 as (He1 & Hd1 & Hn1), H2 as (He2 & Hd2 & Hn2).
  pose proof (digits2_bounds m1) as [Hl1 Hu1].
  pose proof (digits2_bounds m2) as [Hl2 Hu2].
  assert (forall m e m' e',
             -1074 <= e -> e < e' ->
             Z.pos m < 2 ^ 53 -> 2 ^ 52 <= Z.pos m' ->
             Z.pos m * 2 ^ (e + 1074) < Z.pos m' * 2 ^ (e' + 1074)) as Hlt.
  { intros m e m' e' He Hee Hm Hm'.
    assert (0 < 2 ^ (e + 1074)) as Hp by (apply Z.pow_pos_nonneg; lia).
    replace (e' + 1074) with ((e + 1074) + (e' - e)) by lia.
    rewrite (Z.pow_add_r 2 (e + 1074) (e' - e)) by lia.
    assert (2 ^ 1 <= 2 ^ (e' - e)) as Hq by (apply Z.pow_le_mono_r; lia).
    change (2 ^ 1) with 2 in Hq. change (2 ^ 53) with (2 * 2 ^ 52) in Hm.
    assert (0 < 2 ^ 52) as Hk by reflexivity.
    generalize dependent (2 ^ 52). generalize dependent (2 ^ (e' - e)).
    generalize dependent (2 ^ (e + 1074)). intros P HP Q HQ K HmK Hm'K HK.
    apply Z.lt_le_trans with (2 * K * P); [nia|].
    apply Z.le_trans with (Z.pos m' * P * 2); nia. }
  assert (forall m, Z.pos (digits2_pos m) <= 53 -> Z.pos m < 2 ^ Z.pos (digits2_pos m) ->
                    Z.pos m < 2 ^ 53) as Hup.
  { intros m Hd Hu. eapply Z.lt_le_trans; [exact Hu|]. apply Z.pow_le_mono_r; lia. }
  destruct (Z.compare_spec e1 e2) as [-> | Hee | Hee].
  - rewrite <- Zmult_compare_compat_r
      by (apply Z.lt_gt, Z.pow_pos_nonneg; lia).
    reflexivity.
  - symmetry. apply Z.compare_lt_iff. apply Hlt; try lia.
    + now apply Hup.
    + rewrite Hn2 in Hl2 by lia. exact Hl2.
  - symmetry. apply Z.compare_gt_iff. apply Hlt; try lia.
    + now apply Hup.
    + rewrite Hn1 in Hl1 by lia. exact Hl1.
Qed.

(** On numbers that are not NaN the comparison is that of the values. *)
Lemma SFcompare_value (x y : spec_float) :
  valid_binary x = true -> valid_binary y = true ->
  SFis_nan x = false -> SFis_nan y = false ->
  SFcompare x y = Some (SFvalue x ?= SFvalue y).
Proof.
  intros Hx Hy Nx Ny.
  destruct x as [sx | sx | | sx mx ex], y as [sy | sy | | sy my ey];
    try discriminate; cbn [SFcompare SFvalue].
  - reflexivity.
  - destruct sy; reflexivity.
  - pose proof (finite_value_bounds _ _ _ Hy) as [Hp _].
    destruct sy; cbn [cond_Zopp]; f_equal; symmetry.
    + apply Z.compare_gt_iff. lia.
    + apply Z.compare_lt_iff. lia.
  - destruct sx; reflexivity.
  - destruct sx, sy; reflexivity.
  - pose proof (finite_value_bounds _ _ _ Hy) as [Hp Hq].
    destruct sx, sy; cbn [cond_Zopp]; f_equal; symmetry;
      (apply Z.compare_lt_iff + apply Z.compare_gt_iff); lia.
  - pose proof (finite_value_bounds _ _ _ Hx) as [Hp _].
    destruct sx; cbn [cond_Zopp]; f_equal; symmetry.
    + apply Z.compare_lt_iff. lia.
    + apply Z.compare_gt_iff. lia.
  - pose proof (finite_value_bounds _ _ _ Hx) as [Hp Hq].
    destruct sx, sy; cbn [cond_Zopp]; f_equal; symmetry;
      (apply Z.compare_lt_iff + apply Z.compare_gt_iff); lia.
  - pose proof (finite_value_bounds _ _ _ Hx) as [Hpx _].
    pose proof (finite_value_bounds _ _ _ Hy) as [Hpy _].
    destruct sx, sy; cbn [cond_Zopp]; f_equal.
    + rewrite Z.compare_opp.
      rewrite <- (finite_compare my mx ey ex true true Hy Hx).
      rewrite (Z.compare_antisym ey ex).
      destruct (ey ?= ex); cbn; try reflexivity.
      rewrite Pos.compare_cont_antisym. reflexivity.
    + symmetry. apply Z.compare_lt_iff. lia.
    + symmetry. apply Z.compare_gt_iff. lia.
    + apply (finite_compare mx my ex ey false false Hx Hy).
Qed.

(** *** Rounding keeps the sign *)

Lemma iter_xO (m d : positive) : Z.pos (Pos.iter xO m d) = Z.pos m * 2 ^ Z.pos d.
Proof.
  induction d as [|d IH] using Pos.peano_ind.
  - cbn. lia.
  - rewrite Pos.iter_succ, Pos2Z.inj_succ, Z.pow_succ_r by lia.
    rewrite Pos2Z.inj_xO, IH. lia.
Qed.

Lemma shl_align_value (mx : positive) (ex ez : Z) :
  ez <= ex ->
  Z.pos (fst (shl_align mx ex ez)) = Z.pos mx * 2 ^ (ex - ez).
Proof.
  intros H. unfold shl_align.
  destruct (ez - ex) as [|d|d] eqn:E; cbn [fst]; try lia.
  - replace (ex - ez) with 0 by lia. lia.
  - rewrite iter_xO. f_equal. f_equal. lia.
Qed.

Lemma shr_1_half (r : shr_record) (j : Z) :
  0 <= j -> 2 ^ (1 + j) <= shr_m r -> 2 ^ j <= shr_m (shr_1 r).
Proof.
  intros Hj. rewrite Z.pow_add_r by lia. change (2 ^ 1) with 2.
  pose proof (Z.pow_pos_nonneg 2 j ltac:(lia) Hj) as Hp.
  destruct r as [m r s]. cbn [shr_m].
  destruct m as [|[p|p|]|p]; cbn [shr_1 shr_m]; lia.
Qed.

Lemma iter_pos_shr_1 (k : positive) :
  forall (r : shr_record) (j : Z),
    0 <= j -> 2 ^ (Z.pos k + j) <= shr_m r -> 2 ^ j <= shr_m (iter_pos shr_1 k r).
Proof.
  induction k as [k IH | k IH |]; intros r j Hj H; cbn [iter_pos].
  - apply IH; [assumption|]. apply IH; [lia|]. apply shr_1_half; [lia|].
    replace (1 + (Z.pos k + (Z.pos k + j))) with (Z.pos k~1 + j) by lia. exact H.
  - apply IH; [assumption|]. apply IH; [lia|].
    replace (Z.pos k + (Z.pos k + j)) with (Z.pos k~0 + j) by lia. exact H.
  - apply shr_1_half; assumption.
Qed.

Lemma shr_m_of_loc (m : Z) (l : location) : shr_m (shr_record_of_loc m l) = m.
Proof. destruct l as [|[| |]]; reflexivity. Qed.

Lemma shr_fexp_pos (m : positive) (e : Z) (l : location) :
  -1074 <= e ->
  0 < shr_m (fst (shr_fexp prec emax (Z.pos m) e l))
  /\ -1074 <= snd (shr_fexp prec emax (Z.pos m) e l).
Proof.
  intros He. unfold shr_fexp, shr, fexp, SpecFloat.emin, prec, emax. cbn [Zdigits2].
  destruct (Z.max (Z.pos (digits2_pos m) + e - 53) (3 - 1024 - 53) - e)
    as [|k|k] eqn:E; cbn [fst snd]; rewrite ?shr_m_of_loc; try lia.
  split; [|lia].
  apply Z.lt_le_trans with (2 ^ 0); [reflexivity|].
  apply iter_pos_shr_1; [lia|]. rewrite shr_m_of_loc.
  pose proof (digits2_bounds m) as [Hl _].
  eapply Z.le_trans; [|exact Hl]. apply Z.pow_le_mono_r; lia.
Qed.

Lemma round_nearest_even_pos (m : Z) (l : location) :
  0 < m -> 0 < round_nearest_even m l.
Proof.
  intros H. destruct l as [|[| |]]; cbn; try lia. destruct (Z.even m); lia.
Qed.

Lemma binary_round_aux_sign (s : bool) (m : positive) (e : Z) (l : location) :
  -1074 <= e ->
  (exists m' e', binary_round_aux prec emax s (Z.pos m) e l = S754_finite s m' e')
  \/ binary_round_aux prec emax s (Z.pos m) e l = S754_infinity s.
Proof.
  intros He. unfold binary_round_aux.
  pose proof (shr_fexp_pos m e l He) as [Hm He'].
  destruct (shr_fexp prec emax (Z.pos m) e l) as [mrs' e'].
  cbn [fst snd] in Hm, He'.
  pose proof (round_nearest_even_pos (shr_m mrs') (loc_of_shr_record mrs') Hm) as Hr.
  destruct (round_nearest_even (shr_m mrs') (loc_of_shr_record mrs')) as [|p|p];
    try lia.
  pose proof (shr_fexp_pos p e' loc_Exact He') as [Hm2 _].
  destruct (shr_fexp prec emax (Z.pos p) e' loc_Exact) as [mrs'' e''].
  cbn [fst] in Hm2.
  destruct (shr_m mrs'') as [|q|q]; try lia.
  destruct (e'' <=? emax - prec); eauto.
Qed.

Lemma binary_round_sign (s : bool) (m : positive) (e : Z) :
  -1074 <= e ->
  (exists m' e', binary_round prec emax s m e = S754_finite s m' e')
  \/ binary_round prec emax s m e = S754_infinity s.
Proof.
  intros He. unfold binary_round.
  destruct (shl_align m e (fexp prec emax (Z.pos (digits2_pos m) + e)))
    as [mz ez] eqn:E.
  apply binary_round_aux_sign.
  unfold shl_align, fexp, SpecFloat.emin, prec, emax in E.
  destruct (Z.max (Z.pos (digits2_pos m) + e - 53) (3 - 1024 - 53) - e);
    injection E as _ <-; lia.
Qed.

(** The sign of a difference is the order of its operands. *)
Lemma SFsub_sign (x y : spec_float) :
  valid_binary x = true -> valid_binary y = true ->
  SFltb (SF64sub x y) (S754_zero false) = SFltb x y
  /\ SFltb (S754_zero false) (SF64sub x y) = SFltb y x.
Proof.
  intros Hx Hy.
  destruct x as [sx | sx | | sx mx ex], y as [sy | sy | | sy my ey];
    try (destruct sx; try destruct sy; split; reflexivity);
    try (destruct sy; split; reflexivity);
    try (split; reflexivity).
  pose proof (SFcompare_value _ _ Hx Hy eq_refl eq_refl) as Hxy.
  pose proof (SFcompare_value _ _ Hy Hx eq_refl eq_refl) as Hyx.
  unfold SFltb at 2 4. rewrite Hxy, Hyx. cbn [SFvalue].
  pose proof (valid_finite _ _ _ Hx) as (Hex & _).
  pose proof (valid_finite _ _ _ Hy) as (Hey & _).
  unfold SF64sub, SFsub.
  set (ez := Z.min ex ey).
  assert (0 < 2 ^ (ez + 1074)) as Hp by (apply Z.pow_pos_nonneg; lia).
  assert (Z.pos mx * 2 ^ (ex + 1074)
          = Z.pos (fst (shl_align mx ex ez)) * 2 ^ (ez + 1074)) as Ex.
  { rewrite shl_align_value by lia. rewrite <- Z.mul_assoc, <- Z.pow_add_r by lia.
    f_equal. f_equal. lia. }
  assert (Z.pos my * 2 ^ (ey + 1074)
          = Z.pos (fst (shl_align my ey ez)) * 2 ^ (ez + 1074)) as Ey.
  { rewrite shl_align_value by lia. rewrite <- Z.mul_assoc, <- Z.pow_add_r by lia.
    f_equal. f_equal. lia. }
  rewrite Ex, Ey.
  set (X := Z.pos (fst (shl_align mx ex ez))).
  set (Y := Z.pos (fst (shl_align my ey ez))).
  assert (cond_Zopp sx (X * 2 ^ (ez + 1074)) = cond_Zopp sx X * 2 ^ (ez + 1074)) as ->
      by (destruct sx; unfold cond_Zopp; ring).
  assert (cond_Zopp sy (Y * 2 ^ (ez + 1074)) = cond_Zopp sy Y * 2 ^ (ez + 1074)) as ->
      by (destruct sy; unfold cond_Zopp; ring).
  rewrite <- !Zmult_compare_compat_r by lia.
  destruct (cond_Zopp sx X - cond_Zopp sy Y) as [|d|d] eqn:Ed; cbn [binary_normalize].
  - assert (cond_Zopp sx X = cond_Zopp sy Y) as -> by lia.
    rewrite Z.compare_refl. split; reflexivity.
  - assert ((cond_Zopp sx X ?= cond_Zopp sy Y) = Gt) as -> by (apply Z.compare_gt_iff; lia).
    assert ((cond_Zopp sy Y ?= cond_Zopp sx X) = Lt) as -> by (apply Z.compare_lt_iff; lia).
    destruct (binary_round_sign false d ez ltac:(lia)) as [(m' & e' & ->) | ->];
      split; reflexivity.
  - assert ((cond_Zopp sx X ?= cond_Zopp sy Y) = Lt) as -> by (apply Z.compare_lt_iff; lia).
    assert ((cond_Zopp sy Y ?= cond_Zopp sx X) = Gt) as -> by (apply Z.compare_gt_iff; lia).
    destruct (binary_round_sign true d ez ltac:(lia)) as [(m' & e' & ->) | ->];
      split; reflexivity.
Qed.

(** *** The order of the primitive numbers *)

Lemma is_nan_spec (x : float) : is_nan x = SFis_nan (Prim2SF x).
Proof.
  unfold is_nan. rewrite eqb_spec. unfold SFeqb.
  destruct (SFis_nan (Prim2SF x)) eqn:E.
  - destruct (Prim2SF x); try discriminate. reflexivity.
  - rewrite (SFcompare_value _ _ (Prim2SF_valid x) (Prim2SF_valid x) E E).
    now rewrite Z.compare_refl.
Qed.

Lemma compare_num (a b : float) :
  is_nan a = false -> is_nan b = false ->
  SFcompare (Prim2SF a) (Prim2SF b) = Some (num a ?= num b).
Proof.
  rewrite !is_nan_spec. intros Ha Hb.
  exact (SFcompare_value _ _ (Prim2SF_valid a) (Prim2SF_valid b) Ha Hb).
Qed.

Lemma compare_nan (a b : float) :
  is_nan a = true \/ is_nan b = true ->
  SFcompare (Prim2SF a) (Prim2SF b) = None.
Proof.
  rewrite !is_nan_spec.
  destruct (Prim2SF a), (Prim2SF b); cbn; intros [H | H]; try discriminate;
    reflexivity.
Qed.

Lemma ltb_num (a b : float) :
  (a <? b)%float = true <-> is_nan a = false /\ is_nan b = false /\ num a < num b.
Proof.
  rewrite ltb_spec. unfold SFltb.
  destruct (is_nan a) eqn:Ha; [rewrite compare_nan by auto; intuition discriminate|].
  destruct (is_nan b) eqn:Hb; [rewrite compare_nan by auto; intuition discriminate|].
  rewrite compare_num by assumption.
  destruct (Z.compare_spec (num a) (num b)); intuition (try discriminate; try lia).
Qed.

Lemma eqb_num (a b : float) :
  (a =? b)%float = true <-> is_nan a = false /\ is_nan b = false /\ num a = num b.
Proof.
  rewrite eqb_spec. unfold SFeqb.
  destruct (is_nan a) eqn:Ha; [rewrite compare_nan by auto; intuition discriminate|].
  destruct (is_nan b) eqn:Hb; [rewrite compare_nan by auto; intuition discriminate|].
  rewrite compare_num by assumption.
  destruct (Z.compare_spec (num a) (num b)); intuition (try discriminate; try lia).
Qed.

Lemma leb_num (a b : float) :
  (a <=? b)%float = true <-> is_nan a = false /\ is_nan b = false /\ num a <= num b.
Proof.
  rewrite leb_spec. unfold SFleb.
  destruct (is_nan a) eqn:Ha; [rewrite compare_nan by auto; intuition discriminate|].
  destruct (is_nan b) eqn:Hb; [rewrite compare_nan by auto; intuition discriminate|].
  rewrite compare_num by assumption.
  destruct (Z.compare_spec (num a) (num b)); intuition (try discriminate; try lia).
Qed.

(** The sign of [a - b] is the order of [a] and [b]. *)
Lemma ltb_sub (a b : float) :
  ((a - b <? 0) = (a <? b))%float /\ ((0 <? a - b) = (b <? a))%float.
Proof.
  rewrite !ltb_spec, sub_spec.
  change (Prim2SF 0) with (S754_zero false).
  apply SFsub_sign; apply Prim2SF_valid.
Qed.

Lemma sign_sub_Gt (a b : float) :
  sign (a - b)%float = Gt <-> (b <? a)%float = true.
Proof.
  unfold sign. destruct (ltb_sub a b) as [-> ->].
  destruct (a <? b)%float eqn:E1, (b <? a)%float eqn:E2;
    try (split; (discriminate || reflexivity)).
  apply ltb_num in E1, E2. lia.
Qed.

Lemma sign_sub_Lt (a b : float) :
  sign (a - b)%float = Lt <-> (a <? b)%float = true.
Proof.
  unfold sign. destruct (ltb_sub a b) as [-> ->].
  destruct (a <? b)%float, (b <? a)%float; split; (discriminate || reflexivity).
Qed.

(** Two numbers that are not NaN are equal or one is below the other. *)
Lemma num_trichotomy (a b : float) :
  is_nan a = false -> is_nan b = false ->
  (a <? b)%float = true \/ (a =? b)%float = true \/ (b <? a)%float = true.
Proof.
  intros Ha Hb. rewrite !ltb_num, eqb_num.
  destruct (Z.lt_trichotomy (num a) (num b)) as [H | [H | H]]; auto 10.
Qed.


Lemma ltb_leb (a b : float) : (a <? b)%float = true -> (a <=? b)%float = true.
Proof. rewrite ltb_num, leb_num. intuition lia. Qed.

Lemma leb_not_ltb (a b : float) : (a <=? b)%float = true -> (b <? a)%float = false.
Proof.
  intros H. apply leb_num in H. apply not_true_is_false.
  rewrite ltb_num. intuition lia.
Qed.

Lemma ltb_false_leb (a b : float) :
  is_nan a = false -> is_nan b = false ->
  (b <? a)%float = false -> (a <=? b)%float = true.
Proof.
  intros Ha Hb H. apply leb_num. repeat split; try assumption.
  destruct (Z_lt_le_dec (num b) (num a)) as [Hlt | Hle]; [|exact Hle].
  assert ((b <? a)%float = true) by (apply ltb_num; auto). congruence.
Qed.

(** [x || 0] is a number, and within every positive bound that [x] is
    within. *)
Lemma orZero_not_nan (x : float) : is_nan (orZero x) = false.
Proof.
  unfold orZero. destruct (x =? 0)%float; cbn [orb]; [reflexivity|].
  destruct (is_nan x) eqn:E; [reflexivity | exact E].
Qed.

Lemma orZero_leb (x c : float) :
  (x <=? c)%float = true -> (0 <? c)%float = true -> (orZero x <=? c)%float = true.
Proof.
  intros Hx Hc. unfold orZero.
  destruct (_ || _); [now apply ltb_leb | assumption].
Qed.

Lemma ltb_orZero (c h : float) :
  (0 <? c)%float = true -> (c <? orZero h)%float = (c <? h)%float.
Proof.
  intros Hc. unfold orZero.
  destruct (h =? 0)%float eqn:Ez; cbn [orb].
  - apply ltb_num in Hc. apply eqb_num in Ez. change (num 0) with 0 in *.
    destruct (c <? 0)%float eqn:E1, (c <? h)%float eqn:E2; try reflexivity;
      apply ltb_num in E1 || apply ltb_num in E2; change (num 0) with 0 in *; lia.
  - destruct (is_nan h) eqn:En; [|reflexivity].
    apply ltb_num in Hc.
    destruct (c <? 0)%float eqn:E1, (c <? h)%float eqn:E2; try reflexivity;
      apply ltb_num in E1 || apply ltb_num in E2; change (num 0) with 0 in *;
      intuition (try congruence; try lia).
Qed.

Lemma hoursOf_not_nan (totals : Map float) (id : value) :
  is_nan (hoursOf totals id) = false.
Proof.
  unfold hoursOf. destruct (map_get totals id); [apply orZero_not_nan | reflexivity].
Qed.

(** ** Time arithmetic *)

Section TimeFacts.
Context {rt : Runtime}.

Lemma toDate_dateValue (d : option Z) : toDate (dateValue d) = d.
Proof. destruct d; reflexivity. Qed.

Lemma normalizeRange_dateValue (s e : option Z) :
  normalizeRange (dateValue s) (dateValue e) =
  match s, e with
  | Some s', Some e' =>
      if e' <=? s'
      then {| r_start := Some s'; r_end := Some (e' + MS_IN_DAY) |}
      else {| r_start := Some s'; r_end := Some e' |}
  | _, _ => {| r_start := None; r_end := None |}
  end.
Proof. unfold normalizeRange. now rewrite !toDate_dateValue. Qed.

(** C7.  On endpoints that convert without throwing, [normalizeRange]
    yields the null pair when an endpoint does not parse; when both parse and
    the end is at or before the start it yields the parsed start with the end
    moved forward by exactly 24 hours, provided that the moved end is a time
    value (at most [maxTime]); otherwise it yields both endpoints unchanged.
    Hence every result of a parseable pair with [end <= start], whose moved
    end is a time value, has an end 24 hours (86400000 ms) past the original
    one. *)
Theorem normalizeRange_spec (start end_ : value) :
  convertible start = true -> convertible end_ = true ->
  (toDate start = None \/ toDate end_ = None ->
   normalizeRange start end_ = {| r_start := None; r_end := None |})
  /\ (forall s e, toDate start = Some s -> toDate end_ = Some e -> e <= s ->
      e + MS_IN_DAY <= maxTime ->
      normalizeRange start end_ =
      {| r_start := Some s; r_end := Some (e + 24 * 60 * 60 * 1000) |})
  /\ (forall s e, toDate start = Some s -> toDate end_ = Some e -> s < e ->
      normalizeRange start end_ = {| r_start := Some s; r_end := Some e |})
  /\ (forall s e e', toDate start = Some s -> toDate end_ = Some e -> e <= s ->
      e + MS_IN_DAY <= maxTime ->
      r_end (normalizeRange start end_) = Some e' -> e' - e = 86400000).
Proof.
  intros _ _. unfold normalizeRange.
  repeat split.
  - intros [H | H]; rewrite H; [reflexivity|].
    now destruct (toDate start).
  - intros s e Hs He Hle _. rewrite Hs, He.
    apply Z.leb_le in Hle. now rewrite Hle.
  - intros s e Hs He Hlt. rewrite Hs, He.
    apply Z.leb_gt in Hlt. now rewrite Hlt.
  - intros s e e' Hs He Hle _. rewrite Hs, He.
    apply Z.leb_le in Hle. rewrite Hle. cbn.
    intros [= <-]. unfold MS_IN_DAY, MS_IN_HOUR. lia.
Qed.

End TimeFacts.

Lemma normalizeRange_spec_witness :
  @normalizeRange utcHost (at_hour 19) (at_hour 7) =
  {| r_start := Some (19 * 3600000); r_end := Some (7 * 3600000 + 86400000) |}.
Proof.
  apply (proj1 (proj2 (@normalizeRange_spec utcHost (at_hour 19) (at_hour 7)
                         eq_refl eq_refl))).
  - reflexivity.
  - reflexivity.
  - vm_compute. discriminate.
  - vm_compute. discriminate.
Defined.

Section OverlapFacts.
Context {rt : Runtime}.

Lemma overlapsBlock_true (cs ce : Z) (b : block) :
  overlapsBlock cs ce b = true <->
  exists startA endA,
    normalizedBlock b = {| r_start := Some startA; r_end := Some endA |}
    /\ startA < endA
    /\ startA < (if ce <=? cs then ce + MS_IN_DAY else ce)
    /\ cs < endA.
Proof.
  unfold overlapsBlock, normalizedBlock.
  destruct (normalizeRange _ _) as [[sa|] [ea|]]; cbn.
  - destruct (ea <=? sa) eqn:Hm.
    + split; [discriminate|].
      intros (sa' & ea' & [= <- <-] & Hlt & _). apply Z.leb_le in Hm. lia.
    + rewrite andb_true_iff, !Z.ltb_lt. apply Z.leb_gt in Hm. split.
      * intros [H1 H2]. exists sa, ea. auto.
      * intros (sa' & ea' & [= <- <-] & _ & H1 & H2). auto.
  - split; [discriminate|]. intros (? & ? & H & _). inversion H.
  - split; [discriminate|]. intros (? & ? & H & _). inversion H.
  - split; [discriminate|]. intros (? & ? & H & _). inversion H.
Qed.

Lemma overlaps_existsb (blocks : list block) (start end_ : value) :
  overlaps blocks start end_ =
  match r_start (normalizeRange start end_), r_end (normalizeRange start end_) with
  | Some cs, Some ce => existsb (overlapsBlock cs ce) blocks
  | _, _ => false
  end.
Proof.
  destruct blocks; [|reflexivity].
  cbn. destruct (normalizeRange start end_) as [[?|] [?|]]; reflexivity.
Qed.

(** C8 (amended).  [overlaps] is true exactly when the candidate parses and
    some block, whose normalized range is well formed, meets the
    candidate's range under half-open intersection, where the candidate's
    normalized end is moved a further 24 hours forward when it is still at
    or before the start.  An unparsable candidate gives [false], and a block
    that is unparsable or whose normalized range has [end <= start] can be
    removed without changing the answer. *)
Theorem overlaps_iff (blocks : list block) (start end_ : value) :
  (overlaps blocks start end_ = true <->
   exists startB endB b startA endA,
     normalizeRange start end_ = {| r_start := Some startB; r_end := Some endB |}
     /\ In b blocks
     /\ normalizedBlock b = {| r_start := Some startA; r_end := Some endA |}
     /\ startA < endA
     /\ startA < (if endB <=? startB then endB + MS_IN_DAY else endB)
     /\ startB < endA)
  /\ (normalizeRange start end_ = {| r_start := None; r_end := None |} ->
      overlaps blocks start end_ = false)
  /\ (forall b pre post,
        blocks = pre ++ b :: post ->
        (normalizedBlock b = {| r_start := None; r_end := None |}
         \/ exists startA endA,
              normalizedBlock b = {| r_start := Some startA; r_end := Some endA |}
              /\ endA <= startA) ->
        overlaps blocks start end_ = overlaps (pre ++ post) start end_).
Proof.
  split; [|split].
  - rewrite overlaps_existsb.
    destruct (normalizeRange start end_) as [[cs|] [ce|]] eqn:Hc;
      cbn [r_start r_end].
    + rewrite existsb_exists. split.
      * intros (b & Hin & Hb). apply overlapsBlock_true in Hb.
        destruct Hb as (sa & ea & Hn & H1 & H2 & H3).
        exists cs, ce, b, sa, ea. repeat split; assumption || reflexivity.
      * intros (cs' & ce' & b & sa & ea & [= <- <-] & Hin & Hn & H1 & H2 & H3).
        exists b. split; [assumption|].
        apply overlapsBlock_true. exists sa, ea.
        repeat split; assumption || reflexivity.
    + split; [discriminate|]. intros (? & ? & ? & ? & ? & H & _). inversion H.
    + split; [discriminate|]. intros (? & ? & ? & ? & ? & H & _). inversion H.
    + split; [discriminate|]. intros (? & ? & ? & ? & ? & H & _). inversion H.
  - intros Hc. rewrite overlaps_existsb, Hc. reflexivity.
  - intros b pre post -> Hb. rewrite !overlaps_existsb.
    destruct (normalizeRange start end_) as [[cs|] [ce|]]; try reflexivity.
    cbn [r_start r_end]. rewrite !existsb_app. cbn.
    replace (overlapsBlock cs ce b) with false; [reflexivity|].
    symmetry. apply not_true_is_false. intros Ht.
    apply overlapsBlock_true in Ht.
    destruct Ht as (sa & ea & Hn & Hlt & _).
    destruct Hb as [Hb | (sa' & ea' & Hb & Hle)]; rewrite Hb in Hn.
    + discriminate.
    + injection Hn as <- <-. lia.
Qed.

End OverlapFacts.

(** C8, as stated, fails for a candidate whose end lies more than 24 hours
    before its start: against the block from hour 40 to hour 50, the
    candidate starting at hour 30 with end at hour 0 normalizes to the range
    from hour 30 to hour 24, which the block does not meet, yet [overlaps]
    moves the end to hour 48 and answers [true]. *)
Lemma overlaps_spec_counterexample :
  @overlaps utcHost [blockAt "s1" 40 50] (at_hour 30) (at_hour 0) = true
  /\ @overlaps_spec utcHost [blockAt "s1" 40 50] (at_hour 30) (at_hour 0) = false.
Proof. split; reflexivity. Qed.

Lemma overlaps_iff_witness :
  @overlaps utcHost [blockWithoutTimes "s0"; blockAt "s1" 7 19]
    (at_hour 13) (at_hour 21) = true.
Proof.
  rewrite (proj2 (proj2 (@overlaps_iff utcHost
                           [blockWithoutTimes "s0"; blockAt "s1" 7 19]
                           (at_hour 13) (at_hour 21)))
             (blockWithoutTimes "s0") [] [blockAt "s1" 7 19] eq_refl
             (or_introl (eq_refl : @normalizedBlock utcHost (blockWithoutTimes "s0")
                                   = {| r_start := None; r_end := None |}))).
  apply (proj1 (@overlaps_iff utcHost [blockAt "s1" 7 19] (at_hour 13) (at_hour 21))).
  exists (13 * MS_IN_HOUR), (21 * MS_IN_HOUR), (blockAt "s1" 7 19),
    (7 * MS_IN_HOUR), (19 * MS_IN_HOUR).
  repeat split; try reflexivity. left; reflexivity.
Defined.

(** ** Keys and maps *)

Lemma option_Z_eqb_eq (a b : option Z) : option_Z_eqb a b = true <-> a = b.
Proof.
  destruct a, b; cbn; try (split; [discriminate | intros [=]]).
  - rewrite Z.eqb_eq. split; [intros ->; reflexivity | intros [= ->]; reflexivity].
  - split; reflexivity.
Qed.

Lemma value_eqb_eq (a b : value) : value_eqb a b = true <-> a = b.
Proof.
  revert b. induction a as [ | | x | x | x | x | xs IH | xs IH] using value_ind;
    intros b; destruct b as [ | | y | y | y | y | ys | ys]; cbn;
    try (split; [discriminate | intros [=]]); try (split; reflexivity).
  - rewrite Bool.eqb_true_iff. split; [intros -> | intros [= ->]]; reflexivity.
  - rewrite FloatAxioms.Leibniz.eqb_spec.
    split; [intros -> | intros [= ->]]; reflexivity.
  - rewrite String.eqb_eq. split; [intros -> | intros [= ->]]; reflexivity.
  - rewrite option_Z_eqb_eq. split; [intros -> | intros [= ->]]; reflexivity.
  - revert ys. induction IH as [|x xs Hx _ IHxs]; intros [|y ys].
    + split; reflexivity.
    + split; [discriminate | intros [=]].
    + split; [discriminate | intros [=]].
    + rewrite andb_true_iff, Hx, IHxs.
      split; [intros [-> [= ->]]; reflexivity | intros [= -> ->]; auto].
  - revert ys. induction IH as [|[k x] xs Hx _ IHxs]; intros [|[k' y] ys].
    + split; reflexivity.
    + split; [discriminate | intros [=]].
    + split; [discriminate | intros [=]].
    + cbn in Hx. rewrite !andb_true_iff, String.eqb_eq, Hx, IHxs.
      split; [intros [[-> ->] [= ->]]; reflexivity | intros [= -> -> ->]; auto].
Qed.

Lemma value_eqb_refl (a : value) : value_eqb a a = true.
Proof. now apply value_eqb_eq. Qed.

Lemma value_eqb_neq (a b : value) : value_eqb a b = false <-> a <> b.
Proof.
  rewrite <- value_eqb_eq. destruct (value_eqb a b); split; congruence.
Qed.

Section MapFacts.
Context {V : Type}.
Implicit Types (m : Map V) (k : value) (v : V).

Lemma map_get_set_same m k v : map_get (map_set m k v) k = Some v.
Proof.
  induction m as [|[k0 v0] m IH]; cbn.
  - now rewrite value_eqb_refl.
  - destruct (value_eqb k0 k) eqn:E; cbn; rewrite E; auto.
Qed.

Lemma map_get_set_other m k k' v :
  k <> k' -> map_get (map_set m k v) k' = map_get m k'.
Proof.
  intros Hne. induction m as [|[k0 v0] m IH]; cbn.
  - apply value_eqb_neq in Hne. now rewrite Hne.
  - destruct (value_eqb k0 k) eqn:E; cbn.
    + apply value_eqb_eq in E. subst k0.
      apply value_eqb_neq in Hne. now rewrite Hne.
    + now rewrite IH.
Qed.

Lemma map_get_In m k v : map_get m k = Some v -> In (k, v) m.
Proof.
  induction m as [|[k0 v0] m IH]; cbn; [discriminate|].
  destruct (value_eqb k0 k) eqn:E.
  - apply value_eqb_eq in E. intros [= ->]. left. now subst.
  - intros H. right. auto.
Qed.

End MapFacts.

Lemma map_get_list_push_same {V : Type} (m : Map (list V)) (k : value) (x : V) :
  map_get_list (map_push m k x) k = map_get_list m k ++ [x].
Proof. unfold map_get_list at 1, map_push. now rewrite map_get_set_same. Qed.

Lemma map_get_list_push_other {V : Type} (m : Map (list V)) (k k' : value) (x : V) :
  k <> k' -> map_get_list (map_push m k x) k' = map_get_list m k'.
Proof.
  intros Hne. unfold map_get_list at 1, map_push.
  rewrite map_get_set_other by assumption. reflexivity.
Qed.

(** ** Role compatibility in the Scheduler *)

Section RoleFacts.
Context {rt : Runtime}.

Lemma accepts_composite (empRole : value) :
  accepts empRole (VStr "CNA_OR_CMA") = true <->
  norm empRole = "CNA" \/ norm empRole = "CMA" \/ norm empRole = "CNA_OR_CMA".
Proof.
  unfold accepts.
  change (norm (VStr "CNA_OR_CMA")) with "CNA_OR_CMA".
  destruct (String.eqb (norm empRole) "CNA_OR_CMA") eqn:E.
  - apply String.eqb_eq in E. tauto.
  - apply String.eqb_neq in E. cbn.
    rewrite orb_true_iff, !String.eqb_eq. tauto.
Qed.

(** C2 (amended).  For a shift that requires the composite role
    [CNA_OR_CMA], the candidate pool consists exactly of the active
    employees whose normalized role is [CNA], [CMA] or [CNA_OR_CMA] itself:
    the exact-match rule of [accepts] applies before the composite rule. *)
Theorem composite_role_pool (employeeMap : Map employee) (shift : shift)
    (e : employee) :
  s_roleNeeded shift = "CNA_OR_CMA" ->
  (In e (activeEmployees employeeMap (neededRole shift)) <->
   In e (map_values employeeMap)
   /\ e_status e = "active"
   /\ (norm (VStr (e_role e)) = "CNA"
       \/ norm (VStr (e_role e)) = "CMA"
       \/ norm (VStr (e_role e)) = "CNA_OR_CMA")).
Proof.
  intros Hrole. unfold activeEmployees, neededRole. rewrite Hrole.
  change (norm (VStr "CNA_OR_CMA" ||' VUndef ||' VStr "")) with "CNA_OR_CMA".
  rewrite filter_In, andb_true_iff, String.eqb_eq, accepts_composite.
  tauto.
Qed.

End RoleFacts.

(** C2, as stated, fails on its composite half: an employee whose role is
    the token [CNA_OR_CMA] itself is in the pool of a shift requiring
    [CNA_OR_CMA], although that role is neither [CNA] nor [CMA]. *)
Lemma composite_role_counterexample :
  exists shift e,
    @normalizeShiftRecords utcHost [shiftRecord "s1" "CNA_OR_CMA" 7 19] = [shift]
    /\ @activeEmployees utcHost
         (@normalizeEmployees utcHost
            [employeeRecord "e1" "CNA_OR_CMA" (VStr "Ann") 40])
         (@neededRole utcHost shift) = [e]
    /\ e_role e <> "CNA" /\ e_role e <> "CMA".
Proof.
  eexists. eexists. split; [reflexivity|]. split; [reflexivity|].
  split; discriminate.
Qed.

Lemma composite_role_pool_witness :
  In (employeeOf "e1" "CMA" (VStr "Ann") 40)
     (@activeEmployees utcHost
        [(VStr "e1", employeeOf "e1" "CMA" (VStr "Ann") 40)]
        (@neededRole utcHost (shiftOf "s1" "CNA_OR_CMA" 7 19))).
Proof.
  apply (proj2 (@composite_role_pool utcHost
                  [(VStr "e1", employeeOf "e1" "CMA" (VStr "Ann") 40)]
                  (shiftOf "s1" "CNA_OR_CMA" 7 19)
                  (employeeOf "e1" "CMA" (VStr "Ann") 40) eq_refl)).
  split; [left; reflexivity|]. split; [reflexivity|]. right; left; reflexivity.
Defined.

(** The any-role half of the same sentence is not what [accepts] computes:
    unlike [roleMatches], it has no case for the empty requirement, so a
    shift entered as "Either" gets an empty pool from a [CNA] employee. *)
Example accepts_without_any_role_case (rt : Runtime) :
  map s_roleNeeded (normalizeShiftRecords [shiftRecord "s1" "Either" 7 19]) = [""]
  /\ map (fun shift =>
            activeEmployees
              (normalizeEmployees [employeeRecord "e1" "CNA" (VStr "Ann") 40])
              (neededRole shift))
         (normalizeShiftRecords [shiftRecord "s1" "Either" 7 19]) = [[]]
  /\ roleMatches (VStr "CNA") (VStr "") = true.
Proof. repeat split; reflexivity. Qed.

(** ** The pass, shift by shift *)

Section StepFacts.
Context {rt : Runtime}.
Variable employeeMap : Map employee.
Variable availabilityMap : Map (list window).
Variable existing : Map value.

(** C10.  A shift whose normalized start or end is null gets only the
    unfilled assignment and the issue with the missing-time reason, also
    when the existing-assignment map names an employee for it: nothing is
    committed and no released-assignment issue is recorded, because the
    missing-time check comes first. *)
Theorem missing_time_before_existing (st : state) (shift : shift)
    (employeeId : value) :
  s_start shift = None \/ s_end shift = None ->
  map_get existing (s_id shift) = Some employeeId ->
  scheduleShift employeeMap availabilityMap existing st shift =
  Ok {| assignments :=
          assignments st
            ++ [{| a_shiftId := s_id shift;
                   a_employeeId := VNull;
                   a_reason := Some "Shift is missing start or end time." |}];
        issues :=
          issues st
            ++ [{| i_shiftId := s_id shift;
                   i_employeeId := None;
                   i_reason := "Shift is missing start or end time." |}];
        totals := totals st;
        blocks := blocks st |}.
Proof.
  intros Htime _. unfold scheduleShift.
  destruct Htime as [H | H]; rewrite H; cbn [isSome negb orb].
  - reflexivity.
  - rewrite orb_true_r. reflexivity.
Qed.

End StepFacts.

Lemma missing_time_before_existing_witness :
  @scheduleShift utcHost
    [(VStr "e1", employeeOf "e1" "CNA" (VStr "Ann") 40)] []
    [(VStr "s1", VStr "e1")] initialState (shiftWithoutTimes "s1" "CNA") =
  Ok {| assignments :=
          [{| a_shiftId := VStr "s1";
              a_employeeId := VNull;
              a_reason := Some "Shift is missing start or end time." |}];
        issues :=
          [{| i_shiftId := VStr "s1";
              i_employeeId := None;
              i_reason := "Shift is missing start or end time." |}];
        totals := [];
        blocks := [] |}.
Proof.
  apply (@missing_time_before_existing utcHost
           [(VStr "e1", employeeOf "e1" "CNA" (VStr "Ann") 40)] []
           [(VStr "s1", VStr "e1")] initialState (shiftWithoutTimes "s1" "CNA")
           (VStr "e1")).
  - left; reflexivity.
  - reflexivity.
Defined.

(** ** Where the code departs from the specification *)

Section Departures.
Context {rt : Runtime}.

(** C1 fails on the code.  One shift requiring [CNA_OR_CMA], one active
    [CNA] employee with a covering window and capacity: [schedule] fills the
    shift and reports no issue, and [validate], run on that output with the
    same records, reports a [role_mismatch].  The validator compares the
    role tokens for equality and has no composite rule. *)
Theorem validate_rejects_schedule_output :
  exists res,
    schedule [shiftRecord "s1" "CNA_OR_CMA" 7 19]
      [employeeRecord "e1" "CNA" (VStr "Ann") 40]
      [availabilityRecord "e1" "Available" 7 19] (VArr []) = Ok res
    /\ res_assignments res =
       [{| a_shiftId := VStr "s1"; a_employeeId := VStr "e1"; a_reason := None |}]
    /\ res_issues res = []
    /\ validate (map assignmentValue (res_assignments res))
         [shiftRecord "s1" "CNA_OR_CMA" 7 19]
         [employeeRecord "e1" "CNA" (VStr "Ann") 40]
         [availabilityRecord "e1" "Available" 7 19]
       = Ok [role_mismatch (VStr "s1") (VStr "e1")].
Proof. eexists. repeat split; reflexivity. Qed.

(** C3 fails on the code.  A shift entered with role "Either" is normalized
    to the empty any-role marker, and the validator, which tests the
    requirement against the literal "EITHER", reports a [role_mismatch] for
    a [CNA] employee assigned to it. *)
Theorem validate_mismatch_on_any_role :
  map s_roleNeeded (normalizeShiftRecords [shiftRecord "s1" "Either" 7 19]) = [""]
  /\ validate [VObj [("shiftId", VStr "s1"); ("employeeId", VStr "e1")]]
       [shiftRecord "s1" "Either" 7 19]
       [employeeRecord "e1" "CNA" (VStr "Ann") 40]
       [availabilityRecord "e1" "Available" 7 19]
     = Ok [role_mismatch (VStr "s1") (VStr "e1")].
Proof. split; reflexivity. Qed.

(** C9 fails on the code.  Two eligible employees whose [name] is a number
    are kept by [normalizeEmployees] with that name, survive the three
    filters and tie on preference, hours and assignment count; the
    comparator then calls [localeCompare] on a number and the run ends in a
    [TypeError].  Both names are numbers, so this does not depend on the
    order in which the sort passes the two candidates to the comparator. *)
Theorem schedule_throws_on_numeric_names :
  map e_name
    (map_values
       (normalizeEmployees
          [employeeRecord "e1" "CNA" (VNum 1) 40;
           employeeRecord "e2" "CNA" (VNum 2) 40])) = [VNum 1; VNum 2]
  /\ map (fun shift =>
            map (fun c => e_id (en_employee c))
              (withoutConflicts
                 (normalizeEmployees
                    [employeeRecord "e1" "CNA" (VNum 1) 40;
                     employeeRecord "e2" "CNA" (VNum 2) 40])
                 (normalizeAvailability
                    [availabilityRecord "e1" "Available" 7 19;
                     availabilityRecord "e2" "Available" 7 19])
                 initialState shift (neededRole shift)))
       (normalizeShiftRecords [shiftRecord "s1" "CNA" 7 19])
     = [[VStr "e1"; VStr "e2"]]
  /\ schedule [shiftRecord "s1" "CNA" 7 19]
       [employeeRecord "e1" "CNA" (VNum 1) 40; employeeRecord "e2" "CNA" (VNum 2) 40]
       [availabilityRecord "e1" "Available" 7 19;
        availabilityRecord "e2" "Available" 7 19] (VArr [])
     = Throw TypeError
  /\ schedule [shiftRecord "s1" "CNA" 7 19]
       [employeeRecord "e2" "CNA" (VNum 2) 40; employeeRecord "e1" "CNA" (VNum 1) 40]
       [availabilityRecord "e1" "Available" 7 19;
        availabilityRecord "e2" "Available" 7 19] (VArr [])
     = Throw TypeError.
Proof.
  split; [reflexivity|]. split; [reflexivity|]. split.
  - unfold schedule. now vm_compute.
  - unfold schedule. now vm_compute.
Qed.

End Departures.

(** ** The employee map *)

Section EmployeeMapFacts.
Context {V : Type}.
Implicit Types (m : Map V) (k : value) (v : V).

Lemma map_set_Forall (P : value * V -> Prop) m k v :
  Forall P m -> P (k, v) -> Forall P (map_set m k v).
Proof.
  intros Hm Hkv. induction Hm as [|[k0 v0] m H0 Hm IH]; cbn.
  - auto.
  - destruct (value_eqb k0 k) eqn:E.
    + apply value_eqb_eq in E. subst k0. auto.
    + auto.
Qed.

Lemma map_set_keys m k v :
  map fst (map_set m k v) =
  if existsb (fun k0 => value_eqb k0 k) (map fst m)
  then map fst m else map fst m ++ [k].
Proof.
  induction m as [|[k0 v0] m IH]; cbn; [reflexivity|].
  destruct (value_eqb k0 k) eqn:E; cbn; [reflexivity|].
  rewrite IH. now destruct (existsb _ _).
Qed.

Lemma map_set_NoDup m k v :
  NoDup (map fst m) -> NoDup (map fst (map_set m k v)).
Proof.
  intros Hnd. rewrite map_set_keys.
  destruct (existsb _ _) eqn:E; [assumption|].
  apply NoDup_app; [assumption | repeat constructor; intros [] |].
  intros x Hx Hx'. destruct Hx' as [<- | []].
  assert (existsb (fun k0 => value_eqb k0 k) (map fst m) = true) as Ht; [|congruence].
  apply existsb_exists. exists k. split; [assumption | apply value_eqb_refl].
Qed.

Lemma NoDup_map_get m k v :
  NoDup (map fst m) -> In (k, v) m -> map_get m k = Some v.
Proof.
  induction m as [|[k0 v0] m IH]; cbn; [intros _ []|].
  intros Hnd Hin. inversion Hnd as [|? ? Hnotin Hnd']; subst.
  destruct Hin as [[= -> ->] | Hin].
  - now rewrite value_eqb_refl.
  - destruct (value_eqb k0 k) eqn:E.
    + apply value_eqb_eq in E. subst k0. exfalso. apply Hnotin.
      apply in_map_iff. exists (k, v). auto.
    + auto.
Qed.

End EmployeeMapFacts.

Section NormalizeEmployeesFacts.
Context {rt : Runtime}.

Lemma normalizeEmployee_wf (m : Map employee) (record : value) :
  wfEmployees m -> wfEmployees (normalizeEmployee m record).
Proof.
  intros [Hnd Hall]. unfold normalizeEmployee.
  destruct (truthy (readField record ["id"; "employee_id"; "employeeId"])) eqn:Hid;
    cbn [negb]; [|split; assumption].
  split.
  - now apply map_set_NoDup.
  - apply map_set_Forall; [assumption|]. cbn [fst snd e_id e_weeklyCap].
    split; [reflexivity|]. split; [assumption|].
    destruct (is_finite (parseFloat _)); cbn [andb]; [|reflexivity].
    destruct (0 <? parseFloat _)%float eqn:E; [assumption | reflexivity].
Qed.

Lemma normalizeEmployees_wf (records : list value) :
  wfEmployees (normalizeEmployees records).
Proof.
  unfold normalizeEmployees.
  assert (wfEmployees []) as H0 by (split; constructor).
  revert H0. generalize (@nil (value * employee)).
  induction records as [|r records IH]; intros m Hm; cbn; [assumption|].
  apply IH. now apply normalizeEmployee_wf.
Qed.

Lemma wfEmployees_get (m : Map employee) (id : value) (e : employee) :
  wfEmployees m -> map_get m id = Some e ->
  In e (map_values m) /\ e_id e = id /\ truthy id = true
  /\ (0 <? e_weeklyCap e)%float = true.
Proof.
  intros [_ Hall] Hget. apply map_get_In in Hget.
  rewrite Forall_forall in Hall. destruct (Hall _ Hget) as (H1 & H2 & H3).
  split; [|auto]. apply in_map_iff. exists (id, e). auto.
Qed.

Lemma wfEmployees_values (m : Map employee) (e : employee) :
  wfEmployees m -> In e (map_values m) -> map_get m (e_id e) = Some e.
Proof.
  intros [Hnd Hall] Hin. apply in_map_iff in Hin.
  destruct Hin as ([k e'] & <- & Hin). cbn [snd].
  rewrite Forall_forall in Hall. destruct (Hall _ Hin) as (H1 & _).
  cbn [fst snd] in H1. rewrite H1. now apply NoDup_map_get.
Qed.

End NormalizeEmployeesFacts.

(** ** The stable sort *)

Section SortFacts.
Context {A : Type}.
Variable cmp : A -> A -> result comparison.

Lemma insertM_In (x : A) (sorted r : list A) :
  insertM cmp x sorted = Ok r -> forall z, In z r <-> z = x \/ In z sorted.
Proof.
  revert r. induction sorted as [|y rest IH]; intros r; cbn.
  - intros [= <-] z. cbn. intuition congruence.
  - destruct (cmp y x) as [c|]; cbn; [|discriminate].
    destruct c.
    + destruct (insertM cmp x rest) as [r'|]; cbn; [|discriminate].
      intros [= <-] z. cbn. rewrite (IH r' eq_refl z). intuition congruence.
    + destruct (insertM cmp x rest) as [r'|]; cbn; [|discriminate].
      intros [= <-] z. cbn. rewrite (IH r' eq_refl z). intuition congruence.
    + intros [= <-] z. cbn. intuition congruence.
Qed.

Lemma sortFrom_In (l sorted r : list A) :
  sortFrom cmp sorted l = Ok r -> forall z, In z r <-> In z sorted \/ In z l.
Proof.
  revert sorted r. induction l as [|x rest IH]; intros sorted r; cbn.
  - intros [= <-] z. tauto.
  - destruct (insertM cmp x sorted) as [s'|] eqn:E; cbn; [|discriminate].
    intros H z. rewrite (IH _ _ H z), (insertM_In _ _ _ E z).
    intuition congruence.
Qed.

Lemma sortM_In (l r : list A) :
  sortM cmp l = Ok r -> forall z, In z r <-> In z l.
Proof.
  intros H z. rewrite (sortFrom_In _ _ _ H z). cbn. tauto.
Qed.

Variable dom : A -> Prop.
Variable le : A -> A -> Prop.
Hypothesis cmp_le :
  forall a b c, dom a -> dom b -> cmp a b = Ok c -> c <> Gt -> le a b.
Hypothesis cmp_gt : forall a b, dom a -> dom b -> cmp a b = Ok Gt -> le b a.
Hypothesis le_refl : forall a, dom a -> le a a.
Hypothesis le_trans :
  forall a b c, dom a -> dom b -> dom c -> le a b -> le b c -> le a c.

Lemma insertM_headLeast (x : A) (sorted r : list A) :
  dom x -> Forall dom sorted -> headLeast le sorted ->
  insertM cmp x sorted = Ok r -> headLeast le r.
Proof.
  intros Hx Hdom Hhead. destruct sorted as [|h rest]; cbn.
  - intros [= <-]. cbn. intros z [<- | []]. auto.
  - inversion Hdom as [|? ? Hh Hrest]; subst.
    destruct (cmp h x) as [c|] eqn:Ec; cbn; [|discriminate].
    assert (c <> Gt ->
            forall r', insertM cmp x rest = Ok r' -> headLeast le (h :: r')) as Hkeep.
    { intros Hc r' Er' z [<- | Hz]; [auto|].
      apply (insertM_In _ _ _ Er') in Hz. destruct Hz as [-> | Hz].
      - eapply cmp_le; eauto.
      - apply Hhead. now right. }
    destruct c.
    + destruct (insertM cmp x rest) as [r'|] eqn:Er; cbn; [|discriminate].
      intros [= <-]. apply Hkeep; [discriminate | reflexivity].
    + destruct (insertM cmp x rest) as [r'|] eqn:Er; cbn; [|discriminate].
      intros [= <-]. apply Hkeep; [discriminate | reflexivity].
    + intros [= <-]. intros z [<- | [<- | Hz]].
      * auto.
      * auto.
      * assert (dom z) by (rewrite Forall_forall in Hrest; auto).
        apply le_trans with h; auto. apply Hhead. now right.
Qed.

Lemma sortFrom_headLeast (l sorted r : list A) :
  Forall dom l -> Forall dom sorted -> headLeast le sorted ->
  sortFrom cmp sorted l = Ok r -> headLeast le r.
Proof.
  revert sorted r. induction l as [|x rest IH]; intros sorted r Hl Hs Hh; cbn.
  - now intros [= <-].
  - inversion Hl as [|? ? Hx Hrest]; subst.
    destruct (insertM cmp x sorted) as [s'|] eqn:E; cbn; [|discriminate].
    apply IH;
      [assumption | | exact (insertM_headLeast x sorted s' Hx Hs Hh E)].
    apply Forall_forall. intros z Hz. apply (insertM_In _ _ _ E) in Hz.
    destruct Hz as [-> | Hz]; [assumption|].
    rewrite Forall_forall in Hs. auto.
Qed.

Lemma sortM_headLeast (l r : list A) :
  Forall dom l -> sortM cmp l = Ok r -> headLeast le r.
Proof.
  intros Hl. apply sortFrom_headLeast; [assumption | constructor | exact I].
Qed.

Hypothesis cmp_ok : forall a b, dom a -> dom b -> exists c, cmp a b = Ok c.

Lemma insertM_total (x : A) (sorted : list A) :
  dom x -> Forall dom sorted -> exists r, insertM cmp x sorted = Ok r.
Proof.
  intros Hx. induction 1 as [|y rest Hy Hrest IH]; cbn; [eauto|].
  destruct (cmp_ok y x Hy Hx) as [c ->]. cbn.
  destruct IH as [r' ->]. cbn. destruct c; eauto.
Qed.

Lemma sortFrom_total (l sorted : list A) :
  Forall dom l -> Forall dom sorted -> exists r, sortFrom cmp sorted l = Ok r.
Proof.
  revert sorted. induction l as [|x rest IH]; intros sorted Hl Hs; cbn; [eauto|].
  inversion Hl as [|? ? Hx Hrest]; subst.
  destruct (insertM_total x sorted Hx Hs) as [s' E]. rewrite E. cbn.
  apply IH; [assumption|].
  apply Forall_forall. intros z Hz. apply (insertM_In _ _ _ E) in Hz.
  destruct Hz as [-> | Hz]; [assumption|].
  rewrite Forall_forall in Hs. auto.
Qed.

Lemma sortM_total (l : list A) : Forall dom l -> exists r, sortM cmp l = Ok r.
Proof. intros Hl. apply sortFrom_total; [assumption | constructor]. Qed.

End SortFacts.

(** ** The tie-break order *)

Section TieBreakFacts.
Context {rt : Runtime} {col : Collation rt}.
Variable st : state.

Lemma localeCompare_refl (a : string) : localeCompare a a <> Gt.
Proof. intros H. exact (localeCompare_total a a H H). Qed.

Lemma notAfter_refl (p : bool) (h : float) (n : nat) (a : value) :
  is_nan h = false -> notAfter p p h h n n a a.
Proof.
  intros Hh. right. split; [reflexivity|]. right.
  split; [apply eqb_num; auto|]. right. split; [reflexivity|].
  apply localeCompare_refl.
Qed.

Lemma notAfter_trans (p1 p2 p3 : bool) (h1 h2 h3 : float) (n1 n2 n3 : nat)
    (a1 a2 a3 : value) :
  notAfter p1 p2 h1 h2 n1 n2 a1 a2 -> notAfter p2 p3 h2 h3 n2 n3 a2 a3 ->
  notAfter p1 p3 h1 h3 n1 n3 a1 a3.
Proof.
  unfold notAfter.
  intros [[Ha Hb] | [Hab Hh1]] [[Hb' Hc] | [Hbc Hh2]].
  - congruence.
  - left. split; congruence.
  - left. split; congruence.
  - right. split; [congruence|].
    destruct Hh1 as [Hlt1 | [Heq1 Hn1]], Hh2 as [Hlt2 | [Heq2 Hn2]].
    + left. apply ltb_num in Hlt1, Hlt2. apply ltb_num. intuition lia.
    + left. apply ltb_num in Hlt1. apply eqb_num in Heq2. apply ltb_num.
      intuition lia.
    + left. apply eqb_num in Heq1. apply ltb_num in Hlt2. apply ltb_num.
      intuition lia.
    + right. split.
      { apply eqb_num in Heq1, Heq2. apply eqb_num. intuition lia. }
      destruct Hn1 as [Hl1 | [He1 Hs1]], Hn2 as [Hl2 | [He2 Hs2]].
      * left. lia.
      * left. lia.
      * left. lia.
      * right. split; [lia|]. eapply localeCompare_trans; eauto.
Qed.

Lemma precedes_refl (a : entry) : precedes st a a.
Proof. apply notAfter_refl, hoursOf_not_nan. Qed.

Lemma precedes_trans (a b c : entry) :
  precedes st a b -> precedes st b c -> precedes st a c.
Proof. apply notAfter_trans. Qed.

Lemma compareEntries_name (a b : entry) (c : comparison) :
  match nameOf a with
  | VStr nameA => Ok (localeCompare nameA (String_ (nameOf b)))
  | _ => Throw TypeError
  end = Ok c ->
  c = localeCompare (String_ (nameOf a)) (String_ (nameOf b)).
Proof.
  destruct (nameOf a); try discriminate. cbn. now intros [= <-].
Qed.

Lemma compareEntries_le (a b : entry) (c : comparison) :
  compareEntries st a b = Ok c -> c <> Gt -> precedes st a b.
Proof.
  pose proof (hoursOf_not_nan (totals st) (e_id (en_employee a))) as Ha.
  pose proof (hoursOf_not_nan (totals st) (e_id (en_employee b))) as Hb.
  unfold compareEntries, precedes, notAfter.
  destruct (Bool.eqb _ _) eqn:Ep; cbn [negb].
  - apply Bool.eqb_prop in Ep. intros Hc Hne. right. split; [assumption|].
    destruct (_ =? _)%float eqn:Eh; cbn [negb] in Hc.
    + right. split; [reflexivity|].
      destruct (Nat.eqb _ _) eqn:En; cbn [negb] in Hc.
      * apply Nat.eqb_eq in En. right. split; [assumption|].
        apply compareEntries_name in Hc. congruence.
      * injection Hc as <-. left.
        apply Nat.eqb_neq in En.
        destruct (Nat.compare_spec
                    (length (map_get_list (blocks st) (e_id (en_employee a))))
                    (length (map_get_list (blocks st) (e_id (en_employee b)))));
          [contradiction | assumption | contradiction].
    + injection Hc as <-. left.
      destruct (num_trichotomy _ _ Ha Hb) as [H | [H | H]]; [exact H | congruence |].
      apply sign_sub_Gt in H. contradiction.
  - intros [= <-] Hne. left.
    destruct (preferred (en_coverage a)), (preferred (en_coverage b));
      cbn in Ep; try discriminate; try contradiction; auto.
Qed.

Lemma compareEntries_gt (a b : entry) :
  compareEntries st a b = Ok Gt -> precedes st b a.
Proof.
  unfold compareEntries, precedes, notAfter.
  destruct (Bool.eqb _ _) eqn:Ep; cbn [negb].
  - apply Bool.eqb_prop in Ep. intros Hc. right. split; [congruence|].
    destruct (_ =? _)%float eqn:Eh; cbn [negb] in Hc.
    + right. split; [apply eqb_num in Eh; apply eqb_num; intuition congruence|].
      destruct (Nat.eqb _ _) eqn:En; cbn [negb] in Hc.
      * apply Nat.eqb_eq in En. right. split; [congruence|].
        apply compareEntries_name in Hc.
        apply localeCompare_total. congruence.
      * injection Hc as Hc. left. now apply Nat.compare_gt_iff in Hc.
    + injection Hc as Hc. left. now apply sign_sub_Gt.
  - intros [= Hc]. left.
    destruct (preferred (en_coverage a)), (preferred (en_coverage b));
      cbn in Ep; try discriminate; auto.
Qed.

Lemma compareEntries_ok (a b : entry) (s : string) :
  nameOf a = VStr s -> exists c, compareEntries st a b = Ok c.
Proof.
  intros Hname. unfold compareEntries. fold (nameOf a). fold (nameOf b).
  rewrite Hname.
  destruct (negb (Bool.eqb _ _)); [eauto|].
  destruct (negb (_ =? _)%float); [eauto|].
  destruct (negb (Nat.eqb _ _)); eauto.
Qed.

End TieBreakFacts.

(** ** Fresh assignment *)

Section FreshFacts.
Context {rt : Runtime}.
Variable employeeMap : Map employee.
Variable availabilityMap : Map (list window).
Variable existing : Map value.

Lemma withoutConflicts_incl (st : state) (shift : shift) (needed : string) (c : entry) :
  In c (withoutConflicts employeeMap availabilityMap st shift needed) ->
  In c (withinCap employeeMap availabilityMap st shift needed).
Proof. unfold withoutConflicts. rewrite filter_In. tauto. Qed.

Lemma withinCap_incl (st : state) (shift : shift) (needed : string) (c : entry) :
  In c (withinCap employeeMap availabilityMap st shift needed) ->
  In c (availabilityCandidates employeeMap availabilityMap shift needed).
Proof. unfold withinCap. rewrite filter_In. tauto. Qed.

Lemma availabilityCandidates_active (shift : shift) (needed : string) (c : entry) :
  In c (availabilityCandidates employeeMap availabilityMap shift needed) ->
  In (en_employee c) (activeEmployees employeeMap needed).
Proof.
  unfold availabilityCandidates. rewrite filter_In, in_map_iff.
  intros [(e & <- & He) _]. exact He.
Qed.

(** When some candidate survives the three filters, the fresh-assignment
    stage reaches the sort and commits the head of the sorted list. *)
Lemma assignFresh_sorted (st : state) (shift : shift) (needed : string) :
  withoutConflicts employeeMap availabilityMap st shift needed <> [] ->
  assignFresh employeeMap availabilityMap st shift needed =
  (sorted <- sortM (compareEntries st)
               (withoutConflicts employeeMap availabilityMap st shift needed) ;;
   match sorted with
   | first :: _ => Ok (commit st (e_id (en_employee first)) shift)
   | [] => Throw TypeError
   end).
Proof.
  intros Hne. unfold assignFresh.
  destruct (withoutConflicts employeeMap availabilityMap st shift needed)
    as [|c cs] eqn:Ewc; [contradiction|].
  assert (In c (withoutConflicts employeeMap availabilityMap st shift needed)) as Hc
    by (rewrite Ewc; now left).
  apply withoutConflicts_incl in Hc.
  destruct (withinCap employeeMap availabilityMap st shift needed) as [|? ?] eqn:Ecap;
    [destruct Hc|]. rewrite <- Ecap in Hc.
  apply withinCap_incl in Hc.
  destruct (availabilityCandidates employeeMap availabilityMap shift needed)
    as [|? ?] eqn:Eav; [destruct Hc|]. rewrite <- Eav in Hc.
  apply availabilityCandidates_active in Hc.
  destruct (activeEmployees employeeMap needed) as [|? ?]; [destruct Hc|].
  reflexivity.
Qed.

Lemma assignFresh_least {col : Collation rt} (st : state) (shift : shift)
    (needed : string) :
  withoutConflicts employeeMap availabilityMap st shift needed <> [] ->
  (forall c, In c (withoutConflicts employeeMap availabilityMap st shift needed) ->
             comparable c) ->
  exists chosen,
    In chosen (withoutConflicts employeeMap availabilityMap st shift needed)
    /\ (forall d, In d (withoutConflicts employeeMap availabilityMap st shift needed) ->
                  precedes st chosen d)
    /\ assignFresh employeeMap availabilityMap st shift needed =
       Ok (commit st (e_id (en_employee chosen)) shift).
Proof.
  intros Hne Hnames. rewrite assignFresh_sorted by assumption.
  set (cands := withoutConflicts employeeMap availabilityMap st shift needed) in *.
  assert (Forall comparable cands) as Hdom by (apply Forall_forall; exact Hnames).
  destruct (sortM_total (compareEntries st) comparable
              (fun a b Ha _ => let (s, Hs) := Ha in compareEntries_ok st a b s Hs)
              cands Hdom) as [sorted Hsorted].
  rewrite Hsorted. cbn [bind].
  pose proof (sortM_In _ _ _ Hsorted) as Hin.
  pose proof (sortM_headLeast (compareEntries st) comparable (precedes st)
                (fun a b c _ _ => compareEntries_le st a b c)
                (fun a b _ _ => compareEntries_gt st a b)
                (fun a _ => precedes_refl st a)
                (fun a b c _ _ _ => precedes_trans st a b c)
                cands sorted Hdom Hsorted) as Hhead.
  destruct sorted as [|first rest].
  - destruct cands as [|c cs]; [contradiction|].
    destruct (proj2 (Hin c) (or_introl eq_refl)).
  - exists first. split; [apply Hin; now left|]. split; [|reflexivity].
    intros d Hd. apply Hhead. now apply Hin.
Qed.

(** A shift with both times that is not kept on an existing assignment goes
    to the fresh-assignment stage, after the released-assignment issue when
    the existing map named an employee. *)
Lemma scheduleShift_fresh (st : state) (shift : shift) :
  s_start shift <> None -> s_end shift <> None ->
  (forall id, map_get existing (s_id shift) = Some id -> truthy id = true ->
              canAssign employeeMap availabilityMap st shift (neededRole shift) id
              = false) ->
  exists st0,
    scheduleShift employeeMap availabilityMap existing st shift =
    assignFresh employeeMap availabilityMap st0 shift (neededRole shift)
    /\ (st0 = st \/ exists i, st0 = pushIssue st i).
Proof.
  intros Hs He Hkeep. unfold scheduleShift.
  destruct (s_start shift); [|contradiction].
  destruct (s_end shift); [|contradiction].
  cbn [isSome negb orb].
  destruct (map_get existing (s_id shift)) as [id|].
  - destruct (truthy id) eqn:Et.
    + rewrite (Hkeep id eq_refl Et). eexists. split; [reflexivity|].
      right. eexists. reflexivity.
    + exists st. split; [reflexivity | now left].
  - exists st. split; [reflexivity | now left].
Qed.

Lemma assignFresh_outcome (st : state) (shift : shift) (needed : string) (st' : state) :
  assignFresh employeeMap availabilityMap st shift needed = Ok st' ->
  (exists reason, st' = unfilled st shift reason)
  \/ (exists c,
        In c (withoutConflicts employeeMap availabilityMap st shift needed)
        /\ st' = commit st (e_id (en_employee c)) shift).
Proof.
  unfold assignFresh.
  destruct (activeEmployees employeeMap needed); [intros [= <-]; eauto|].
  destruct (availabilityCandidates employeeMap availabilityMap shift needed);
    [intros [= <-]; eauto|].
  destruct (withinCap employeeMap availabilityMap st shift needed);
    [intros [= <-]; eauto|].
  destruct (withoutConflicts employeeMap availabilityMap st shift needed)
    as [|c cs]; [intros [= <-]; eauto|].
  destruct (sortM (compareEntries st) (c :: cs)) as [sorted|] eqn:Es;
    cbn [bind]; [|discriminate].
  destruct sorted as [|first rest]; [discriminate|].
  intros [= <-]. right. exists first. split; [|reflexivity].
  apply (sortM_In _ _ _ Es). now left.
Qed.

(** What surviving the three filters means for a candidate. *)
Lemma withoutConflicts_In (st : state) (shift : shift) (needed : string) (c : entry) :
  In c (withoutConflicts employeeMap availabilityMap st shift needed) <->
  In (en_employee c) (map_values employeeMap)
  /\ e_status (en_employee c) = "active"
  /\ accepts (VStr (e_role (en_employee c))) (VStr needed) = true
  /\ en_coverage c =
     coverageForShift (map_get_list availabilityMap (e_id (en_employee c)))
       (s_start shift) (s_end shift)
  /\ available (en_coverage c) = true
  /\ (hoursOf (totals st) (e_id (en_employee c)) + orZero (s_hours shift)
      <=? e_weeklyCap (en_employee c))%float = true
  /\ overlaps (map_get_list (blocks st) (e_id (en_employee c)))
       (dateValue (s_start shift)) (dateValue (s_end shift)) = false.
Proof.
  unfold withoutConflicts, withinCap, availabilityCandidates, activeEmployees.
  rewrite !filter_In, in_map_iff, negb_true_iff. split.
  - intros [[[(e & <- & He) Hav] Hcap] Hov]. cbn [en_employee en_coverage] in *.
    apply filter_In in He. destruct He as [Hin Hact].
    apply andb_true_iff in Hact. destruct Hact as [Hst Hacc].
    apply String.eqb_eq in Hst. auto 10.
  - intros (Hin & Hst & Hacc & Hcov & Hav & Hcap & Hov).
    repeat split; try assumption.
    exists (en_employee c). split.
    + destruct c as [e cov]. cbn [en_employee en_coverage] in *. now subst cov.
    + apply filter_In. split; [assumption|].
      apply andb_true_iff. split; [now apply String.eqb_eq | assumption].
Qed.

(** Candidates exist only for a shift that has both times. *)
Lemma availabilityCandidates_times (shift : shift) (needed : string) (c : entry) :
  In c (availabilityCandidates employeeMap availabilityMap shift needed) ->
  s_start shift <> None /\ s_end shift <> None.
Proof.
  unfold availabilityCandidates. rewrite filter_In, in_map_iff.
  intros [(e & <- & _) Hav]. cbn [en_coverage] in Hav.
  unfold coverageForShift in Hav.
  destruct (s_start shift); [|discriminate].
  destruct (s_end shift); [|discriminate].
  split; discriminate.
Qed.

Lemma withoutConflicts_times (st : state) (shift : shift) (needed : string) (c : entry) :
  In c (withoutConflicts employeeMap availabilityMap st shift needed) ->
  s_start shift <> None /\ s_end shift <> None.
Proof.
  intros Hc. apply withoutConflicts_incl, withinCap_incl in Hc.
  exact (availabilityCandidates_times _ _ _ Hc).
Qed.

End FreshFacts.

Lemma utcHost_collation : Collation utcHost.
Proof.
  assert (forall a b, String_as_OT.compare a b <> Gt -> a = b \/ String_as_OT.lt a b)
    as Hle.
  { intros a b H. destruct (String_as_OT.compare_spec a b); auto. contradiction. }
  assert (forall a, String_as_OT.compare a a <> Gt) as Hrefl.
  { intros a H. destruct (String_as_OT.compare_spec a a) as [_ | _ | Hlt];
      try discriminate. exact (StrictOrder_Irreflexive a Hlt). }
  split; cbn.
  - intros a b Hgt Hgt'.
    destruct (String_as_OT.compare_spec a b) as [_ | _ | Hlt]; try discriminate.
    unfold String_as_OT.lt in Hlt. congruence.
  - intros a b c Hab Hbc.
    apply Hle in Hab. apply Hle in Hbc.
    destruct Hab as [-> | Hab]; destruct Hbc as [<- | Hbc]; auto.
    + unfold String_as_OT.lt in Hbc. congruence.
    + unfold String_as_OT.lt in Hab. congruence.
    + assert (String_as_OT.lt a c) as Hac by (etransitivity; eassumption).
      unfold String_as_OT.lt in Hac. congruence.
Qed.

(** ** One step of the pass *)

Section StepOutcome.
Context {rt : Runtime}.
Variable employeeMap : Map employee.
Variable availabilityMap : Map (list window).
Variable existing : Map value.
Hypothesis employeeMap_wf : wfEmployees employeeMap.

Lemma canAssign_candidate (st : state) (shift : shift) (needed : string) (id : value) :
  canAssign employeeMap availabilityMap st shift needed id = true ->
  exists c,
    In c (withoutConflicts employeeMap availabilityMap st shift needed)
    /\ e_id (en_employee c) = id.
Proof.
  unfold canAssign. destruct (map_get employeeMap id) as [e|] eqn:Hget;
    [|discriminate].
  destruct (wfEmployees_get _ _ _ employeeMap_wf Hget) as (Hin & Hid & _).
  rewrite !andb_true_iff, negb_true_iff, String.eqb_eq.
  intros [[[[Hst Hacc] Hav] Hcap] Hov].
  exists {| en_employee := e;
            en_coverage :=
              coverageForShift (map_get_list availabilityMap (e_id e))
                (s_start shift) (s_end shift) |}.
  split; [|exact Hid].
  apply withoutConflicts_In. cbn [en_employee en_coverage]. rewrite Hid.
  auto 10.
Qed.

(** The two ways a step can end: the shift is left unfilled, or it is
    committed to an employee who passes every check. *)
Lemma scheduleShift_outcome (st : state) (shift : shift) (st' : state) :
  scheduleShift employeeMap availabilityMap existing st shift = Ok st' ->
  leftUnfilled st shift st'
  \/ exists e, committedTo employeeMap availabilityMap st shift e st'.
Proof.
  assert (forall st0 c,
             totals st0 = totals st -> blocks st0 = blocks st ->
             assignments st0 = assignments st ->
             In c (withoutConflicts employeeMap availabilityMap st shift
                     (neededRole shift)) ->
             st' = commit st0 (e_id (en_employee c)) shift ->
             exists e, committedTo employeeMap availabilityMap st shift e st')
    as Hcommit.
  { intros st0 c Ht Hb Ha Hc ->.
    apply withoutConflicts_In in Hc.
    destruct Hc as (Hin & Hst & Hacc & Hcov & Hav & Hcap & Hov).
    exists (en_employee c). unfold committedTo.
    split; [now apply wfEmployees_values|].
    cbn [commit trackAssignment pushAssignment assignments totals blocks].
    rewrite Ht, Hb, Ha, <- Hcov. auto 10. }
  assert (forall st0,
             totals st0 = totals st -> blocks st0 = blocks st ->
             assignments st0 = assignments st ->
             assignFresh employeeMap availabilityMap st0 shift (neededRole shift)
             = Ok st' ->
             leftUnfilled st shift st'
             \/ exists e, committedTo employeeMap availabilityMap st shift e st')
    as Hfresh.
  { intros st0 Ht Hb Ha Hf. apply assignFresh_outcome in Hf.
    destruct Hf as [[reason ->] | (c & Hc & Hst')].
    - left. exists reason. cbn. rewrite Ht, Hb, Ha. auto.
    - right. refine (Hcommit st0 c Ht Hb Ha _ Hst').
      unfold withoutConflicts, withinCap in *. now rewrite <- Ht, <- Hb. }
  unfold scheduleShift.
  destruct (negb (isSome (s_start shift)) || negb (isSome (s_end shift))).
  { intros [= <-]. left. eexists. repeat split. }
  destruct (map_get existing (s_id shift)) as [id|].
  - destruct (truthy id) eqn:Et.
    + destruct (canAssign employeeMap availabilityMap st shift (neededRole shift) id)
        eqn:Ecan.
      * intros [= <-]. right.
        destruct (canAssign_candidate _ _ _ _ Ecan) as (c & Hc & <-).
        now apply (Hcommit st c).
      * apply Hfresh; reflexivity.
    + apply Hfresh; reflexivity.
  - apply Hfresh; reflexivity.
Qed.

End StepOutcome.

(** ** The invariant of the pass *)

Lemma committedShifts_snoc (id : value) (shifts : list shift)
    (asg : list assignment) (x : shift) (a : assignment) :
  length asg = length shifts ->
  committedShifts id (shifts ++ [x]) (asg ++ [a]) =
  committedShifts id shifts asg
    ++ (if value_eqb (a_employeeId a) id then [x] else []).
Proof.
  revert asg. induction shifts as [|s shifts IH]; intros [|a0 asg]; cbn;
    try discriminate.
  - intros _. now destruct (value_eqb _ _).
  - intros [= Hlen]. rewrite (IH asg Hlen).
    now destruct (value_eqb (a_employeeId a0) id).
Qed.

Lemma sumHours_snoc (l : list shift) (x : shift) :
  sumHours (l ++ [x]) = orZero (sumHours l + orZero (s_hours x))%float.
Proof. unfold sumHours. now rewrite fold_left_app. Qed.

Lemma ForallOrdPairs_snoc {A : Type} (R : A -> A -> Prop) (l : list A) (x : A) :
  ForallOrdPairs R l -> Forall (fun a => R a x) l -> ForallOrdPairs R (l ++ [x]).
Proof.
  induction 1 as [|a l Ha Hl IH]; intros Hx; cbn.
  - repeat constructor.
  - inversion Hx as [|? ? Hax Hlx]; subst. constructor.
    + apply Forall_app. split; [assumption | repeat constructor; assumption].
    + auto.
Qed.

Lemma ForallOrdPairs_nth {A : Type} (R : A -> A -> Prop) (l : list A) :
  (forall a b, R a b -> R b a) ->
  ForallOrdPairs R l ->
  forall i j a b, i <> j -> nth_error l i = Some a -> nth_error l j = Some b ->
                  R a b.
Proof.
  intros Hsym. induction 1 as [|x l Hx Hl IH]; intros i j a b Hij Hi Hj.
  - destruct i; discriminate.
  - rewrite Forall_forall in Hx. destruct i as [|i], j as [|j]; cbn in Hi, Hj.
    + contradiction.
    + injection Hi as <-. apply Hx. eapply nth_error_In; eauto.
    + injection Hj as <-. apply Hsym, Hx. eapply nth_error_In; eauto.
    + apply (IH i j); auto.
Qed.

Lemma disjointShifts_sym (a b : shift) : disjointShifts a b -> disjointShifts b a.
Proof.
  unfold disjointShifts. intros H sb eb sa ea Hsb Heb Hsa Hea t [Hb Ha].
  exact (H sa ea sb eb Hsa Hea Hsb Heb t (conj Ha Hb)).
Qed.

Lemma hoursOf_set_same (totals : Map float) (id : value) (h : float) :
  hoursOf (map_set totals id h) id = orZero h.
Proof. unfold hoursOf. now rewrite map_get_set_same. Qed.

Lemma hoursOf_set_other (totals : Map float) (id id' : value) (h : float) :
  id <> id' -> hoursOf (map_set totals id h) id' = hoursOf totals id'.
Proof. intros H. unfold hoursOf. now rewrite map_get_set_other. Qed.

Lemma forEachM_app {S A : Type} (f : S -> A -> result S) (st : S) (l1 l2 : list A) :
  forEachM f st (l1 ++ l2) = (st' <- forEachM f st l1 ;; forEachM f st' l2).
Proof.
  revert st. induction l1 as [|x l1 IH]; intros st; cbn; [reflexivity|].
  destruct (f st x); cbn; [apply IH | reflexivity].
Qed.

Section PassInvariant.
Context {rt : Runtime}.
Variable employeeMap : Map employee.
Variable availabilityMap : Map (list window).
Variable existing : Map value.
Hypothesis employeeMap_wf : wfEmployees employeeMap.

(** A shift that [overlaps] clears against the blocks of committed shifts
    shares no instant with any of them. *)
Lemma overlaps_false_disjoint (committed : list shift) (x : shift) :
  overlaps (map blockOfShift committed)
    (dateValue (s_start x)) (dateValue (s_end x)) = false ->
  Forall (fun a => disjointShifts a x) committed.
Proof.
  intros Hov. apply Forall_forall. intros a Ha sa ea sb eb Hsa Hea Hsb Heb t [Hta Htb].
  rewrite overlaps_existsb, Hsb, Heb, normalizeRange_dateValue in Hov.
  assert ((eb <=? sb) = false) as Eb by (apply Z.leb_gt; lia).
  rewrite Eb in Hov. cbn [r_start r_end] in Hov.
  assert (overlapsBlock sb eb (blockOfShift a) = true) as Ht; [|].
  { apply overlapsBlock_true. exists sa, ea. unfold normalizedBlock.
    cbn [blockOfShift b_start b_end]. rewrite Hsa, Hea, normalizeRange_dateValue.
    assert ((ea <=? sa) = false) as Ea by (apply Z.leb_gt; lia).
    rewrite Ea, Eb. repeat split; lia. }
  assert (existsb (overlapsBlock sb eb) (map blockOfShift committed) = true) as Hex.
  { apply existsb_exists. exists (blockOfShift a). split; [|assumption].
    now apply in_map. }
  congruence.
Qed.

Lemma passInvariant_initial : passInvariant employeeMap [] initialState.
Proof.
  split; cbn.
  - reflexivity.
  - reflexivity.
  - intros. reflexivity.
  - intros. reflexivity.
  - intros id e Hget.
    destruct (wfEmployees_get _ _ _ employeeMap_wf Hget) as (_ & _ & _ & Hpos).
    unfold hoursOf. cbn. now apply ltb_leb.
  - intros. constructor.
Qed.

Lemma passInvariant_step (processed : list shift) (st : state) (x : shift)
    (st' : state) :
  passInvariant employeeMap processed st ->
  scheduleShift employeeMap availabilityMap existing st x = Ok st' ->
  passInvariant employeeMap (processed ++ [x]) st'.
Proof.
  intros [Hlen Hids Htot Hblk Hcap Hdis] Hstep.
  apply (scheduleShift_outcome employeeMap availabilityMap existing employeeMap_wf)
    in Hstep.
  destruct Hstep as [(reason & Ha & Ht & Hb)
                    | (e & Hget & _ & _ & _ & Hle & Hov & Ha & Ht & Hb)].
  - assert (forall id, id <> VNull ->
              committedShifts id (processed ++ [x]) (assignments st') =
              committedShifts id processed (assignments st)) as Hsame.
    { intros id Hid. rewrite Ha, committedShifts_snoc by assumption.
      cbn [a_employeeId].
      assert (value_eqb VNull id = false) as ->
          by (apply value_eqb_neq; congruence).
      apply app_nil_r. }
    split.
    + rewrite Ha, !length_app, Hlen. reflexivity.
    + rewrite Ha, !map_app, Hids. reflexivity.
    + intros id Hid. rewrite Hsame, Ht by assumption. auto.
    + intros id Hid. rewrite Hsame, Hb by assumption. auto.
    + intros id e Hget. rewrite Ht. eauto.
    + intros id Hid. rewrite Hsame by assumption. auto.
  - destruct (wfEmployees_get _ _ _ employeeMap_wf Hget) as (_ & _ & Htruthy & _).
    assert (e_id e <> VNull) as Hnn by (intros E; rewrite E in Htruthy; discriminate).
    assert (forall id,
              committedShifts id (processed ++ [x]) (assignments st') =
              committedShifts id processed (assignments st)
                ++ (if value_eqb (e_id e) id then [x] else [])) as Hsnoc.
    { intros id. rewrite Ha, committedShifts_snoc by assumption. reflexivity. }
    destruct (wfEmployees_get _ _ _ employeeMap_wf Hget) as (_ & _ & _ & Hpos).
    split.
    + rewrite Ha, !length_app, Hlen. reflexivity.
    + rewrite Ha, !map_app, Hids. reflexivity.
    + intros id Hid. rewrite Hsnoc, Ht.
      destruct (value_eqb (e_id e) id) eqn:E.
      * apply value_eqb_eq in E. subst id.
        rewrite hoursOf_set_same, sumHours_snoc, (Htot _ Hid). reflexivity.
      * apply value_eqb_neq in E.
        rewrite hoursOf_set_other, app_nil_r by assumption. auto.
    + intros id Hid. rewrite Hsnoc, Hb.
      destruct (value_eqb (e_id e) id) eqn:E.
      * apply value_eqb_eq in E. subst id.
        rewrite map_get_list_push_same, (Hblk _ Hid), map_app. reflexivity.
      * apply value_eqb_neq in E.
        rewrite map_get_list_push_other, app_nil_r by assumption. auto.
    + intros id e' Hget'. rewrite Ht.
      destruct (value_eqb (e_id e) id) eqn:E.
      * apply value_eqb_eq in E. subst id.
        rewrite hoursOf_set_same.
        assert (e' = e) as -> by congruence. now apply orZero_leb.
      * apply value_eqb_neq in E.
        rewrite hoursOf_set_other by assumption. eauto.
    + intros id Hid. rewrite Hsnoc.
      destruct (value_eqb (e_id e) id) eqn:E.
      * apply value_eqb_eq in E. subst id.
        apply ForallOrdPairs_snoc; [auto|].
        apply overlaps_false_disjoint. rewrite <- (Hblk _ Hid). exact Hov.
      * rewrite app_nil_r. auto.
Qed.

Lemma runPass_invariant (processed : list shift) (st : state) :
  runPass employeeMap availabilityMap existing processed = Ok st ->
  passInvariant employeeMap processed st.
Proof.
  unfold runPass. revert st.
  induction processed as [|x processed IH] using rev_ind; intros st.
  - cbn. intros [= <-]. apply passInvariant_initial.
  - rewrite forEachM_app.
    destruct (forEachM _ initialState processed) as [st0|]; cbn [bind];
      [|discriminate].
    cbn [forEachM].
    destruct (scheduleShift employeeMap availabilityMap existing st0 x)
      as [st1|] eqn:Hstep; cbn [bind]; [|discriminate].
    intros [= <-]. eapply passInvariant_step; eauto.
Qed.

End PassInvariant.

(** ** The weekly cap and double booking *)

Section PassTheorems.
Context {rt : Runtime}.
Variables shiftTemplate employees availability : list value.
Variable existingAssignments : value.

Local Abbreviation employeeMap := (normalizeEmployees employees).
Local Abbreviation availabilityMap := (normalizeAvailability availability).
Local Abbreviation existing := (normalizeAssignments existingAssignments).

Lemma scheduleShift_unfilled (st : state) (shift : shift) (reason : string) :
  s_start shift <> None -> s_end shift <> None ->
  withoutConflicts employeeMap availabilityMap st shift (neededRole shift) = [] ->
  (forall st0,
      totals st0 = totals st -> blocks st0 = blocks st ->
      assignFresh employeeMap availabilityMap st0 shift (neededRole shift) =
      Ok (unfilled st0 shift reason)) ->
  exists st',
    scheduleShift employeeMap availabilityMap existing st shift = Ok st'
    /\ assignments st' =
       assignments st
         ++ [{| a_shiftId := s_id shift; a_employeeId := VNull;
                a_reason := Some reason |}]
    /\ totals st' = totals st
    /\ blocks st' = blocks st.
Proof.
  intros Hs He Hnone Hfresh.
  destruct (scheduleShift_fresh employeeMap availabilityMap existing st shift Hs He)
    as (st0 & Hstep & Hst0).
  { intros id _ _.
    destruct (canAssign employeeMap availabilityMap st shift (neededRole shift) id)
      eqn:Ecan; [|reflexivity].
    destruct (canAssign_candidate employeeMap availabilityMap
                (normalizeEmployees_wf employees) _ _ _ _ Ecan) as (c & Hc & _).
    rewrite Hnone in Hc. destruct Hc. }
  rewrite Hstep.
  destruct Hst0 as [-> | [i ->]]; rewrite Hfresh by reflexivity;
    eexists; repeat split.
Qed.

(** C4.  At every point of the pass the assignments are, in order, those of
    the shifts processed so far, and the hours of the shifts committed to an
    employee, added up in the order of the commits as the pass adds them (in
    the arithmetic of IEEE doubles), are the running total kept for that
    employee and do not exceed the employee's weekly cap; every commit, of
    an existing assignment or a fresh one, is made only when the running
    total plus the shift's hours is within the cap; and a shift whose
    candidates with coverage are all removed by the cap filter gets an
    assignment with a null employee and the weekly-cap reason. *)
Theorem weekly_cap_respected :
  (forall processed remaining st id e,
      normalizeShiftRecords shiftTemplate = processed ++ remaining ->
      runPass employeeMap availabilityMap existing processed = Ok st ->
      map_get employeeMap id = Some e ->
      map a_shiftId (assignments st) = map s_id processed
      /\ sumHours (committedShifts id processed (assignments st))
         = hoursOf (totals st) id
      /\ (sumHours (committedShifts id processed (assignments st))
          <=? e_weeklyCap e)%float = true)
  /\ (forall st shift st' a,
        scheduleShift employeeMap availabilityMap existing st shift = Ok st' ->
        assignments st' = assignments st ++ [a] ->
        a_employeeId a <> VNull ->
        exists e,
          map_get employeeMap (a_employeeId a) = Some e
          /\ (hoursOf (totals st) (a_employeeId a) + orZero (s_hours shift)
              <=? e_weeklyCap e)%float = true)
  /\ (forall st shift,
        availabilityCandidates employeeMap availabilityMap shift (neededRole shift)
        <> [] ->
        withinCap employeeMap availabilityMap st shift (neededRole shift) = [] ->
        exists st',
          scheduleShift employeeMap availabilityMap existing st shift = Ok st'
          /\ assignments st' =
             assignments st
               ++ [{| a_shiftId := s_id shift; a_employeeId := VNull;
                      a_reason :=
                        Some "All available employees would exceed their weekly cap." |}]
          /\ totals st' = totals st
          /\ blocks st' = blocks st).
Proof.
  pose proof (normalizeEmployees_wf employees) as Hwf.
  split; [|split].
  - intros processed remaining st id e _ Hrun Hget.
    destruct (runPass_invariant employeeMap availabilityMap existing Hwf _ _ Hrun)
      as [_ Hids Htot _ Hcap _].
    destruct (wfEmployees_get _ _ _ Hwf Hget) as (_ & _ & Htruthy & _).
    assert (id <> VNull) as Hid by (intros ->; discriminate).
    specialize (Htot id Hid). specialize (Hcap id e Hget).
    split; [assumption|]. split; [now symmetry | now rewrite <- Htot].
  - intros st shift st' a Hstep Ha Hnn.
    apply (scheduleShift_outcome employeeMap availabilityMap existing Hwf) in Hstep.
    destruct Hstep as [(reason & Ha' & _)
                      | (e & Hget & _ & _ & _ & Hle & _ & Ha' & _)];
      rewrite Ha in Ha'; apply app_inv_head in Ha'; injection Ha' as ->.
    + contradiction.
    + exists e. cbn [a_employeeId]. split; assumption.
  - intros st shift Hav Hcap.
    assert (s_start shift <> None /\ s_end shift <> None) as [Hs He].
    { destruct (availabilityCandidates employeeMap availabilityMap shift
                  (neededRole shift)) as [|c cs] eqn:E; [contradiction|].
      apply (availabilityCandidates_times employeeMap availabilityMap shift
               (neededRole shift) c). rewrite E. now left. }
    apply scheduleShift_unfilled; try assumption.
    + unfold withoutConflicts. now rewrite Hcap.
    + intros st0 Ht Hb. unfold assignFresh.
      assert (withinCap employeeMap availabilityMap st0 shift (neededRole shift) = [])
        as -> by (unfold withinCap in *; now rewrite Ht).
      destruct (availabilityCandidates employeeMap availabilityMap shift
                  (neededRole shift)) as [|c cs] eqn:Eav; [contradiction|].
      assert (In (en_employee c) (activeEmployees employeeMap (neededRole shift)))
        as Hact.
      { apply (availabilityCandidates_active employeeMap availabilityMap shift).
        rewrite Eav. now left. }
      destruct (activeEmployees employeeMap (neededRole shift)); [destruct Hact|].
      reflexivity.
Qed.

(** C5.  At every point of the pass, two distinct shifts committed to the
    same employee share no instant of their half-open intervals (so, when
    both intervals are well formed, [startA < endB && startB < endA] is
    false); and a shift whose candidates within the cap all have an
    overlapping occupied block gets an assignment with a null employee and
    the conflict reason. *)
Theorem no_double_booking :
  (forall processed remaining st id e i j a b,
      normalizeShiftRecords shiftTemplate = processed ++ remaining ->
      runPass employeeMap availabilityMap existing processed = Ok st ->
      map_get employeeMap id = Some e ->
      i <> j ->
      nth_error (committedShifts id processed (assignments st)) i = Some a ->
      nth_error (committedShifts id processed (assignments st)) j = Some b ->
      disjointShifts a b
      /\ (forall sa ea sb eb,
            s_start a = Some sa -> s_end a = Some ea ->
            s_start b = Some sb -> s_end b = Some eb ->
            sa < ea -> sb < eb -> intersects sa ea sb eb = false))
  /\ (forall st shift,
        withinCap employeeMap availabilityMap st shift (neededRole shift) <> [] ->
        withoutConflicts employeeMap availabilityMap st shift (neededRole shift) = [] ->
        exists st',
          scheduleShift employeeMap availabilityMap existing st shift = Ok st'
          /\ assignments st' =
             assignments st
               ++ [{| a_shiftId := s_id shift; a_employeeId := VNull;
                      a_reason :=
                        Some "All available employees have conflicting assignments." |}]
          /\ totals st' = totals st
          /\ blocks st' = blocks st).
Proof.
  pose proof (normalizeEmployees_wf employees) as Hwf.
  split.
  - intros processed remaining st id e i j a b _ Hrun Hget Hij Hi Hj.
    destruct (runPass_invariant employeeMap availabilityMap existing Hwf _ _ Hrun)
      as [_ _ _ _ _ Hdis].
    destruct (wfEmployees_get _ _ _ Hwf Hget) as (_ & _ & Htruthy & _).
    assert (id <> VNull) as Hid by (intros ->; discriminate).
    assert (disjointShifts a b) as Hab.
    { eapply ForallOrdPairs_nth; eauto using disjointShifts_sym. }
    split; [assumption|].
    intros sa ea sb eb Hsa Hea Hsb Heb Hwa Hwb.
    unfold intersects. apply not_true_is_false.
    rewrite andb_true_iff, !Z.ltb_lt. intros [H1 H2].
    apply (Hab sa ea sb eb Hsa Hea Hsb Heb (Z.max sa sb)). lia.
  - intros st shift Hcap Hnone.
    assert (s_start shift <> None /\ s_end shift <> None) as [Hs He].
    { destruct (withinCap employeeMap availabilityMap st shift (neededRole shift))
        as [|c cs] eqn:E; [contradiction|].
      apply (availabilityCandidates_times employeeMap availabilityMap shift
               (neededRole shift) c).
      apply (withinCap_incl employeeMap availabilityMap st). rewrite E. now left. }
    apply scheduleShift_unfilled; try assumption.
    intros st0 Ht Hb. unfold assignFresh.
    assert (withoutConflicts employeeMap availabilityMap st0 shift (neededRole shift)
            = []) as ->
        by (unfold withoutConflicts, withinCap in *; now rewrite Ht, Hb).
    assert (withinCap employeeMap availabilityMap st0 shift (neededRole shift)
            = withinCap employeeMap availabilityMap st shift (neededRole shift)) as ->
        by (unfold withinCap; now rewrite Ht).
    destruct (withinCap employeeMap availabilityMap st shift (neededRole shift))
      as [|c cs] eqn:Ecap; [contradiction|].
    assert (In c (availabilityCandidates employeeMap availabilityMap shift
                    (neededRole shift))) as Hav.
    { apply (withinCap_incl employeeMap availabilityMap st). rewrite Ecap. now left. }
    pose proof (availabilityCandidates_active employeeMap availabilityMap _ _ _ Hav)
      as Hact.
    destruct (availabilityCandidates employeeMap availabilityMap shift
                (neededRole shift)); [destruct Hav|].
    destruct (activeEmployees employeeMap (neededRole shift)); [destruct Hact|].
    reflexivity.
Qed.

End PassTheorems.

Lemma weekly_cap_respected_witness :
  match @runPass utcHost (@normalizeEmployees utcHost thirdsEmployees)
          (@normalizeAvailability utcHost thirdsAvailability)
          (normalizeAssignments (VArr []))
          (@normalizeShiftRecords utcHost thirdsShifts) with
  | Ok st =>
      (sumHours (committedShifts (VStr "e1")
                   (@normalizeShiftRecords utcHost thirdsShifts) (assignments st))
       <=? e_weeklyCap (employeeOf "e1" "CNA" (VStr "Ann") 12))%float = true
      /\ map a_reason (assignments st) =
         [None; None;
          Some "All available employees would exceed their weekly cap."]
      /\ sumHours (@normalizeShiftRecords utcHost thirdsShifts)
         = 0x1.8000000000001p+3%float
  | Throw _ => False
  end.
Proof.
  destruct (@runPass utcHost (@normalizeEmployees utcHost thirdsEmployees)
              (@normalizeAvailability utcHost thirdsAvailability)
              (normalizeAssignments (VArr []))
              (@normalizeShiftRecords utcHost thirdsShifts)) as [st|] eqn:Hrun.
  - split.
    + apply (proj1 (@weekly_cap_respected utcHost thirdsShifts thirdsEmployees
                      thirdsAvailability (VArr []))
               (@normalizeShiftRecords utcHost thirdsShifts) [] st (VStr "e1")
               (employeeOf "e1" "CNA" (VStr "Ann") 12)).
      * symmetry. apply app_nil_r.
      * exact Hrun.
      * reflexivity.
    + vm_compute in Hrun. injection Hrun as <-. split; reflexivity.
  - vm_compute in Hrun. discriminate Hrun.
Defined.

Lemma no_double_booking_witness :
  match @runPass utcHost (@normalizeEmployees utcHost weekEmployees)
          (@normalizeAvailability utcHost dayAvailability)
          (normalizeAssignments (VArr []))
          (@normalizeShiftRecords utcHost dayShifts) with
  | Ok st =>
      match committedShifts (VStr "e1") (@normalizeShiftRecords utcHost dayShifts)
              (assignments st) with
      | a :: b :: _ =>
          map s_id [a; b] = [VStr "s1"; VStr "s3"] /\ disjointShifts a b
      | _ => False
      end
      /\ map a_reason (assignments st) =
         [None; Some "All available employees have conflicting assignments."; None]
  | Throw _ => False
  end.
Proof.
  destruct (@runPass utcHost (@normalizeEmployees utcHost weekEmployees)
              (@normalizeAvailability utcHost dayAvailability)
              (normalizeAssignments (VArr []))
              (@normalizeShiftRecords utcHost dayShifts)) as [st|] eqn:Hrun.
  - split.
    + destruct (committedShifts (VStr "e1") (@normalizeShiftRecords utcHost dayShifts)
                  (assignments st)) as [|a [|b rest]] eqn:Hc.
      * vm_compute in Hrun. injection Hrun as <-. vm_compute in Hc. discriminate Hc.
      * vm_compute in Hrun. injection Hrun as <-. vm_compute in Hc. discriminate Hc.
      * split.
        -- vm_compute in Hrun. injection Hrun as <-. vm_compute in Hc.
           injection Hc as <- <- _. reflexivity.
        -- apply (proj1 (proj1 (@no_double_booking utcHost dayShifts weekEmployees
                                  dayAvailability (VArr []))
                           (@normalizeShiftRecords utcHost dayShifts) [] st
                           (VStr "e1") (employeeOf "e1" "CNA" (VStr "Ann") 40)
                           0%nat 1%nat a b
                           (eq_sym (app_nil_r _)) Hrun eq_refl
                           (fun H : 0%nat = 1%nat => O_S 0 H)
                           (f_equal (fun l => nth_error l 0) Hc)
                           (f_equal (fun l => nth_error l 1) Hc))).
    + vm_compute in Hrun. injection Hrun as <-. reflexivity.
  - vm_compute in Hrun. discriminate Hrun.
Defined.

(** ** The tie-break *)

Lemma coverageForShift_fold (a b : Z) (windows : list window) (avail pref : bool) :
  fold_left
    (fun acc window =>
       match w_start window, w_end window with
       | Some start, Some end_ =>
           let shiftEndMs := if b <=? a then b + 24 * 60 * 60 * 1000 else b in
           if (start <=? a) && (end_ >=? shiftEndMs)
           then {| available := true;
                   preferred := preferred acc || w_preferred window |}
           else acc
       | _, _ => acc
       end)
    windows {| available := avail; preferred := pref |}
  = {| available := avail || existsb (covers a b) windows;
       preferred := pref || existsb (fun w => covers a b w && w_preferred w) windows |}.
Proof.
  revert avail pref. induction windows as [|w ws IH]; intros avail pref.
  - cbn. now rewrite !orb_false_r.
  - cbn [fold_left existsb].
    match goal with
    | |- fold_left _ ws ?acc = _ =>
        assert (acc = if covers a b w
                      then {| available := true; preferred := pref || w_preferred w |}
                      else {| available := avail; preferred := pref |}) as ->
    end.
    { unfold covers. destruct (w_start w), (w_end w); [|reflexivity..].
      cbn zeta. cbn [preferred]. destruct (_ && _); reflexivity. }
    destruct (covers a b w); rewrite IH; cbn [andb orb]; f_equal.
    + now rewrite orb_true_r.
    + now rewrite orb_assoc.
Qed.

Lemma coverageForShift_prefers (availabilityMap : Map (list window)) (shift : shift)
    (e : employee) :
  coverageForShift (map_get_list availabilityMap (e_id e)) (s_start shift) (s_end shift)
  = {| available := coveredBy availabilityMap shift e;
       preferred := prefers availabilityMap shift e |}.
Proof.
  unfold coverageForShift, coveredBy, prefers.
  destruct (s_start shift) as [a|], (s_end shift) as [b|]; try reflexivity.
  apply coverageForShift_fold.
Qed.

Section TieBreak.
Context {rt : Runtime} {col : Collation rt}.
Variables employees availability : list value.
Variable existingAssignments : value.

Local Abbreviation employeeMap := (normalizeEmployees employees).
Local Abbreviation availabilityMap := (normalizeAvailability availability).
Local Abbreviation existing := (normalizeAssignments existingAssignments).

(** The candidates that the three filters leave at a point of the pass are
    the employees that [survives] describes. *)
Lemma withoutConflicts_survives (processed : list shift) (st : state) (shift : shift)
    (c : entry) :
  passInvariant employeeMap processed st ->
  In c (withoutConflicts employeeMap availabilityMap st shift (neededRole shift))
  <-> survives employeeMap availabilityMap processed (assignments st) shift
        (en_employee c)
      /\ en_coverage c
         = coverageForShift (map_get_list availabilityMap (e_id (en_employee c)))
             (s_start shift) (s_end shift).
Proof.
  intros [_ _ Htot Hblk _ _].
  pose proof (normalizeEmployees_wf employees) as Hwf.
  rewrite withoutConflicts_In. unfold survives.
  assert (forall e, map_get employeeMap (e_id e) = Some e ->
                    hoursOf (totals st) (e_id e)
                    = sumHours (committedShifts (e_id e) processed (assignments st))
                    /\ map_get_list (blocks st) (e_id e)
                       = map blockOfShift
                           (committedShifts (e_id e) processed (assignments st)))
    as Hinv.
  { intros e Hget.
    destruct (wfEmployees_get _ _ _ Hwf Hget) as (_ & _ & Ht & _).
    assert (e_id e <> VNull) as Hnn by (intros E; rewrite E in Ht; discriminate).
    split; [now apply Htot | now apply Hblk]. }
  split.
  - intros (Hin & Hst & Hacc & Hcov & Hav & Hcap & Hov).
    pose proof (wfEmployees_values _ _ Hwf Hin) as Hget.
    destruct (Hinv _ Hget) as [Eh Eb].
    rewrite Hcov, coverageForShift_prefers in Hav. cbn [available] in Hav.
    rewrite Eh in Hcap. rewrite Eb in Hov. auto 10.
  - intros [(Hget & Hst & Hacc & Hav & Hcap & Hov) Hcov].
    destruct (Hinv _ Hget) as [Eh Eb].
    destruct (wfEmployees_get _ _ _ Hwf Hget) as (Hin & _).
    rewrite Hcov, coverageForShift_prefers. cbn [available].
    rewrite Eh, Eb. rewrite <- coverageForShift_prefers. auto 10.
Qed.

(** C6 (amended).  At a point of the pass, for a shift that is not kept on
    an existing assignment and for which the coverage, cap and conflict
    filters leave two or more candidates, all with a string for a name, the
    Scheduler commits the shift to a candidate that is least in the
    tie-break order [tieBreak]: a candidate with a preferred window that
    contains the shift before one without; among ties, strictly lower
    cumulative hours of the committed shifts (the doubles that the pass
    adds up); among ties, strictly fewer committed shifts; among ties, the
    name that the collation of the host ([localeCompare]), not the order of
    the code units, does not put after the other. *)
Theorem tie_break_chooses_least (processed : list shift) (st : state) (shift : shift) :
  runPass employeeMap availabilityMap existing processed = Ok st ->
  (forall id, map_get existing (s_id shift) = Some id -> truthy id = true ->
              canAssign employeeMap availabilityMap st shift (neededRole shift) id
              = false) ->
  (exists a b,
      a <> b
      /\ survives employeeMap availabilityMap processed (assignments st) shift a
      /\ survives employeeMap availabilityMap processed (assignments st) shift b) ->
  (forall e,
      survives employeeMap availabilityMap processed (assignments st) shift e ->
      exists s, e_name e ||' VStr "" = VStr s) ->
  exists chosen st',
    survives employeeMap availabilityMap processed (assignments st) shift chosen
    /\ (forall d,
          survives employeeMap availabilityMap processed (assignments st) shift d ->
          tieBreak availabilityMap processed (assignments st) shift chosen d)
    /\ scheduleShift employeeMap availabilityMap existing st shift = Ok st'
    /\ assignments st' =
       assignments st
         ++ [{| a_shiftId := s_id shift;
                a_employeeId := e_id chosen;
                a_reason := None |}].
Proof.
  intros Hrun Hkeep (a & b & _ & Ha & _) Hnames.
  pose proof (normalizeEmployees_wf employees) as Hwf.
  pose proof (runPass_invariant employeeMap availabilityMap existing Hwf _ _ Hrun)
    as Hinv.
  pose proof (withoutConflicts_survives processed st shift) as Hsurv.
  set (entryOf := fun e : employee =>
         {| en_employee := e;
            en_coverage :=
              coverageForShift (map_get_list availabilityMap (e_id e))
                (s_start shift) (s_end shift) |}).
  assert (forall e,
             survives employeeMap availabilityMap processed (assignments st) shift e ->
             In (entryOf e)
               (withoutConflicts employeeMap availabilityMap st shift (neededRole shift)))
    as Hentry.
  { intros e He. apply (Hsurv (entryOf e) Hinv). split; [exact He | reflexivity]. }
  assert (withoutConflicts employeeMap availabilityMap st shift (neededRole shift)
          <> []) as Hne.
  { intros E. specialize (Hentry a Ha). rewrite E in Hentry. destruct Hentry. }
  assert (forall c,
             In c (withoutConflicts employeeMap availabilityMap st shift
                     (neededRole shift)) -> comparable c) as Hcmp.
  { intros c Hc. apply (Hsurv c Hinv) in Hc. destruct Hc as [Hc _].
    exact (Hnames _ Hc). }
  assert (s_start shift <> None /\ s_end shift <> None) as [Hs He].
  { apply (withoutConflicts_times employeeMap availabilityMap st shift
             (neededRole shift) (entryOf a)). now apply Hentry. }
  assert (forall st0 chosen,
             totals st0 = totals st -> blocks st0 = blocks st ->
             In chosen (withoutConflicts employeeMap availabilityMap st shift
                          (neededRole shift)) ->
             (forall d,
                 In d (withoutConflicts employeeMap availabilityMap st shift
                         (neededRole shift)) -> precedes st0 chosen d) ->
             survives employeeMap availabilityMap processed (assignments st) shift
               (en_employee chosen)
             /\ forall d,
                  survives employeeMap availabilityMap processed (assignments st)
                    shift d ->
                  tieBreak availabilityMap processed (assignments st) shift
                    (en_employee chosen) d) as Hleast.
  { intros st0 chosen Ht Hb Hin Hle.
    apply (Hsurv chosen Hinv) in Hin. destruct Hin as [Hc Hcov].
    split; [exact Hc|]. intros d Hd. specialize (Hle _ (Hentry d Hd)).
    destruct Hinv as [_ _ Htot Hblk _ _].
    assert (forall e,
               survives employeeMap availabilityMap processed (assignments st) shift e ->
               hoursOf (totals st) (e_id e)
               = sumHours (committedShifts (e_id e) processed (assignments st))
               /\ length (map_get_list (blocks st) (e_id e))
                  = length (committedShifts (e_id e) processed (assignments st)))
      as Hacc.
    { intros e (Hget & _).
      destruct (wfEmployees_get _ _ _ Hwf Hget) as (_ & _ & Htr & _).
      assert (e_id e <> VNull) as Hnn by (intros E; rewrite E in Htr; discriminate).
      split; [now apply Htot | now rewrite (Hblk _ Hnn), length_map]. }
    destruct (Hacc _ Hc) as [Eh1 En1]. destruct (Hacc _ Hd) as [Eh2 En2].
    unfold precedes, nameOf in Hle. cbn [entryOf en_employee en_coverage] in Hle.
    rewrite Ht, Hb, Hcov, !coverageForShift_prefers, Eh1, Eh2, En1, En2 in Hle.
    exact Hle. }
  destruct (scheduleShift_fresh employeeMap availabilityMap existing st shift
              Hs He Hkeep) as (st0 & Hstep & Hst0).
  destruct Hst0 as [-> | [i ->]].
  - destruct (assignFresh_least employeeMap availabilityMap st shift
                (neededRole shift) Hne Hcmp) as (chosen & Hin & Hle & Hfresh).
    destruct (Hleast st chosen eq_refl eq_refl Hin Hle) as [Hc Hall].
    exists (en_employee chosen). eexists. split; [exact Hc|]. split; [exact Hall|].
    split; [rewrite Hstep; exact Hfresh | reflexivity].
  - destruct (assignFresh_least employeeMap availabilityMap (pushIssue st i) shift
                (neededRole shift) Hne Hcmp) as (chosen & Hin & Hle & Hfresh).
    destruct (Hleast (pushIssue st i) chosen eq_refl eq_refl Hin Hle) as [Hc Hall].
    exists (en_employee chosen). eexists. split; [exact Hc|]. split; [exact Hall|].
    split; [rewrite Hstep; exact Hfresh | reflexivity].
Qed.

End TieBreak.

(** The claim's last level, the lexicographically smaller name, fails on a
    host whose collation is not the order of the code units: of two
    candidates that tie on the first three levels the Scheduler commits the
    shift to "ann", although "Bob" is the lexicographically smaller name. *)
Lemma tie_break_counterexample :
  map (fun c =>
         (e_name (en_employee c), preferred (en_coverage c),
          hoursOf (totals initialState) (e_id (en_employee c)),
          length (map_get_list (blocks initialState) (e_id (en_employee c)))))
    (@withoutConflicts icuHost (@normalizeEmployees icuHost caseEmployees)
       (@normalizeAvailability icuHost caseAvailability)
       initialState (shiftOf "s1" "CNA" 7 19)
       (@neededRole icuHost (shiftOf "s1" "CNA" 7 19)))
  = [(VStr "Bob", false, 0%float, 0%nat); (VStr "ann", false, 0%float, 0%nat)]
  /\ String_as_OT.compare "Bob" "ann" = Lt
  /\ @scheduleShift icuHost (@normalizeEmployees icuHost caseEmployees)
       (@normalizeAvailability icuHost caseAvailability)
       (normalizeAssignments (VArr [])) initialState (shiftOf "s1" "CNA" 7 19)
     = Ok {| assignments :=
               [{| a_shiftId := VStr "s1"; a_employeeId := VStr "e2";
                   a_reason := None |}];
             issues := [];
             totals := [(VStr "e2", 12%float)];
             blocks := [(VStr "e2", [blockAt "s1" 7 19])] |}.
Proof. repeat split. Qed.

Lemma tie_break_chooses_least_witness :
  match @runPass utcHost (@normalizeEmployees utcHost tieEmployees)
          (@normalizeAvailability utcHost (tieAvailability "Available"))
          (normalizeAssignments (VArr [])) [shiftOf "s1" "CNA" 7 19] with
  | Ok st =>
      exists chosen st',
        e_name chosen = VStr "Bob"
        /\ @scheduleShift utcHost (@normalizeEmployees utcHost tieEmployees)
             (@normalizeAvailability utcHost (tieAvailability "Available"))
             (normalizeAssignments (VArr [])) st (shiftOf "s2" "CNA" 31 43) = Ok st'
        /\ map a_employeeId (assignments st') = [VStr "e1"; e_id chosen]
  | Throw _ => False
  end
  /\ match @runPass utcHost (@normalizeEmployees utcHost tieEmployees)
            (@normalizeAvailability utcHost (tieAvailability "Preferred"))
            (normalizeAssignments (VArr [])) [shiftOf "s1" "CNA" 7 19] with
     | Ok st =>
         exists chosen st',
           e_name chosen = VStr "Ann"
           /\ @scheduleShift utcHost (@normalizeEmployees utcHost tieEmployees)
                (@normalizeAvailability utcHost (tieAvailability "Preferred"))
                (normalizeAssignments (VArr [])) st (shiftOf "s2" "CNA" 31 43) = Ok st'
           /\ map a_employeeId (assignments st') = [VStr "e1"; e_id chosen]
     | Throw _ => False
     end.
Proof.
  split.
  - destruct (@runPass utcHost (@normalizeEmployees utcHost tieEmployees)
                (@normalizeAvailability utcHost (tieAvailability "Available"))
                (normalizeAssignments (VArr [])) [shiftOf "s1" "CNA" 7 19])
      as [st|] eqn:Hrun.
    + pose proof Hrun as Hst. vm_compute in Hst. injection Hst as <-.
      destruct (@tie_break_chooses_least utcHost utcHost_collation tieEmployees
                  (tieAvailability "Available") (VArr []) _ _
                  (shiftOf "s2" "CNA" 31 43) Hrun)
        as (chosen & st' & Hc & _ & Hstep & Hasg).
      * intros id H. discriminate H.
      * exists (employeeOf "e1" "CNA" (VStr "Ann") 40),
          (employeeOf "e2" "CNA" (VStr "Bob") 40).
        split; [discriminate|]. split; repeat split.
      * intros e (Hget & _). apply map_get_In in Hget. vm_compute in Hget.
        destruct Hget as [[= _ <-] | [[= _ <-] | []]]; eexists; reflexivity.
      * exists chosen, st'. split; [|split; [exact Hstep|]].
        -- vm_compute in Hstep. injection Hstep as <-.
           injection Hasg as Hid.
           destruct Hc as (Hget & _). rewrite <- Hid in Hget.
           vm_compute in Hget. injection Hget as <-. reflexivity.
        -- rewrite Hasg. reflexivity.
    + vm_compute in Hrun. discriminate Hrun.
  - destruct (@runPass utcHost (@normalizeEmployees utcHost tieEmployees)
                (@normalizeAvailability utcHost (tieAvailability "Preferred"))
                (normalizeAssignments (VArr [])) [shiftOf "s1" "CNA" 7 19])
      as [st|] eqn:Hrun.
    + pose proof Hrun as Hst. vm_compute in Hst. injection Hst as <-.
      destruct (@tie_break_chooses_least utcHost utcHost_collation tieEmployees
                  (tieAvailability "Preferred") (VArr []) _ _
                  (shiftOf "s2" "CNA" 31 43) Hrun)
        as (chosen & st' & Hc & _ & Hstep & Hasg).
      * intros id H. discriminate H.
      * exists (employeeOf "e1" "CNA" (VStr "Ann") 40),
          (employeeOf "e2" "CNA" (VStr "Bob") 40).
        split; [discriminate|]. split; repeat split.
      * intros e (Hget & _). apply map_get_In in Hget. vm_compute in Hget.
        destruct Hget as [[= _ <-] | [[= _ <-] | []]]; eexists; reflexivity.
      * exists chosen, st'. split; [|split; [exact Hstep|]].
        -- vm_compute in Hstep. injection Hstep as <-.
           injection Hasg as Hid.
           destruct Hc as (Hget & _). rewrite <- Hid in Hget.
           vm_compute in Hget. injection Hget as <-. reflexivity.
        -- rewrite Hasg. reflexivity.
    + vm_compute in Hrun. discriminate Hrun.
Defined.

(** ** Malformed records *)

Section Robustness.
Context {rt : Runtime}.

(** A record without a truthy id under any alias leaves the employee map
    unchanged. *)
Lemma normalizeEmployee_without_id (m : Map employee) (record : value) :
  truthy (readField record ["id"; "employee_id"; "employeeId"]) = false ->
  normalizeEmployee m record = m.
Proof. intros H. unfold normalizeEmployee. now rewrite H. Qed.

Lemma normalizeShiftRecord_without_id (record : value) :
  truthy (readField record ["id"; "shift_id"; "Shift Id"; "shiftId"]) = false ->
  normalizeShiftRecord record = None.
Proof. intros H. unfold normalizeShiftRecord. now rewrite H. Qed.

(** An availability record whose combined start or end does not parse is
    dropped whole. *)
Lemma normalizeAvailabilityRecord_unparsable (m : Map (list window)) (record : value) :
  let fields :=
    if truthy record && truthy (getProp record "fields")
    then getProp record "fields" else record in
  toDate (combineDateTime (readField fields ["date"; "Date"])
            (readField fields ["start_time"; "start"; "Start"])) = None
  \/ toDate (combineDateTime (readField fields ["date"; "Date"])
               (readField fields ["end_time"; "end"; "End"])) = None ->
  normalizeAvailabilityRecord m record = m.
Proof.
  intros fields H. unfold normalizeAvailabilityRecord. fold fields.
  assert (normalizeRange
            (combineDateTime (readField fields ["date"; "Date"])
               (readField fields ["start_time"; "start"; "Start"]))
            (combineDateTime (readField fields ["date"; "Date"])
               (readField fields ["end_time"; "end"; "End"]))
          = {| r_start := None; r_end := None |}) as Hr.
  { unfold normalizeRange.
    destruct H as [-> | ->]; [reflexivity|]. now destruct (toDate _). }
  rewrite Hr. cbn [r_start r_end].
  destruct (match readField fields _ with VArr items => _ | _ => _ end);
    [reflexivity|].
  now destruct (String.eqb _ _).
Qed.

Variable employeeMap : Map employee.
Variable availabilityMap : Map (list window).
Variable existing : Map value.

(** When the names of the employees are strings, the comparator does not
    throw and every step of the pass returns, adding one assignment. *)
Hypothesis names_are_strings :
  forall e, In e (map_values employeeMap) -> exists s, e_name e ||' VStr "" = VStr s.

Lemma assignFresh_returns (st : state) (shift : shift) (needed : string) :
  exists st',
    assignFresh employeeMap availabilityMap st shift needed = Ok st'
    /\ length (assignments st') = S (length (assignments st)).
Proof.
  assert (forall reason,
             length (assignments (unfilled st shift reason))
             = S (length (assignments st))) as Hlen.
  { intros reason. cbn. rewrite length_app. cbn. lia. }
  destruct (withoutConflicts employeeMap availabilityMap st shift needed)
    as [|c cs] eqn:Ewc.
  - unfold assignFresh. rewrite Ewc.
    destruct (activeEmployees employeeMap needed); [eauto|].
    destruct (availabilityCandidates employeeMap availabilityMap shift needed);
      [eauto|].
    destruct (withinCap employeeMap availabilityMap st shift needed); eauto.
  - rewrite assignFresh_sorted by (rewrite Ewc; discriminate).
    set (dom := fun c : entry => exists s, nameOf c = VStr s).
    assert (Forall dom (withoutConflicts employeeMap availabilityMap st shift needed))
      as Hdom.
    { apply Forall_forall. intros d Hd. apply withoutConflicts_In in Hd.
      apply names_are_strings. tauto. }
    destruct (sortM_total (compareEntries st) dom
                (fun a b Ha _ => let (s, Hs) := Ha in compareEntries_ok st a b s Hs)
                _ Hdom) as [sorted Hsorted].
    rewrite Hsorted. cbn [bind].
    destruct sorted as [|first rest].
    + assert (In c []) as [].
      apply (sortM_In _ _ _ Hsorted). rewrite Ewc. now left.
    + eexists. split; [reflexivity|]. cbn. rewrite length_app. cbn. lia.
Qed.

Lemma scheduleShift_returns (st : state) (shift : shift) :
  exists st',
    scheduleShift employeeMap availabilityMap existing st shift = Ok st'
    /\ length (assignments st') = S (length (assignments st)).
Proof.
  unfold scheduleShift.
  destruct (negb (isSome (s_start shift)) || negb (isSome (s_end shift))).
  - eexists. split; [reflexivity|]. cbn. rewrite length_app. cbn. lia.
  - destruct (truthy _).
    + destruct (canAssign _ _ _ _ _ _).
      * eexists. split; [reflexivity|]. cbn. rewrite length_app. cbn. lia.
      * apply (assignFresh_returns (pushIssue st _)).
    + apply assignFresh_returns.
Qed.

Lemma runPass_returns (shifts : list shift) :
  exists st,
    runPass employeeMap availabilityMap existing shifts = Ok st
    /\ length (assignments st) = length shifts.
Proof.
  unfold runPass.
  assert (forall st0, exists st,
             forEachM (scheduleShift employeeMap availabilityMap existing) st0 shifts
             = Ok st
             /\ length (assignments st)
                = (length (assignments st0) + length shifts)%nat) as H.
  { induction shifts as [|x shifts IH]; intros st0; cbn.
    - exists st0. split; [reflexivity | lia].
    - destruct (scheduleShift_returns st0 x) as (st1 & -> & Hlen). cbn [bind].
      destruct (IH st1) as (st & Hrun & Hlen'). exists st. split; [assumption|lia]. }
  apply (H initialState).
Qed.

End Robustness.

(** The result of [schedule] is the state the pass ends in. *)
Lemma schedule_Ok {rt : Runtime} (shiftTemplate employees availability : list value)
    (existingAssignments : value) (res : scheduleResult) :
  schedule shiftTemplate employees availability existingAssignments = Ok res <->
  exists st,
    runPass (normalizeEmployees employees) (normalizeAvailability availability)
      (normalizeAssignments existingAssignments)
      (normalizeShiftRecords shiftTemplate) = Ok st
    /\ res = {| res_assignments := assignments st;
                res_issues := issues st;
                res_totalsByEmployee :=
                  summarizeTotals (normalizeEmployees employees)
                    (totals st) (blocks st) |}.
Proof.
  unfold schedule. destruct (runPass _ _ _ _) as [st|]; cbn [bind].
  - split.
    + intros [= <-]. eauto.
    + intros (st' & [= <-] & ->). reflexivity.
  - split; [discriminate|]. intros (st' & H & _). discriminate H.
Qed.

(** X20.  When the records convert without throwing and the names of the
    employees are strings, [schedule] returns, with one assignment for each
    canonical shift. *)
Lemma schedule_returns {rt : Runtime} (shiftTemplate employees availability : list value)
    (existingAssignments : value) :
  forallb convertible (shiftTemplate ++ employees ++ availability) = true ->
  (forall e, In e (map_values (normalizeEmployees employees)) ->
             exists s, e_name e ||' VStr "" = VStr s) ->
  exists res,
    schedule shiftTemplate employees availability existingAssignments = Ok res
    /\ length (res_assignments res) = length (normalizeShiftRecords shiftTemplate).
Proof.
  intros _ Hnames.
  destruct (runPass_returns (normalizeEmployees employees)
              (normalizeAvailability availability)
              (normalizeAssignments existingAssignments) Hnames
              (normalizeShiftRecords shiftTemplate)) as (st & Hrun & Hlen).
  unfold schedule. rewrite Hrun. cbn [bind]. eexists. split; [reflexivity|].
  exact Hlen.
Qed.

(** [validate] does not throw on assignments that are objects, such as the
    ones [schedule] returns. *)
Lemma validate_returns_on_objects {rt : Runtime} (asg : list assignment)
    (shifts employees availability : list value) :
  exists errors,
    validate (map assignmentValue asg) shifts employees availability = Ok errors.
Proof.
  unfold validate.
  generalize (fold_left (fun m shift => map_set m (s_id shift) shift)
                (normalizeShiftRecords shifts) []).
  intros shiftMap.
  generalize {| errors := []; hoursByEmployee := []; blocksByEmployee := [] |}.
  induction asg as [|a asg IH]; intros vs; cbn [map forEachM bind].
  - eauto.
  - cbn [validateAssignment assignmentValue bind]. apply IH.
Qed.

(** ** The validator on the scheduler's output *)

Section Agreement.
Context {rt : Runtime}.

Lemma coverage_hasCoverage (windows : list window) (shift : shift) :
  available (coverageForShift windows (s_start shift) (s_end shift))
  = hasCoverage windows shift.
Proof.
  unfold coverageForShift, hasCoverage.
  destruct (s_start shift) as [ss|].
  2:{ induction windows as [|w ws IH]; cbn; [reflexivity|].
      rewrite <- IH. now destruct (w_start w), (w_end w). }
  destruct (s_end shift) as [se|].
  2:{ induction windows as [|w ws IH]; cbn; [reflexivity|].
      rewrite <- IH. now destruct (w_start w), (w_end w). }
  generalize false at 2 as pref.
  assert (forall avail pref,
             available
               (fold_left
                  (fun acc window =>
                     match w_start window, w_end window with
                     | Some start, Some end_ =>
                         if (start <=? ss)
                            && (end_ >=? (if se <=? ss
                                          then se + 24 * 60 * 60 * 1000 else se))
                         then {| available := true;
                                 preferred := preferred acc || w_preferred window |}
                         else acc
                     | _, _ => acc
                     end) windows {| available := avail; preferred := pref |})
             = avail
               || existsb
                    (fun window =>
                       match w_start window, w_end window with
                       | Some start, Some end_ =>
                           (start <=? ss)
                           && (end_ >=? (if se <=? ss
                                         then se + 24 * 60 * 60 * 1000 else se))
                       | _, _ => false
                       end) windows) as H.
  { induction windows as [|w ws IH]; intros avail pref; cbn.
    - now rewrite orb_false_r.
    - destruct (w_start w) as [start|]; [|apply IH].
      destruct (w_end w) as [end_|]; [|apply IH].
      destruct ((start <=? ss) && _) eqn:E.
      + rewrite IH. cbn. now rewrite orb_true_r.
      + rewrite IH. reflexivity. }
  intros pref. rewrite H. reflexivity.
Qed.

Lemma shiftMapOf_get (shifts : list shift) (s : shift) :
  NoDup (map s_id shifts) -> In s shifts ->
  map_get (shiftMapOf shifts) (s_id s) = Some s.
Proof.
  unfold shiftMapOf. generalize (@nil (value * shift)) as m.
  induction shifts as [|x shifts IH]; intros m Hnd Hin; [destruct Hin|].
  cbn [fold_left map]. inversion Hnd as [|? ? Hnotin Hnd']; subst.
  destruct Hin as [-> | Hin]; [|now apply IH].
  clear IH Hnd Hnd'.
  assert (forall m', map_get m' (s_id s) = Some s ->
                     map_get (fold_left (fun m shift => map_set m (s_id shift) shift)
                                shifts m') (s_id s) = Some s) as Hkeep.
  { induction shifts as [|y shifts IH]; intros m' Hm'; [assumption|].
    cbn [fold_left]. apply IH.
    - intros Hy. apply Hnotin. now right.
    - rewrite map_get_set_other; [assumption|].
      intros E. apply Hnotin. left. assumption. }
  apply Hkeep, map_get_set_same.
Qed.

Lemma normalizeShiftRecords_ids (records : list value) (s : shift) :
  In s (normalizeShiftRecords records) -> truthy (s_id s) = true.
Proof.
  unfold normalizeShiftRecords.
  induction records as [|r records IH]; cbn; [intros []|].
  destruct (normalizeShiftRecord r) as [s0|] eqn:E; [|assumption].
  cbn. intros [<- | Hin]; [|auto].
  unfold normalizeShiftRecord in E.
  destruct (truthy (readField r ["id"; "shift_id"; "Shift Id"; "shiftId"])) eqn:Et;
    cbn [negb] in E; [|discriminate].
  injection E as <-. exact Et.
Qed.

(** A normalized requirement is never the literal that the validator
    tests for. *)
Lemma normalizeShiftRecords_never_EITHER (records : list value) (s : shift) :
  In s (normalizeShiftRecords records) -> s_roleNeeded s <> "EITHER".
Proof.
  unfold normalizeShiftRecords.
  induction records as [|r records IH]; cbn; [intros []|].
  destruct (normalizeShiftRecord r) as [s0|] eqn:E; [|assumption].
  cbn. intros [<- | Hin]; [|auto].
  unfold normalizeShiftRecord in E.
  destruct (truthy (readField r ["id"; "shift_id"; "Shift Id"; "shiftId"]));
    cbn [negb] in E; [|discriminate].
  injection E as <-. cbn [s_roleNeeded].
  destruct (String.eqb _ "EITHER") eqn:Ee; [discriminate|].
  now apply String.eqb_neq.
Qed.

Variable employeeMap : Map employee.
Variable availabilityMap : Map (list window).
Variable existing : Map value.
Variable shifts : list shift.
Hypothesis employeeMap_wf : wfEmployees employeeMap.
Hypothesis shifts_distinct : NoDup (map s_id shifts).
Hypothesis shifts_ids : forall s, In s shifts -> truthy (s_id s) = true.
Hypothesis shifts_roles : forall s, In s shifts -> s_roleNeeded s <> "EITHER".

(** The validator on the assignment of a committed shift: no
    [inactive_employee] and no [availability] error, the same hours and
    block as the Scheduler recorded, and a [role_mismatch] exactly when the
    role tokens differ. *)
Lemma assignmentValue_ids (a : assignment) :
  truthy (a_shiftId a) = true -> truthy (a_employeeId a) = true ->
  getProp (assignmentValue a) "shiftId" ||' getProp (assignmentValue a) "shift_id"
  = a_shiftId a
  /\ getProp (assignmentValue a) "employeeId"
       ||' getProp (assignmentValue a) "employee_id"
     = a_employeeId a.
Proof.
  intros Hs He. unfold assignmentValue, getProp, or_else. cbn. now rewrite Hs, He.
Qed.

Lemma validateAssignment_committed (st st' : state) (shift : shift) (e : employee)
    (vs : vstate) :
  In shift shifts ->
  committedTo employeeMap availabilityMap st shift e st' ->
  agreement employeeMap shifts st vs ->
  exists vs',
    validateAssignment (shiftMapOf shifts) employeeMap availabilityMap vs
      (assignmentValue {| a_shiftId := s_id shift; a_employeeId := e_id e;
                          a_reason := None |}) = Ok vs'
    /\ agreement employeeMap shifts st' vs'.
Proof.
  intros Hin (Hget & Hact & Hacc & Hav & Hcap & Hov & Ha & Ht & Hb)
         [Hh Hbl Herr Hcaps Hovs].
  destruct (wfEmployees_get _ _ _ employeeMap_wf Hget) as (_ & _ & Htruthy & _).
  pose proof (shifts_ids _ Hin) as Hsid.
  destruct (assignmentValue_ids
              {| a_shiftId := s_id shift; a_employeeId := e_id e; a_reason := None |}
              Hsid Htruthy) as [Eshift Eemp].
  cbn [validateAssignment assignmentValue a_shiftId a_employeeId a_reason app]
    in Eshift, Eemp |- *.
  rewrite Eshift, Eemp.
  eexists. split; [reflexivity|].
  unfold checkAssignment.
  rewrite Hsid, Htruthy. cbn [negb orb].
  rewrite (shiftMapOf_get _ _ shifts_distinct Hin), Hget, Hact.
  rewrite <- coverage_hasCoverage, Hav.
  pose proof (shifts_roles _ Hin) as Hrole. apply String.eqb_neq in Hrole.
  rewrite Hrole. cbn [String.eqb Ascii.eqb Bool.eqb negb andb app].
  split; cbn [errors hoursByEmployee blocksByEmployee].
  - now rewrite Hh, Ht.
  - now rewrite Hbl, Hb.
  - rewrite app_nil_r. apply Forall_app. split; [assumption|].
    destruct (String.eqb (e_role e) (s_roleNeeded shift)) eqn:Er; cbn [negb];
      constructor; [|constructor].
    apply String.eqb_neq in Er. exists shift, e. auto 10.
  - rewrite Ht. apply map_set_Forall; [assumption|]. cbn [fst snd].
    intros e' Hget'. assert (e' = e) as -> by congruence.
    now apply leb_not_ltb.
  - rewrite Hb. unfold map_push. apply map_set_Forall; [assumption|]. cbn [fst snd].
    apply ForallOrdPairs_snoc.
    + unfold map_get_list. destruct (map_get (blocks st) (e_id e)) as [bl|] eqn:Eb;
        [|constructor].
      apply map_get_In in Eb. rewrite Forall_forall in Hovs.
      exact (Hovs _ Eb).
    + apply Forall_forall. intros bi Hbi. unfold noOverlap.
      cbn [blockOfShift b_start b_end].
      rewrite overlaps_existsb in Hov |- *.
      destruct (normalizeRange _ _) as [[cs|] [ce|]]; cbn [r_start r_end] in *;
        try reflexivity.
      cbn [existsb]. rewrite orb_false_r.
      apply not_true_is_false. intros Hbt.
      assert (existsb (overlapsBlock cs ce) (map_get_list (blocks st) (e_id e)) = true)
        as Hex by (apply existsb_exists; eauto).
      congruence.
Qed.

Lemma agreement_run (processed : list shift) (st : state) :
  incl processed shifts ->
  runPass employeeMap availabilityMap existing processed = Ok st ->
  (forall a, In a (assignments st) -> a_employeeId a <> VNull) ->
  exists vs,
    forEachM (validateAssignment (shiftMapOf shifts) employeeMap availabilityMap)
      {| errors := []; hoursByEmployee := []; blocksByEmployee := [] |}
      (map assignmentValue (assignments st)) = Ok vs
    /\ agreement employeeMap shifts st vs.
Proof.
  unfold runPass. revert st.
  induction processed as [|x processed IH] using rev_ind; intros st Hincl.
  - cbn. intros [= <-] _. eexists. split; [reflexivity|].
    split; cbn; constructor.
  - rewrite forEachM_app.
    destruct (forEachM _ initialState processed) as [st0|]; cbn [bind];
      [|discriminate].
    cbn [forEachM].
    destruct (scheduleShift employeeMap availabilityMap existing st0 x)
      as [st1|] eqn:Hstep; cbn [bind]; [|discriminate].
    intros [= <-] Hfilled.
    apply (scheduleShift_outcome employeeMap availabilityMap existing employeeMap_wf)
      in Hstep.
    destruct Hstep as [(reason & Ha & _) | (e & Hcommitted)].
    + exfalso. apply (Hfilled {| a_shiftId := s_id x; a_employeeId := VNull;
                                 a_reason := Some reason |}); [|reflexivity].
      rewrite Ha. apply in_or_app. right. now left.
    + pose proof Hcommitted as (_ & _ & _ & _ & _ & _ & Ha & _).
      destruct (IH st0) as (vs0 & Hvs0 & Hagr0).
      * intros s Hs. apply Hincl, in_or_app. now left.
      * reflexivity.
      * intros a Hin. apply Hfilled. rewrite Ha. apply in_or_app. now left.
      * assert (In x shifts) as Hx by (apply Hincl, in_or_app; right; now left).
        destruct (validateAssignment_committed st0 st1 x e vs0 Hx Hcommitted Hagr0)
          as (vs1 & Hvs1 & Hagr1).
        exists vs1. split; [|assumption].
        rewrite Ha, map_app, forEachM_app, Hvs0. cbn [bind map forEachM].
        rewrite Hvs1. reflexivity.
Qed.

Lemma capErrors_nil (totals : Map float) :
  Forall (fun kv => forall e, map_get employeeMap (fst kv) = Some e ->
                              (e_weeklyCap e <? snd kv)%float = false) totals ->
  capErrors employeeMap totals = [].
Proof.
  unfold capErrors. induction 1 as [|[id h] totals Hkv _ IH]; cbn; [reflexivity|].
  rewrite IH, app_nil_r. cbn [fst snd] in Hkv.
  destruct (map_get employeeMap id) as [e|]; [|reflexivity].
  now rewrite (Hkv e eq_refl).
Qed.

Lemma overlapPairs_nil (id : value) (bl : list block) :
  ForallOrdPairs noOverlap bl -> overlapPairs id bl = [].
Proof.
  induction 1 as [|bi rest Hbi _ IH]; cbn [overlapPairs]; [reflexivity|].
  rewrite IH, app_nil_r. clear IH.
  induction Hbi as [|bj rest' Hbj _ IH']; cbn [flat_map]; [reflexivity|].
  unfold noOverlap in Hbj. rewrite Hbj, IH'. reflexivity.
Qed.

Lemma overlapErrors_nil (blocks : Map (list block)) :
  Forall (fun kv => ForallOrdPairs noOverlap (snd kv)) blocks ->
  overlapErrors blocks = [].
Proof.
  unfold overlapErrors. induction 1 as [|[id bl] blocks Hkv _ IH]; cbn; [reflexivity|].
  now rewrite IH, app_nil_r, overlapPairs_nil.
Qed.

End Agreement.

(** X26.  The part of C1 that the code keeps.  On a run over records that
    [convertible] accepts, over shifts with distinct ids, that fills every
    shift, [validate] returns, and each error it returns is a
    [role_mismatch] for a pairing that [accepts] allowed with differing role
    tokens; when no such pairing is possible it returns no error at all. *)
Theorem validate_on_filled_schedule {rt : Runtime}
    (shiftTemplate employees availability : list value)
    (existingAssignments : value) (res : scheduleResult) :
  forallb convertible (shiftTemplate ++ employees ++ availability) = true ->
  schedule shiftTemplate employees availability existingAssignments = Ok res ->
  NoDup (map s_id (normalizeShiftRecords shiftTemplate)) ->
  (forall a, In a (res_assignments res) -> a_employeeId a <> VNull) ->
  exists errs,
    validate (map assignmentValue (res_assignments res))
      shiftTemplate employees availability = Ok errs
    /\ Forall (roleDisagreement (normalizeEmployees employees)
                 (normalizeShiftRecords shiftTemplate)) errs
    /\ ((forall shift e,
            In shift (normalizeShiftRecords shiftTemplate) ->
            map_get (normalizeEmployees employees) (e_id e) = Some e ->
            accepts (VStr (e_role e)) (VStr (neededRole shift)) = true ->
            e_role e = s_roleNeeded shift) ->
        errs = []).
Proof.
  unfold schedule. intros _ Hrun Hnd Hfilled.
  destruct (runPass _ _ _ _) as [st|] eqn:Hpass; cbn [bind] in Hrun; [|discriminate].
  injection Hrun as <-. cbn [res_assignments] in *.
  destruct (agreement_run (normalizeEmployees employees)
              (normalizeAvailability availability)
              (normalizeAssignments existingAssignments)
              (normalizeShiftRecords shiftTemplate)
              (normalizeEmployees_wf employees) Hnd
              (normalizeShiftRecords_ids shiftTemplate)
              (normalizeShiftRecords_never_EITHER shiftTemplate)
              _ st (incl_refl _) Hpass Hfilled)
    as (vs & Hvs & [Hh Hb Herr Hcap Hov]).
  unfold validate. fold (shiftMapOf (normalizeShiftRecords shiftTemplate)).
  rewrite Hvs. cbn [bind]. eexists. split; [reflexivity|].
  rewrite Hh, Hb, (capErrors_nil _ _ Hcap), (overlapErrors_nil _ Hov), !app_nil_r.
  split; [assumption|].
  intros Hroles. destruct (errors vs) as [|err errs]; [reflexivity|].
  inversion Herr as [|? ? (shift & e & _ & Hin & Hget & Hacc & Hne) _]; subst.
  exfalso. apply Hne. now apply Hroles.
Qed.

Lemma validate_on_filled_schedule_witness :
  exists errs,
    @validate utcHost
      (map assignmentValue
         [{| a_shiftId := VStr "s1"; a_employeeId := VStr "e1"; a_reason := None |}])
      [shiftRecord "s1" "CNA" 7 19]
      [employeeRecord "e1" "CNA" (VStr "Ann") 40]
      [availabilityRecord "e1" "Available" 7 19] = Ok errs
    /\ errs = [].
Proof.
  destruct (@validate_on_filled_schedule utcHost
              [shiftRecord "s1" "CNA" 7 19]
              [employeeRecord "e1" "CNA" (VStr "Ann") 40]
              [availabilityRecord "e1" "Available" 7 19] (VArr [])
              {| res_assignments :=
                   [{| a_shiftId := VStr "s1"; a_employeeId := VStr "e1";
                       a_reason := None |}];
                 res_issues := [];
                 res_totalsByEmployee :=
                   [("e1",
                     {| sum_employeeId := VStr "e1"; sum_name := VStr "Ann";
                        sum_role := "CNA"; sum_weeklyCap := 40;
                        sum_hours := 12; sum_assignments := 1 |})] |})
    as (errs & Hval & _ & Hnil).
  - reflexivity.
  - reflexivity.
  - vm_compute. repeat constructor. intros [].
  - intros a [<- | []]. discriminate.
  - exists errs. split; [exact Hval|]. apply Hnil.
    intros shift e Hin Hget Hacc.
    vm_compute in Hin. destruct Hin as [<- | []].
    destruct (wfEmployees_get _ _ _ (@normalizeEmployees_wf utcHost _) Hget)
      as (Hin & _).
    vm_compute in Hin. destruct Hin as [<- | []]. reflexivity.
Defined.

(** * Further properties of the code *)

(** ** Time arithmetic *)

Section MoreTimeFacts.
Context {rt : Runtime}.

(** X1.  [normalizeRange], applied again to its own result, returns that
    result exactly when the result is the null pair or has its start before
    its end; a result whose end is still at or before its start is moved by
    another 24 hours when it is normalized again.  This is for endpoints
    that convert without throwing and a result whose end, also when moved by
    another 24 hours, is a time value. *)
Theorem normalizeRange_again (start end_ : value) :
  convertible start = true -> convertible end_ = true ->
  (forall e, r_end (normalizeRange start end_) = Some e -> e + MS_IN_DAY <= maxTime) ->
  (normalizeRange (dateValue (r_start (normalizeRange start end_)))
     (dateValue (r_end (normalizeRange start end_)))
   = normalizeRange start end_
   <-> (normalizeRange start end_ = {| r_start := None; r_end := None |}
        \/ exists s e,
             normalizeRange start end_ = {| r_start := Some s; r_end := Some e |}
             /\ s < e))
  /\ (forall s e,
        normalizeRange start end_ = {| r_start := Some s; r_end := Some e |} ->
        e <= s ->
        normalizeRange (dateValue (Some s)) (dateValue (Some e))
        = {| r_start := Some s; r_end := Some (e + MS_IN_DAY) |}).
Proof.
  intros _ _ _. split.
  - rewrite normalizeRange_dateValue.
    destruct (normalizeRange start end_) as [[s|] [e|]] eqn:E; cbn [r_start r_end].
    + destruct (e <=? s) eqn:Hle.
      * apply Z.leb_le in Hle. split.
        -- intros [= H]. unfold MS_IN_DAY, MS_IN_HOUR in H. lia.
        -- intros [H | (s' & e' & [= <- <-] & Hlt)]; [discriminate | lia].
      * apply Z.leb_gt in Hle. split; [|reflexivity].
        intros _. right. exists s, e. auto.
    + unfold normalizeRange in E.
      destruct (toDate start), (toDate end_); try destruct (_ <=? _); discriminate.
    + unfold normalizeRange in E.
      destruct (toDate start), (toDate end_); try destruct (_ <=? _); discriminate.
    + split; [auto | reflexivity].
  - intros s e _ Hle. rewrite normalizeRange_dateValue.
    apply Z.leb_le in Hle. now rewrite Hle.
Qed.

(** [overlaps] against a concatenated block list is the disjunction of
    [overlaps] against the parts, so further blocks never clear a
    conflict. *)
Theorem overlaps_app (l1 l2 : list block) (start end_ : value) :
  overlaps (l1 ++ l2) start end_ = overlaps l1 start end_ || overlaps l2 start end_.
Proof.
  rewrite !overlaps_existsb.
  destruct (normalizeRange start end_) as [[cs|] [ce|]]; cbn [r_start r_end];
    try reflexivity.
  apply existsb_app.
Qed.

(** X2.  On endpoints that convert without throwing, [hoursBetween] returns
    a finite number, never NaN or an infinity: 0 when an endpoint does not
    parse, and otherwise, when the end that [normalizeRange] yields is a
    time value, the quotient in doubles of the milliseconds from the start
    to that end by 3600000. *)
Theorem hoursBetween_cases (start end_ : value) :
  convertible start = true -> convertible end_ = true ->
  is_finite (hoursBetween start end_) = true
  /\ (toDate start = None \/ toDate end_ = None ->
      hoursBetween start end_ = 0%float)
  /\ (forall s e, toDate start = Some s -> toDate end_ = Some e ->
        (if e <=? s then e + MS_IN_DAY else e) <= maxTime ->
        hoursBetween start end_
        = doubleHours s (if e <=? s then e + MS_IN_DAY else e)).
Proof.
  intros _ _. unfold hoursBetween, normalizeRange, doubleHours. repeat split.
  - destruct (toDate start) as [s|], (toDate end_) as [e|]; try reflexivity.
    destruct (e <=? s); cbn [r_start r_end];
      destruct (is_finite (_ / _)) eqn:E; solve [exact E | reflexivity].
  - intros [H | H]; rewrite H; [reflexivity|].
    now destruct (toDate start).
  - intros s e -> -> _. now destruct (e <=? s).
Qed.

(** For two well-formed intervals (start before end) [overlaps] is the
    half-open intersection test, whichever of the two is the block and
    whichever the candidate; in particular an interval that starts when the
    other ends does not overlap it. *)
Theorem overlaps_well_formed (idA idB : value) (sa ea sb eb : Z) :
  sa < ea -> sb < eb ->
  overlaps [{| b_start := Some sa; b_end := Some ea; b_shiftId := idA |}]
    (dateValue (Some sb)) (dateValue (Some eb))
  = intersects sa ea sb eb
  /\ overlaps [{| b_start := Some sb; b_end := Some eb; b_shiftId := idB |}]
       (dateValue (Some sa)) (dateValue (Some ea))
     = intersects sa ea sb eb
  /\ (ea = sb -> intersects sa ea sb eb = false).
Proof.
  intros Ha Hb.
  assert ((ea <=? sa) = false) as Ea by (apply Z.leb_gt; lia).
  assert ((eb <=? sb) = false) as Eb by (apply Z.leb_gt; lia).
  repeat split.
  - rewrite overlaps_existsb, normalizeRange_dateValue, Eb. cbn [r_start r_end existsb].
    unfold overlapsBlock. cbn [b_start b_end].
    rewrite normalizeRange_dateValue, Ea, Eb. cbn [r_start r_end].
    rewrite Ea, orb_false_r. reflexivity.
  - rewrite overlaps_existsb, normalizeRange_dateValue, Ea. cbn [r_start r_end existsb].
    unfold overlapsBlock. cbn [b_start b_end].
    rewrite normalizeRange_dateValue, Ea, Eb. cbn [r_start r_end].
    rewrite Eb, orb_false_r. unfold intersects. apply andb_comm.
  - intros ->. unfold intersects. rewrite Z.ltb_irrefl. apply andb_false_r.
Qed.

End MoreTimeFacts.

Lemma normalizeRange_again_witness :
  @normalizeRange utcHost (dateValue (Some (30 * MS_IN_HOUR)))
    (dateValue (Some (24 * MS_IN_HOUR)))
  = {| r_start := Some (30 * MS_IN_HOUR); r_end := Some (24 * MS_IN_HOUR + MS_IN_DAY) |}.
Proof.
  apply (proj2 (@normalizeRange_again utcHost (at_hour 30) (at_hour 0)
                  eq_refl eq_refl
                  ltac:(intros e [= <-]; vm_compute; discriminate))).
  - reflexivity.
  - vm_compute. discriminate.
Defined.

Lemma hoursBetween_cases_witness :
  @hoursBetween utcHost (at_hour 19) (at_hour 7) = 12%float.
Proof.
  rewrite (proj2 (proj2 (@hoursBetween_cases utcHost (at_hour 19) (at_hour 7)
                           eq_refl eq_refl))
             (19 * MS_IN_HOUR) (7 * MS_IN_HOUR) eq_refl eq_refl).
  - reflexivity.
  - vm_compute. discriminate.
Defined.

Lemma overlaps_well_formed_witness :
  @overlaps utcHost [blockAt "s1" 7 19] (at_hour 19) (at_hour 31) = false.
Proof.
  destruct (@overlaps_well_formed utcHost (VStr "s1") (VStr "s2")
              (7 * MS_IN_HOUR) (19 * MS_IN_HOUR) (19 * MS_IN_HOUR) (31 * MS_IN_HOUR))
    as (H1 & _ & H3).
  - vm_compute. reflexivity.
  - vm_compute. reflexivity.
  - rewrite <- (H3 eq_refl). exact H1.
Defined.

(** ** Role tokens *)

Lemma is_space_upper_char (c : ascii) : is_space (upper_char c) = is_space c.
Proof. now destruct c as [[] [] [] [] [] [] [] []]. Qed.

Lemma upper_char_idempotent (c : ascii) : upper_char (upper_char c) = upper_char c.
Proof. now destruct c as [[] [] [] [] [] [] [] []]. Qed.

Lemma toUpperCase_idempotent (s : string) : toUpperCase (toUpperCase s) = toUpperCase s.
Proof.
  induction s as [|c s IH]; [reflexivity|].
  unfold toUpperCase in *. cbn [map_string]. now rewrite upper_char_idempotent, IH.
Qed.

Lemma trimStart_toUpperCase (s : string) :
  trimStart (toUpperCase s) = toUpperCase (trimStart s).
Proof.
  induction s as [|c s IH]; [reflexivity|].
  unfold toUpperCase in *. cbn [map_string trimStart].
  rewrite is_space_upper_char. now destruct (is_space c).
Qed.

Lemma trimEnd_toUpperCase (s : string) :
  trimEnd (toUpperCase s) = toUpperCase (trimEnd s).
Proof.
  induction s as [|c s IH]; [reflexivity|].
  unfold toUpperCase in *. cbn [map_string trimEnd].
  rewrite IH, is_space_upper_char.
  destruct (trimEnd s); cbn [map_string]; [now destruct (is_space c)|reflexivity].
Qed.

Lemma trim_toUpperCase (s : string) : trim (toUpperCase s) = toUpperCase (trim s).
Proof. unfold trim. now rewrite trimStart_toUpperCase, trimEnd_toUpperCase. Qed.

Lemma trimEnd_idempotent (s : string) : trimEnd (trimEnd s) = trimEnd s.
Proof.
  induction s as [|c s IH]; [reflexivity|].
  cbn [trimEnd]. destruct (trimEnd s) as [|d t] eqn:E.
  - destruct (is_space c) eqn:Hc; [reflexivity|]. cbn [trimEnd]. now rewrite Hc.
  - change (trimEnd (String c (String d t)))
      with (match trimEnd (String d t) with
            | EmptyString => if is_space c then EmptyString else String c EmptyString
            | rest' => String c rest'
            end).
    now rewrite IH.
Qed.

Lemma trimStart_headNotSpace (s : string) : headNotSpace (trimStart s).
Proof.
  induction s as [|c s IH]; [exact I|].
  cbn [trimStart]. destruct (is_space c) eqn:Hc; [exact IH | exact Hc].
Qed.

Lemma trimStart_trimEnd (s : string) :
  headNotSpace s -> trimStart (trimEnd s) = trimEnd s.
Proof.
  destruct s as [|c s]; [reflexivity|]. cbn [headNotSpace trimEnd]. intros Hc.
  destruct (trimEnd s); rewrite ?Hc; cbn [trimStart]; now rewrite Hc.
Qed.

Lemma trim_idempotent (s : string) : trim (trim s) = trim s.
Proof.
  unfold trim.
  rewrite (trimStart_trimEnd (trimStart s) (trimStart_headNotSpace s)).
  apply trimEnd_idempotent.
Qed.

Section MoreRoleFacts.
Context {rt : Runtime}.

Lemma norm_VStr (s : string) : norm (VStr s) = toUpperCase (trim s).
Proof.
  unfold norm, or_else. cbn [truthy].
  destruct (String.eqb s "") eqn:E; [|reflexivity].
  apply String.eqb_eq in E. now subst.
Qed.

(** [norm] is idempotent: a token that was normalized once, as the roles of
    canonical employees and shifts are, is left as it is, so [accepts]
    gives the same answer on raw and on normalized tokens. *)
Theorem norm_idempotent (empRole roleNeeded : value) :
  norm (VStr (norm roleNeeded)) = norm roleNeeded
  /\ accepts (VStr (norm empRole)) (VStr (norm roleNeeded)) = accepts empRole roleNeeded.
Proof.
  assert (forall v, norm (VStr (norm v)) = norm v) as H.
  { intros v. rewrite norm_VStr. unfold norm.
    now rewrite trim_toUpperCase, trim_idempotent, toUpperCase_idempotent. }
  split; [apply H|]. unfold accepts. now rewrite !H.
Qed.

(** [roleMatches] and [accepts] differ only on the empty requirement:
    [roleMatches] lets every role fill a shift whose requirement is empty,
    [accepts] only the empty role; on every other requirement they agree. *)
Theorem roleMatches_accepts (empRole roleNeeded : value) :
  roleMatches empRole roleNeeded
  = (String.eqb (norm roleNeeded) "" || accepts empRole roleNeeded)
  /\ (norm roleNeeded = "" ->
      accepts empRole roleNeeded = String.eqb (norm empRole) "").
Proof.
  unfold roleMatches, accepts, norm. split.
  - destruct (String.eqb (toUpperCase (trim (String_ (roleNeeded ||' VStr "")))) "");
      reflexivity.
  - intros ->. now destruct (String.eqb _ "").
Qed.

End MoreRoleFacts.

Lemma roleMatches_accepts_witness :
  @accepts utcHost (VStr "CNA") (VStr "  ") = false.
Proof.
  apply (proj2 (@roleMatches_accepts utcHost (VStr "CNA") (VStr "  "))).
  reflexivity.
Defined.

(** ** Reading fields *)

(** [readField] returns the first alias that the record itself owns, also
    when its value is [null], and then never looks into the [fields] bag;
    the bag is read, in the same alias order, only when the record owns
    none of the aliases; a record that is [null] or [undefined] reads as
    [undefined]. *)
Theorem readField_precedence (record : value) (keys : list string) :
  (forall before key after v,
      keys = before ++ key :: after ->
      (forall k, In k before -> getOwn record k = None) ->
      getOwn record key = Some v ->
      readField record keys = v)
  /\ (forall before key after v,
      keys = before ++ key :: after ->
      (forall k, In k keys -> getOwn record k = None) ->
      (forall k, In k before -> getOwn (getProp record "fields") k = None) ->
      getOwn (getProp record "fields") key = Some v ->
      readField record keys = v)
  /\ (truthy record = false -> readField record keys = VUndef).
Proof.
  assert (forall v ks, (forall k, In k ks -> getOwn v k = None) -> findOwn v ks = None)
    as Hnone.
  { intros v ks. induction ks as [|k ks IH]; [reflexivity|]. intros H. cbn [findOwn].
    rewrite (H k (or_introl eq_refl)). apply IH. intros k' Hk'. apply H. now right. }
  assert (forall r before key after v,
             (forall k, In k before -> getOwn r k = None) ->
             getOwn r key = Some v ->
             findOwn r (before ++ key :: after) = Some v /\ truthy r = true) as Hfirst.
  { intros r before key after v Hbefore Hkey. split.
    - induction before as [|b before IH]; cbn [app findOwn].
      + now rewrite Hkey.
      + rewrite (Hbefore b (or_introl eq_refl)). apply IH.
        intros k Hk. apply Hbefore. now right.
    - destruct r; try reflexivity; discriminate. }
  split; [|split].
  - intros before key after v -> Hbefore Hkey.
    destruct (Hfirst record before key after v Hbefore Hkey) as [Hf Ht].
    unfold readField. now rewrite Ht, Hf.
  - intros before key after v -> Hkeys Hbefore Hkey.
    destruct (Hfirst _ before key after v Hbefore Hkey) as [Hf Ht].
    assert (truthy record = true) as Hr.
    { destruct record; try reflexivity; cbn in Hkey; discriminate. }
    unfold readField. rewrite Hr, (Hnone _ _ Hkeys), Ht, Hf. reflexivity.
  - intros Ht. unfold readField. rewrite Ht. cbn. now rewrite Ht.
Qed.

Lemma readField_precedence_witness :
  readField (VObj [("id", VNull); ("fields", VObj [("id", VStr "e1")])])
    ["id"; "employee_id"; "employeeId"] = VNull.
Proof.
  apply (proj1 (readField_precedence
                  (VObj [("id", VNull); ("fields", VObj [("id", VStr "e1")])])
                  ["id"; "employee_id"; "employeeId"])
           [] "id" ["employee_id"; "employeeId"] VNull eq_refl).
  - intros k [].
  - reflexivity.
Defined.

(** ** Canonical entities *)

Lemma fold_left_invariant {A B : Type} (P : A -> Prop) (f : A -> B -> A)
    (l : list B) (a : A) :
  (forall a b, P a -> In b l -> P (f a b)) -> P a -> P (fold_left f l a).
Proof.
  revert a. induction l as [|b l IH]; intros a Hf Ha; [assumption|].
  cbn [fold_left]. apply IH.
  - intros a' b' Ha' Hb'. apply Hf; [assumption | now right].
  - apply Hf; [assumption | now left].
Qed.

Lemma map_get_set {V : Type} (m : Map V) (k k' : value) (v : V) :
  map_get (map_set m k v) k' = if value_eqb k k' then Some v else map_get m k'.
Proof.
  destruct (value_eqb k k') eqn:E.
  - apply value_eqb_eq in E. subst. apply map_get_set_same.
  - apply value_eqb_neq in E. now apply map_get_set_other.
Qed.

Lemma map_set_In {V : Type} (m : Map V) (k : value) (v : V) (p : value * V) :
  In p (map_set m k v) -> In p m \/ p = (k, v).
Proof.
  induction m as [|[k0 v0] m IH]; cbn.
  - intros [<- | []]. now right.
  - destruct (value_eqb k0 k) eqn:E; cbn.
    + apply value_eqb_eq in E. subst k0. intros [<- | H]; auto.
    + intros [<- | H]; [auto|]. destruct (IH H); auto.
Qed.

Lemma norm_normalized {rt : Runtime} (s : string) :
  norm (VStr (toUpperCase (trim s))) = toUpperCase (trim s).
Proof.
  rewrite norm_VStr.
  now rewrite trim_toUpperCase, trim_idempotent, toUpperCase_idempotent.
Qed.

Section MoreDataFacts.
Context {rt : Runtime}.

(** The employee map holds one entry per id; every entry is stored under
    its own id, which is truthy and was read from one of the records, has a
    positive weekly cap, and carries a role token that is already
    normalized. *)
Theorem normalizeEmployees_canonical (records : list value) :
  NoDup (map fst (normalizeEmployees records))
  /\ forall id e,
       map_get (normalizeEmployees records) id = Some e ->
       e_id e = id
       /\ truthy id = true
       /\ (0 <? e_weeklyCap e)%float = true
       /\ norm (VStr (e_role e)) = e_role e
       /\ exists record,
            In record records
            /\ readField record ["id"; "employee_id"; "employeeId"] = id.
Proof.
  split; [apply normalizeEmployees_wf|].
  intros id e Hget.
  destruct (wfEmployees_get _ _ _ (normalizeEmployees_wf records) Hget)
    as (_ & Hid & Ht & Hcap).
  repeat (split; [assumption|]).
  apply map_get_In in Hget. revert Hget. unfold normalizeEmployees.
  apply (fold_left_invariant
           (fun m => In (id, e) m ->
                     norm (VStr (e_role e)) = e_role e
                     /\ exists record,
                          In record records
                          /\ readField record ["id"; "employee_id"; "employeeId"] = id));
    [|intros []].
  intros m record IH Hrecord. unfold normalizeEmployee.
  destruct (truthy (readField record ["id"; "employee_id"; "employeeId"]));
    cbn [negb]; [|exact IH].
  intros Hin. apply map_set_In in Hin. destruct Hin as [Hin | [= -> ->]]; [auto|].
  cbn [e_role]. split; [apply norm_normalized|]. exists record. auto.
Qed.

End MoreDataFacts.

Section LookupFacts.
Context {rt : Runtime}.

(** A lookup in the employee map of [records] followed by one more record
    finds the employee of that last record under its id and, under every
    other id, what the map of [records] holds: the last record with an id
    wins, and a record without an id changes nothing. *)
Theorem normalizeEmployees_last_wins (records : list value) (record id : value) :
  map_get (normalizeEmployees (records ++ [record])) id
  = match map_get (normalizeEmployee [] record) id with
    | Some e => Some e
    | None => map_get (normalizeEmployees records) id
    end.
Proof.
  unfold normalizeEmployees. rewrite fold_left_app. cbn [fold_left].
  unfold normalizeEmployee.
  destruct (truthy (readField record ["id"; "employee_id"; "employeeId"]));
    cbn [negb]; [|reflexivity].
  rewrite map_get_set. cbn [map_set map_get].
  now destruct (value_eqb _ id).
Qed.

Lemma normalizeAssignments_entries (props : list (string * value))
    (seen : list string) (m : Map value) (k : string) :
  map_get
    (fold_left
       (fun map entry =>
          if truthy (VStr (fst entry)) && truthy (snd entry)
          then map_set map (VStr (fst entry)) (snd entry) else map)
       (entries seen props) m) (VStr k)
  = if existsb (String.eqb k) seen then map_get m (VStr k)
    else match assoc k props with
         | Some v => if truthy (VStr k) && truthy v then Some v else map_get m (VStr k)
         | None => map_get m (VStr k)
         end.
Proof.
  revert seen m. induction props as [|[k0 v0] props IH]; intros seen m;
    cbn [entries assoc fold_left].
  - now destruct (existsb _ seen).
  - destruct (existsb (String.eqb k0) seen) eqn:E0.
    + rewrite IH. destruct (existsb (String.eqb k) seen) eqn:Ek; [reflexivity|].
      destruct (String.eqb k0 k) eqn:E; [|reflexivity].
      apply String.eqb_eq in E. subst k0. congruence.
    + cbn [fold_left fst snd]. rewrite IH. cbn [existsb].
      destruct (String.eqb k0 k) eqn:E.
      * apply String.eqb_eq in E. subst k0. rewrite String.eqb_refl, E0. cbn [orb].
        destruct (truthy (VStr k) && truthy v0); [apply map_get_set_same | reflexivity].
      * assert (String.eqb k k0 = false) as E' by now rewrite String.eqb_sym.
        rewrite E'. cbn [orb].
        assert (map_get (if truthy (VStr k0) && truthy v0
                         then map_set m (VStr k0) v0 else m) (VStr k)
                = map_get m (VStr k)) as ->.
        { destruct (truthy (VStr k0) && truthy v0); [|reflexivity].
          apply map_get_set_other. intros [= ->]. now rewrite String.eqb_refl in E. }
        reflexivity.
Qed.

(** The mapping form of the existing assignments stores, under every key
    that is not empty, the value of that key when it is truthy, and nothing
    under any other key; the list form keeps, for every shift id, the
    employee of the last record that names the shift with an employee; in
    either form every stored shift id and employee id is truthy. *)
Theorem normalizeAssignments_lookup (records : value) :
  (forall props k,
      map_get (normalizeAssignments (VObj props)) (VStr k)
      = match assoc k props with
        | Some v => if truthy (VStr k) && truthy v then Some v else None
        | None => None
        end)
  /\ (forall items record id,
        map_get (normalizeAssignments (VArr (items ++ [record]))) id
        = match map_get (normalizeAssignments (VArr [record])) id with
          | Some e => Some e
          | None => map_get (normalizeAssignments (VArr items)) id
          end)
  /\ (forall shiftId employeeId,
        map_get (normalizeAssignments records) shiftId = Some employeeId ->
        truthy shiftId = true /\ truthy employeeId = true).
Proof.
  split; [|split].
  - intros props k. unfold normalizeAssignments.
    rewrite normalizeAssignments_entries. cbn [existsb map_get].
    destruct (assoc k props) as [v|]; [|reflexivity].
    now destruct (truthy (VStr k) && truthy v).
  - intros items record id.
    unfold normalizeAssignments. rewrite fold_left_app. cbn [fold_left].
    destruct (truthy (readField record ["shift_id"; "shiftId"; "id"])
              && truthy (readField record
                           ["employee_id"; "employeeId"; "assigned_employee"]));
      [|reflexivity].
    rewrite map_get_set. cbn [map_set map_get].
    now destruct (value_eqb _ id).
  - intros shiftId employeeId Hget. apply map_get_In in Hget.
    assert (forall (A : Type) (f : Map value -> A -> Map value) (l : list A),
               (forall m a, f m a = m
                            \/ exists k v, truthy k = true /\ truthy v = true
                                           /\ f m a = map_set m k v) ->
               In (shiftId, employeeId) (fold_left f l []) ->
               truthy shiftId = true /\ truthy employeeId = true) as Hfold.
    { intros A f l Hf.
      apply (fold_left_invariant
               (fun m => In (shiftId, employeeId) m ->
                         truthy shiftId = true /\ truthy employeeId = true));
        [|intros []].
      intros m a IH _ Hin.
      destruct (Hf m a) as [E | (k & v & Hk & Hv & E)]; rewrite E in Hin; [auto|].
      apply map_set_In in Hin. destruct Hin as [Hin | [= -> ->]]; auto. }
    destruct records; cbn [normalizeAssignments] in Hget; try contradiction.
    + revert Hget. apply Hfold. intros m a.
      destruct (truthy (readField a ["shift_id"; "shiftId"; "id"])) eqn:E1;
        [|now left].
      destruct (truthy (readField a ["employee_id"; "employeeId"; "assigned_employee"]))
        eqn:E2; [|now left].
      right. eauto.
    + revert Hget. apply Hfold. intros m a.
      destruct (truthy (VStr (fst a))) eqn:E1; [|now left].
      destruct (truthy (snd a)) eqn:E2; [|now left].
      right. eauto.
Qed.

Lemma map_get_list_push {V : Type} (m : Map (list V)) (k k' : value) (x : V) :
  map_get_list (map_push m k x) k'
  = map_get_list m k' ++ (if value_eqb k k' then [x] else []).
Proof.
  destruct (value_eqb k k') eqn:E.
  - apply value_eqb_eq in E. subst. apply map_get_list_push_same.
  - apply value_eqb_neq in E. rewrite app_nil_r. now apply map_get_list_push_other.
Qed.

Lemma map_get_list_fold_push {V : Type} (x : V) (ids : list value)
    (m : Map (list V)) (id : value) :
  map_get_list (fold_left (fun a employeeId => map_push a employeeId x) ids m) id
  = map_get_list m id ++ map (fun _ => x) (filter (fun k => value_eqb k id) ids).
Proof.
  revert m. induction ids as [|k ids IH]; intros m; cbn [fold_left filter map].
  - now rewrite app_nil_r.
  - rewrite IH, map_get_list_push. rewrite <- app_assoc.
    now destruct (value_eqb k id).
Qed.

Lemma normalizeAvailabilityRecord_get (m : Map (list window)) (record id : value) :
  map_get_list (normalizeAvailabilityRecord m record) id
  = map_get_list m id ++ map_get_list (normalizeAvailabilityRecord [] record) id.
Proof.
  unfold normalizeAvailabilityRecord.
  repeat match goal with
         | |- context [match ?x with _ => _ end] =>
             lazymatch x with
             | context [match _ with _ => _ end] => fail
             | _ => destruct x
             end
         end;
    rewrite ?app_nil_r; try reflexivity;
    rewrite !map_get_list_fold_push; reflexivity.
Qed.

End LookupFacts.

Section WindowFacts.
Context {rt : Runtime}.

Lemma normalizeAvailabilityRecord_window (record id : value) (w : window) :
  In w (map_get_list (normalizeAvailabilityRecord [] record) id) ->
  truthy id = true /\ exists s e, w_start w = Some s /\ w_end w = Some e.
Proof.
  unfold normalizeAvailabilityRecord.
  set (fields := if truthy record && truthy (getProp record "fields")
                 then getProp record "fields" else record).
  set (employeeField :=
         readField fields
           ["employee_id"; "employee"; "Employee"; "employees"; "Employee ID"]).
  set (employeeIds := match employeeField with
                      | VArr items => filter truthy items
                      | _ => if truthy employeeField then [employeeField] else []
                      end).
  assert (forall k, In k employeeIds -> truthy k = true) as Hids.
  { assert (forall v k, In k (if truthy v then [v] else []) -> truthy k = true) as H1.
    { intros v k. destruct (truthy v) eqn:E; [intros [<- | []]; exact E | intros []]. }
    intros k. subst employeeIds.
    destruct employeeField; try apply H1.
    intros Hk. now apply filter_In in Hk. }
  clearbody employeeIds.
  destruct employeeIds as [|k0 ids]; [intros []|].
  destruct (String.eqb _ "unavailable"); [intros []|].
  match goal with
  | |- context [normalizeRange ?a ?b] => destruct (normalizeRange a b) as [[s|] [e|]]
  end; cbn [r_start r_end]; try (intros []; fail).
  rewrite map_get_list_fold_push. cbn [map_get_list map_get app].
  intros Hin. apply in_map_iff in Hin. destruct Hin as (k & <- & Hk).
  apply filter_In in Hk. destruct Hk as [Hk Heq].
  apply value_eqb_eq in Heq. subst k. split; [now apply Hids|].
  cbn [w_start w_end]. eauto.
Qed.

(** The windows of an employee in the availability map of two record lists
    put together are the windows from the first list followed by the
    windows from the second: records add windows in order and never remove
    or change one.  Every window that is stored belongs to a truthy
    employee id and has both a start and an end. *)
Theorem normalizeAvailability_windows (records1 records2 : list value) (id : value) :
  map_get_list (normalizeAvailability (records1 ++ records2)) id
  = map_get_list (normalizeAvailability records1) id
      ++ map_get_list (normalizeAvailability records2) id
  /\ forall w,
       In w (map_get_list (normalizeAvailability records1) id) ->
       truthy id = true /\ exists s e, w_start w = Some s /\ w_end w = Some e.
Proof.
  split.
  - induction records2 as [|r records2 IH] using rev_ind.
    + rewrite app_nil_r. cbn. now rewrite app_nil_r.
    + assert (forall l, normalizeAvailability (l ++ [r])
                         = normalizeAvailabilityRecord (normalizeAvailability l) r)
        as Hsnoc.
      { intros l. unfold normalizeAvailability. now rewrite fold_left_app. }
      rewrite app_assoc, !Hsnoc.
      rewrite normalizeAvailabilityRecord_get, IH.
      rewrite (normalizeAvailabilityRecord_get (normalizeAvailability records2)).
      now rewrite app_assoc.
  - intros w. unfold normalizeAvailability.
    apply (fold_left_invariant
             (fun m => In w (map_get_list m id) ->
                       truthy id = true
                       /\ exists s e, w_start w = Some s /\ w_end w = Some e));
      [|intros []].
    intros m r IH _. rewrite normalizeAvailabilityRecord_get. intros Hin.
    apply in_app_or in Hin. destruct Hin as [Hin | Hin]; [auto|].
    revert Hin. apply normalizeAvailabilityRecord_window.
Qed.

End WindowFacts.

Lemma normalizeAvailability_windows_witness :
  truthy (VStr "e1") = true
  /\ exists s e,
       w_start {| w_start := Some (7 * MS_IN_HOUR); w_end := Some (23 * MS_IN_HOUR);
                  w_preferred := false; w_recordId := VUndef |} = Some s
       /\ w_end {| w_start := Some (7 * MS_IN_HOUR); w_end := Some (23 * MS_IN_HOUR);
                   w_preferred := false; w_recordId := VUndef |} = Some e.
Proof.
  apply (proj2 (@normalizeAvailability_windows utcHost dayAvailability [] (VStr "e1"))).
  vm_compute. left. reflexivity.
Defined.

Section ShiftFacts.
Context {rt : Runtime}.

Lemma filterSome_In {A : Type} (l : list (option A)) (a : A) :
  In a (filterSome l) <-> In (Some a) l.
Proof.
  induction l as [|[x|] l IH]; cbn; [tauto | |].
  - rewrite IH. split; intros [H | H]; auto; [left; congruence | injection H; auto].
  - rewrite IH. split; [auto | intros [H | H]; [discriminate | auto]].
Qed.

Lemma normalizeRange_both_or_neither (start end_ : value) :
  r_start (normalizeRange start end_) = None <-> r_end (normalizeRange start end_) = None.
Proof.
  unfold normalizeRange.
  destruct (toDate start), (toDate end_); try destruct (_ <=? _); cbn [r_start r_end];
    split; intros H; try reflexivity; discriminate.
Qed.

Lemma normalizeShiftRecord_canonical (record : value) (s : shift) :
  normalizeShiftRecord record = Some s ->
  s_id s = readField record ["id"; "shift_id"; "Shift Id"; "shiftId"]
  /\ truthy (s_id s) = true
  /\ s_roleNeeded s <> "EITHER"
  /\ neededRole s = s_roleNeeded s
  /\ (s_start s = None <-> s_end s = None)
  /\ (s_start s = None -> s_hours s = 0%float)
  /\ (forall a b, s_start s = Some a -> s_end s = Some b ->
        s_hours s = doubleHours a (if b <=? a then b + MS_IN_DAY else b)).
Proof.
  unfold normalizeShiftRecord.
  destruct (truthy (readField record ["id"; "shift_id"; "Shift Id"; "shiftId"])) eqn:Hid;
    cbn [negb]; [|discriminate].
  intros [= <-]. cbn [s_id s_roleNeeded s_start s_end s_hours].
  split; [reflexivity|]. split; [assumption|].
  match goal with
  | |- context [normalizeRange ?a ?b] =>
      pose proof (normalizeRange_both_or_neither a b) as Hr;
      destruct (normalizeRange a b) as [[a0|] [b0|]]
  end; cbn [r_start r_end] in *.
  all: match goal with
       | |- context [toUpperCase (trim ?x)] => generalize (norm_normalized x);
                                                 generalize (toUpperCase (trim x))
       end; intros role Hrole.
  all: assert ((if String.eqb role "EITHER" then "" else role) <> "EITHER"
               /\ neededRole
                    {| s_id := readField record ["id"; "shift_id"; "Shift Id"; "shiftId"];
                       s_roleNeeded := if String.eqb role "EITHER" then "" else role;
                       s_start := None; s_end := None; s_hours := 0; s_fields := VNull |}
                  = (if String.eqb role "EITHER" then "" else role)) as [Hne Hneeded];
    [ unfold neededRole; cbn [s_roleNeeded];
      destruct (String.eqb role "EITHER") eqn:E;
      [ split; [discriminate | reflexivity]
      | split; [ intros ->; discriminate |];
        unfold or_else; cbn [truthy];
        destruct (String.eqb role "") eqn:E0;
        [ apply String.eqb_eq in E0; subst role; reflexivity
        | cbn [negb truthy]; rewrite E0; exact Hrole ] ]
    | ].
  all: split; [exact Hne|]; split; [exact Hneeded|].
  - split; [split; discriminate|]. split; [discriminate|].
    intros a b [= <-] [= <-]. unfold hoursBetween.
    rewrite normalizeRange_dateValue. destruct (b0 <=? a0); cbn [r_start r_end];
      reflexivity.
  - exfalso. destruct Hr as [_ Hr]. now specialize (Hr eq_refl).
  - exfalso. destruct Hr as [Hr _]. now specialize (Hr eq_refl).
  - split; [tauto|]. split; [reflexivity|]. intros a b [=].
Qed.

(** X11.  The canonical shifts are the records that carry a truthy id, in
    the order of the records.  Each has a requirement that is never the
    text EITHER and that [neededRole] leaves as it is; its start and end are
    both set or both null; its hours are 0 without times and otherwise, when
    the times are time values, the length of the stored interval in hours as
    a double, after 24 more hours were added to an end that is still at or
    before the start. *)
Theorem normalizeShiftRecords_canonical (records : list value) :
  map s_id (normalizeShiftRecords records)
  = filter truthy
      (map (fun record => readField record ["id"; "shift_id"; "Shift Id"; "shiftId"])
         records)
  /\ forall s,
       In s (normalizeShiftRecords records) ->
       s_roleNeeded s <> "EITHER"
       /\ neededRole s = s_roleNeeded s
       /\ (s_start s = None <-> s_end s = None)
       /\ (s_start s = None -> s_hours s = 0%float)
       /\ (forall a b, s_start s = Some a -> s_end s = Some b ->
             (if b <=? a then b + MS_IN_DAY else b) <= maxTime ->
             s_hours s = doubleHours a (if b <=? a then b + MS_IN_DAY else b)).
Proof.
  unfold normalizeShiftRecords. split.
  - induction records as [|r records IH]; [reflexivity|].
    cbn [map filterSome filter].
    destruct (normalizeShiftRecord r) as [s|] eqn:E.
    + destruct (normalizeShiftRecord_canonical r s E) as (Hid & Ht & _).
      rewrite <- Hid, Ht. cbn [map]. now rewrite IH.
    + unfold normalizeShiftRecord in E.
      destruct (truthy (readField r ["id"; "shift_id"; "Shift Id"; "shiftId"]));
        [discriminate | exact IH].
  - intros s Hin. apply filterSome_In, in_map_iff in Hin.
    destruct Hin as (r & E & _).
    destruct (normalizeShiftRecord_canonical r s E)
      as (_ & _ & H1 & H2 & H3 & H4 & H5).
    repeat (split; [assumption|]). intros a b Ha Hb _. now apply H5.
Qed.

End ShiftFacts.

(** ** Coverage *)

(** [coverageForShift] reports a shift as available exactly when some
    window contains it, and as preferred exactly when some preferred window
    does; so preferred coverage implies availability, further windows never
    take coverage away, a shift without a start or an end is never covered,
    and the validator's window test [hasCoverage] gives the same answer as
    the scheduler's. *)
Theorem coverageForShift_flags (windows more : list window) (shift : shift) :
  (forall a b,
      coverageForShift windows (Some a) (Some b)
      = {| available := existsb (covers a b) windows;
           preferred := existsb (fun w => covers a b w && w_preferred w) windows |})
  /\ (s_start shift = None \/ s_end shift = None ->
      coverageForShift windows (s_start shift) (s_end shift)
      = {| available := false; preferred := false |})
  /\ (preferred (coverageForShift windows (s_start shift) (s_end shift)) = true ->
      available (coverageForShift windows (s_start shift) (s_end shift)) = true)
  /\ (available (coverageForShift windows (s_start shift) (s_end shift)) = true ->
      available (coverageForShift (windows ++ more) (s_start shift) (s_end shift)) = true)
  /\ available (coverageForShift windows (s_start shift) (s_end shift))
     = hasCoverage windows shift.
Proof.
  assert (forall ws a b,
             coverageForShift ws (Some a) (Some b)
             = {| available := existsb (covers a b) ws;
                  preferred := existsb (fun w => covers a b w && w_preferred w) ws |})
    as Heq.
  { intros ws a b. unfold coverageForShift. apply coverageForShift_fold. }
  split; [apply Heq|]. split; [|split; [|split]].
  - intros [H | H]; rewrite H; [reflexivity|]. now destruct (s_start shift).
  - destruct (s_start shift) as [a|], (s_end shift) as [b|]; try discriminate.
    rewrite Heq. cbn [available preferred]. intros H.
    apply existsb_exists in H. destruct H as (w & Hin & Hw).
    apply existsb_exists. exists w. split; [assumption|].
    now apply andb_true_iff in Hw.
  - destruct (s_start shift) as [a|], (s_end shift) as [b|]; try discriminate.
    rewrite !Heq. cbn [available]. rewrite existsb_app. intros ->. reflexivity.
  - unfold hasCoverage.
    destruct (s_start shift) as [a|]; [destruct (s_end shift) as [b|]|].
    + rewrite Heq. cbn [available]. reflexivity.
    + cbn. induction windows as [|w ws IH]; cbn; [reflexivity|].
      rewrite <- IH. now destruct (w_start w), (w_end w).
    + cbn. induction windows as [|w ws IH]; cbn; [reflexivity|].
      rewrite <- IH. now destruct (w_start w), (w_end w).
Qed.

(** ** The result of a run *)

Section RunFacts.
Context {rt : Runtime}.
Variable employeeMap : Map employee.
Variable availabilityMap : Map (list window).
Variable existing : Map value.
Hypothesis employeeMap_wf : wfEmployees employeeMap.

(** The shape of one step: an issue for a released existing assignment may
    come first; then the shift is left unfilled or committed to a truthy
    id. *)
Lemma scheduleShift_shape (st : state) (shift : shift) (st' : state) :
  scheduleShift employeeMap availabilityMap existing st shift = Ok st' ->
  exists st0,
    (st0 = st
     \/ exists id,
          map_get existing (s_id shift) = Some id
          /\ canAssign employeeMap availabilityMap st shift (neededRole shift) id = false
          /\ st0 = pushIssue st (releasedIssue shift id))
    /\ ((exists reason, st' = unfilled st0 shift reason)
        \/ (exists id, truthy id = true /\ st' = commit st0 id shift)).
Proof.
  assert (forall st0, assignFresh employeeMap availabilityMap st0 shift (neededRole shift)
                      = Ok st' ->
                      (exists reason, st' = unfilled st0 shift reason)
                      \/ (exists id, truthy id = true /\ st' = commit st0 id shift))
    as Hfresh.
  { intros st0 Hf. apply assignFresh_outcome in Hf.
    destruct Hf as [[reason ->] | (c & Hc & ->)]; [left; eauto|].
    right. exists (e_id (en_employee c)). split; [|reflexivity].
    apply withoutConflicts_In in Hc. destruct Hc as (Hin & _).
    apply (wfEmployees_values _ _ employeeMap_wf) in Hin.
    now destruct (wfEmployees_get _ _ _ employeeMap_wf Hin) as (_ & _ & Ht & _). }
  unfold scheduleShift.
  destruct (negb (isSome (s_start shift)) || negb (isSome (s_end shift))).
  { intros [= <-]. exists st. split; [now left|]. left. eauto. }
  destruct (map_get existing (s_id shift)) as [id|] eqn:Hex.
  - destruct (truthy id) eqn:Ht.
    + destruct (canAssign employeeMap availabilityMap st shift (neededRole shift) id)
        eqn:Hcan.
      * intros [= <-]. exists st. split; [now left|]. right. eauto.
      * intros Hf. exists (pushIssue st (releasedIssue shift id)).
        split; [right; eauto|]. now apply Hfresh.
    + intros Hf. exists st. split; [now left|]. now apply Hfresh.
  - cbn [truthy]. intros Hf. exists st. split; [now left|]. now apply Hfresh.
Qed.

Lemma runPass_settles (shifts : list shift) (st : state) :
  runPass employeeMap availabilityMap existing shifts = Ok st ->
  Forall2 (settles employeeMap availabilityMap) shifts (assignments st).
Proof.
  unfold runPass. revert st.
  induction shifts as [|x shifts IH] using rev_ind; intros st.
  - cbn. intros [= <-]. constructor.
  - rewrite forEachM_app.
    destruct (forEachM _ initialState shifts) as [st0|]; cbn [bind]; [|discriminate].
    cbn [forEachM].
    destruct (scheduleShift employeeMap availabilityMap existing st0 x)
      as [st1|] eqn:Hstep; cbn [bind]; [|discriminate].
    intros [= <-].
    apply (scheduleShift_outcome employeeMap availabilityMap existing employeeMap_wf)
      in Hstep.
    destruct Hstep as [(reason & -> & _)
                      | (e & Hget & Hact & Hacc & Hcov & _ & _ & -> & _)].
    + apply Forall2_app; [now apply IH|]. constructor; [|constructor].
      split; [reflexivity|]. left. cbn. eauto.
    + apply Forall2_app; [now apply IH|]. constructor; [|constructor].
      split; [reflexivity|]. right. cbn [a_shiftId a_employeeId a_reason].
      split; [reflexivity|].
      destruct (wfEmployees_get _ _ _ employeeMap_wf Hget) as (_ & _ & Ht & _).
      split; [assumption|]. exists e. auto.
Qed.

Lemma runPass_issues (shifts : list shift) (st : state) :
  runPass employeeMap availabilityMap existing shifts = Ok st ->
  unfilledIssues (issues st) = unfilledAssignments (assignments st)
  /\ Forall (fun i => forall id, i_employeeId i = Some id ->
                      i_reason i
                      = "Existing assignment violates scheduling rules and was released."
                      /\ map_get existing (i_shiftId i) = Some id)
       (issues st).
Proof.
  unfold runPass. revert st.
  induction shifts as [|x shifts IH] using rev_ind; intros st.
  - cbn. intros [= <-]. split; [reflexivity | constructor].
  - rewrite forEachM_app.
    destruct (forEachM _ initialState shifts) as [st0|]; cbn [bind]; [|discriminate].
    cbn [forEachM].
    destruct (scheduleShift employeeMap availabilityMap existing st0 x)
      as [st1|] eqn:Hstep; cbn [bind]; [|discriminate].
    intros [= <-]. destruct (IH st0 eq_refl) as [IH1 IH2].
    apply scheduleShift_shape in Hstep.
    destruct Hstep as (st' & Hst' & Hout).
    assert (unfilledIssues (issues st') = unfilledAssignments (assignments st')
            /\ Forall (fun i => forall id, i_employeeId i = Some id ->
                        i_reason i
                        = "Existing assignment violates scheduling rules and was released."
                        /\ map_get existing (i_shiftId i) = Some id)
                 (issues st')) as [H1 H2].
    { destruct Hst' as [-> | (id & Hex & _ & ->)]; [auto|].
      cbn [pushIssue issues assignments]. split.
      - unfold unfilledIssues. rewrite filter_app. cbn. now rewrite app_nil_r.
      - apply Forall_app. split; [assumption|]. constructor; [|constructor].
        cbn. intros id' [= <-]. auto. }
    destruct Hout as [[reason ->] | (id & Ht & ->)];
      cbn [unfilled commit trackAssignment pushIssue pushAssignment issues assignments].
    + split.
      * unfold unfilledIssues, unfilledAssignments in *.
        rewrite !filter_app, !map_app, H1. reflexivity.
      * apply Forall_app. split; [assumption|]. constructor; [|constructor].
        cbn. discriminate.
    + split; [|assumption].
      unfold unfilledAssignments in *. rewrite filter_app, map_app. cbn.
      rewrite Ht. cbn. now rewrite app_nil_r.
Qed.

End RunFacts.

Section ScheduleFacts.
Context {rt : Runtime}.
Variables shiftTemplate employees availability : list value.
Variable existingAssignments : value.

(** The assignments of a result are, in order, one for each canonical
    shift; each names no employee and gives a reason, or gives no reason and
    names an employee of the map who is active, whose role the shift
    accepts and who has a window that contains the shift. *)
Theorem schedule_fills_only_eligible (res : scheduleResult) :
  schedule shiftTemplate employees availability existingAssignments = Ok res ->
  Forall2 (settles (normalizeEmployees employees) (normalizeAvailability availability))
    (normalizeShiftRecords shiftTemplate) (res_assignments res).
Proof.
  unfold schedule.
  destruct (runPass _ _ _ _) as [st|] eqn:Hrun; cbn [bind]; [|discriminate].
  intros [= <-]. cbn [res_assignments].
  eapply runPass_settles; [apply normalizeEmployees_wf | exact Hrun].
Qed.

(** The issues of a result that name no employee are, in order and with the
    same shift ids and reasons, the unfilled assignments; every other issue
    is the release of the employee that the existing assignments named for
    its shift. *)
Theorem schedule_issues (res : scheduleResult) :
  schedule shiftTemplate employees availability existingAssignments = Ok res ->
  unfilledIssues (res_issues res) = unfilledAssignments (res_assignments res)
  /\ forall i id,
       In i (res_issues res) -> i_employeeId i = Some id ->
       i_reason i = "Existing assignment violates scheduling rules and was released."
       /\ map_get (normalizeAssignments existingAssignments) (i_shiftId i) = Some id.
Proof.
  unfold schedule.
  destruct (runPass _ _ _ _) as [st|] eqn:Hrun; cbn [bind]; [|discriminate].
  intros [= <-]. cbn [res_assignments res_issues].
  destruct (runPass_issues _ _ _ (normalizeEmployees_wf employees) _ _ Hrun)
    as [H1 H2].
  split; [assumption|]. intros i id Hin. rewrite Forall_forall in H2.
  now apply H2.
Qed.

End ScheduleFacts.

Lemma schedule_fills_only_eligible_witness :
  match @schedule utcHost dayShifts weekEmployees dayAvailability (VArr []) with
  | Ok res =>
      Forall2 (@settles utcHost (@normalizeEmployees utcHost weekEmployees)
                 (@normalizeAvailability utcHost dayAvailability))
        (@normalizeShiftRecords utcHost dayShifts) (res_assignments res)
  | Throw _ => False
  end.
Proof.
  destruct (@schedule utcHost dayShifts weekEmployees dayAvailability (VArr []))
    as [res|] eqn:H.
  - exact (@schedule_fills_only_eligible utcHost dayShifts weekEmployees
             dayAvailability (VArr []) res H).
  - vm_compute in H. discriminate H.
Defined.

Lemma schedule_issues_witness :
  match @schedule utcHost dayShifts weekEmployees dayAvailability
          (VObj [("s2", VStr "e1")]) with
  | Ok res =>
      unfilledIssues (res_issues res) = unfilledAssignments (res_assignments res)
      /\ map i_employeeId (res_issues res) = [Some (VStr "e1"); None]
  | Throw _ => False
  end.
Proof.
  destruct (@schedule utcHost dayShifts weekEmployees dayAvailability
              (VObj [("s2", VStr "e1")])) as [res|] eqn:H.
  - split.
    + exact (proj1 (@schedule_issues utcHost dayShifts weekEmployees
                      dayAvailability (VObj [("s2", VStr "e1")]) res H)).
    + vm_compute in H. injection H as <-. reflexivity.
  - vm_compute in H. discriminate H.
Defined.

(** ** Existing assignments *)

Section ExistingFacts.
Context {rt : Runtime}.
Variable employeeMap : Map employee.
Variable availabilityMap : Map (list window).
Variable existing : Map value.

Lemma skipn_length_app {A : Type} (l l' : list A) : skipn (length l) (l ++ l') = l'.
Proof. induction l as [|x l IH]; [reflexivity | exact IH]. Qed.

Lemma assignFresh_pushIssue (st : state) (i : issue) (shift : shift) (needed : string) :
  assignFresh employeeMap availabilityMap (pushIssue st i) shift needed
  = match assignFresh employeeMap availabilityMap st shift needed with
    | Ok st1 =>
        Ok (withIssues st1
              (issues st ++ i :: skipn (length (issues st)) (issues st1)))
    | Throw e => Throw e
    end.
Proof.
  assert (forall reason,
             unfilled (pushIssue st i) shift reason
             = withIssues (unfilled st shift reason)
                 (issues st ++ i :: skipn (length (issues st))
                                      (issues (unfilled st shift reason)))) as Hun.
  { intros reason. unfold unfilled, withIssues, pushIssue, pushAssignment.
    cbn [assignments issues totals blocks].
    now rewrite skipn_length_app, <- app_assoc. }
  assert (forall id,
             commit (pushIssue st i) id shift
             = withIssues (commit st id shift)
                 (issues st ++ i :: skipn (length (issues st))
                                      (issues (commit st id shift)))) as Hco.
  { intros id. unfold commit, withIssues, pushIssue, pushAssignment, trackAssignment.
    cbn [assignments issues totals blocks].
    pose proof (skipn_length_app (issues st) []) as Hsk.
    rewrite app_nil_r in Hsk. now rewrite Hsk. }
  unfold assignFresh.
  change (withinCap employeeMap availabilityMap (pushIssue st i) shift needed)
    with (withinCap employeeMap availabilityMap st shift needed).
  change (withoutConflicts employeeMap availabilityMap (pushIssue st i) shift needed)
    with (withoutConflicts employeeMap availabilityMap st shift needed).
  change (compareEntries (pushIssue st i)) with (compareEntries st).
  destruct (activeEmployees employeeMap needed); [now rewrite Hun|].
  destruct (availabilityCandidates employeeMap availabilityMap shift needed);
    [now rewrite Hun|].
  destruct (withinCap employeeMap availabilityMap st shift needed); [now rewrite Hun|].
  destruct (withoutConflicts employeeMap availabilityMap st shift needed);
    [now rewrite Hun|].
  destruct (sortM (compareEntries st) (e2 :: l2)) as [[|first rest]|]; cbn [bind];
    try reflexivity.
  now rewrite Hco.
Qed.

(** A shift with both times for which the existing assignments name an
    employee: when that employee passes every check the shift is committed
    to them and no issue is added, whoever else would qualify; otherwise
    the step ends as it would without the existing assignment, on the same
    assignments, totals and blocks, with the release issue put before the
    issue, if any, of that step. *)
Theorem scheduleShift_existing (st : state) (shift : shift) (id : value) :
  map_get existing (s_id shift) = Some id -> truthy id = true ->
  s_start shift <> None -> s_end shift <> None ->
  (canAssign employeeMap availabilityMap st shift (neededRole shift) id = true ->
   scheduleShift employeeMap availabilityMap existing st shift = Ok (commit st id shift))
  /\ (canAssign employeeMap availabilityMap st shift (neededRole shift) id = false ->
      scheduleShift employeeMap availabilityMap existing st shift
      = match scheduleShift employeeMap availabilityMap [] st shift with
        | Ok st1 =>
            Ok (withIssues st1
                  (issues st ++ releasedIssue shift id
                     :: skipn (length (issues st)) (issues st1)))
        | Throw e => Throw e
        end).
Proof.
  intros Hex Ht Hs He. unfold scheduleShift. rewrite Hex, Ht. cbn [map_get truthy].
  destruct (s_start shift); [|contradiction].
  destruct (s_end shift); [|contradiction].
  cbn [isSome negb orb]. split; intros ->; [reflexivity|].
  apply assignFresh_pushIssue.
Qed.

End ExistingFacts.

Lemma scheduleShift_existing_witness :
  @scheduleShift utcHost
    [(VStr "e1", employeeOf "e1" "CNA" (VStr "Bob") 40);
     (VStr "e2", employeeOf "e2" "CNA" (VStr "Ann") 40)]
    [(VStr "e1", [{| w_start := Some 0; w_end := Some (24 * MS_IN_HOUR);
                     w_preferred := false; w_recordId := VUndef |}]);
     (VStr "e2", [{| w_start := Some 0; w_end := Some (24 * MS_IN_HOUR);
                     w_preferred := false; w_recordId := VUndef |}])]
    [(VStr "s1", VStr "e1")] initialState (shiftOf "s1" "CNA" 7 19)
  = Ok (commit initialState (VStr "e1") (shiftOf "s1" "CNA" 7 19)).
Proof.
  refine (proj1 (@scheduleShift_existing utcHost _ _ [(VStr "s1", VStr "e1")]
                   initialState (shiftOf "s1" "CNA" 7 19) (VStr "e1") _ _ _ _) _).
  - reflexivity.
  - reflexivity.
  - vm_compute. discriminate.
  - vm_compute. discriminate.
  - vm_compute. reflexivity.
Defined.

(** ** The totals of a result *)

Lemma assoc_setOwn {A : Type} (props : list (string * A)) (key key' : string) (x : A) :
  assoc key' (setOwn props key x)
  = if String.eqb key key' then Some x else assoc key' props.
Proof.
  induction props as [|[k y] props IH]; cbn [setOwn assoc]; [reflexivity|].
  destruct (String.eqb k key) eqn:E; cbn [assoc].
  - apply String.eqb_eq in E. subst k. now destruct (String.eqb key key').
  - rewrite IH. destruct (String.eqb k key') eqn:E'; [|reflexivity].
    apply String.eqb_eq in E'. subst k. now rewrite String.eqb_sym, E.
Qed.

Lemma assoc_assign {A : Type} (props : list (string * A)) (key key' : string) (x : A) :
  assoc key' (assign props key x)
  = if String.eqb key key' && negb (String.eqb key "__proto__")
    then Some x else assoc key' props.
Proof.
  unfold assign. destruct (String.eqb key "__proto__"); cbn [negb].
  - now rewrite andb_false_r.
  - now rewrite assoc_setOwn, andb_true_r.
Qed.

Lemma In_assoc {A : Type} (props : list (string * A)) (key : string) (x : A) :
  In (key, x) props -> exists y, assoc key props = Some y.
Proof.
  induction props as [|[k y] props IH]; cbn [In assoc]; [intros []|].
  intros [[= -> ->] | H].
  - rewrite String.eqb_refl. eauto.
  - destruct (String.eqb k key); eauto.
Qed.

(** An entry of an object that was filled by assignments is the one of the
    last assignment to its key. *)
Lemma assoc_fold_assign {A B : Type} (keyOf : A -> string) (f : A -> B)
    (l : list A) (key : string) :
  assoc key (fold_left (fun props a => assign props (keyOf a) (f a)) l [])
  = if String.eqb key "__proto__" then None
    else option_map f (find (fun a => String.eqb (keyOf a) key) (rev l)).
Proof.
  induction l as [|a l IH] using rev_ind.
  - cbn. now destruct (String.eqb key "__proto__").
  - rewrite fold_left_app, rev_app_distr. cbn [fold_left rev app find].
    rewrite assoc_assign, IH.
    destruct (String.eqb (keyOf a) key) eqn:E; cbn [andb option_map].
    + apply String.eqb_eq in E. rewrite E.
      now destruct (String.eqb key "__proto__").
    + reflexivity.
Qed.

Section TotalsFacts.
Context {rt : Runtime}.
Variables shiftTemplate employees availability : list value.
Variable existingAssignments : value.

(** X19.  When the ids of the employees are strings, so that they are
    distinct as keys of the totals object, the totals of a result hold an
    entry under the id of every employee of the map, also of one who got no
    shift, except under the id [__proto__], which names no property of the
    object, and under no other key.  The entry copies the employee's name,
    role and cap, counts the shifts that the assignments give to the
    employee, and reports what [toFixed(2)] makes of the running total of
    their hours. *)
Theorem schedule_totals (res : scheduleResult) :
  schedule shiftTemplate employees availability existingAssignments = Ok res ->
  (forall id, In id (map fst (normalizeEmployees employees)) -> isString id = true) ->
  (forall key s, In (key, s) (res_totalsByEmployee res) ->
                 key <> "__proto__"
                 /\ In (VStr key) (map fst (normalizeEmployees employees)))
  /\ assoc "__proto__" (res_totalsByEmployee res) = None
  /\ forall id e,
       map_get (normalizeEmployees employees) (VStr id) = Some e ->
       id <> "__proto__" ->
       exists s,
         assoc id (res_totalsByEmployee res) = Some s
         /\ sum_employeeId s = VStr id
         /\ sum_name s = e_name e
         /\ sum_role s = e_role e
         /\ sum_weeklyCap s = e_weeklyCap e
         /\ sum_assignments s
            = length (committedShifts (VStr id) (normalizeShiftRecords shiftTemplate)
                        (res_assignments res))
         /\ sum_hours s
            = toFixed2 (sumHours (committedShifts (VStr id)
                                    (normalizeShiftRecords shiftTemplate)
                                    (res_assignments res))).
Proof.
  unfold schedule.
  destruct (runPass _ _ _ _) as [st|] eqn:Hrun; cbn [bind]; [|discriminate].
  intros [= <-] Hstr. cbn [res_assignments res_totalsByEmployee].
  pose proof (normalizeEmployees_wf employees) as Hwf.
  destruct (runPass_invariant _ _ _ Hwf _ _ Hrun) as [_ _ Htot Hblk _ _].
  destruct Hwf as [Hnd _].
  unfold summarizeTotals.
  assert (forall kv key,
             In kv (normalizeEmployees employees) ->
             String.eqb (String_ (fst kv)) key = true -> fst kv = VStr key) as Hkey.
  { intros [k e] key Hin E. cbn [fst] in *.
    assert (isString k = true) as Hk.
    { apply Hstr, in_map_iff. exists (k, e). auto. }
    destruct k; try discriminate Hk. cbn in E. apply String.eqb_eq in E. now subst. }
  split; [|split].
  - intros key s Hin. apply In_assoc in Hin. destruct Hin as [y Hy].
    rewrite (assoc_fold_assign (fun kv => String_ (fst kv))) in Hy.
    destruct (String.eqb key "__proto__") eqn:E; [discriminate|].
    apply String.eqb_neq in E. split; [assumption|].
    destruct (find _ _) as [kv|] eqn:Hf; [|discriminate].
    apply find_some in Hf. destruct Hf as [Hin Hk]. apply in_rev in Hin.
    rewrite <- (Hkey _ _ Hin Hk). now apply in_map.
  - now rewrite (assoc_fold_assign (fun kv => String_ (fst kv))).
  - intros id e Hget Hid.
    rewrite (assoc_fold_assign (fun kv => String_ (fst kv))).
    apply String.eqb_neq in Hid. rewrite Hid.
    apply map_get_In in Hget.
    destruct (find _ _) as [kv|] eqn:Hf.
    + apply find_some in Hf. destruct Hf as [Hin Hk]. apply in_rev in Hin.
      pose proof (Hkey _ _ Hin Hk) as Hfst. destruct kv as [k e']. cbn [fst] in Hfst.
      subst k.
      pose proof (NoDup_map_get _ _ _ Hnd Hin) as H1.
      pose proof (NoDup_map_get _ _ _ Hnd Hget) as H2.
      assert (e' = e) as -> by congruence.
      eexists. split; [reflexivity|].
      cbn [option_map fst snd sum_employeeId sum_name sum_role sum_weeklyCap
             sum_assignments sum_hours].
      repeat (split; [reflexivity|]).
      assert (VStr id <> VNull) as Hnn by discriminate.
      split; [now rewrite (Hblk _ Hnn), length_map|].
      now rewrite (Htot _ Hnn).
    + exfalso. apply in_rev in Hget.
      pose proof (find_none _ _ Hf _ Hget) as Hno.
      cbn in Hno. now rewrite String.eqb_refl in Hno.
Qed.

End TotalsFacts.

Lemma schedule_totals_witness :
  match @schedule utcHost roundShifts roundEmployees roundAvailability (VArr []) with
  | Ok res =>
      map fst (res_totalsByEmployee res) = ["e1"]
      /\ exists s,
           assoc "e1" (res_totalsByEmployee res) = Some s
           /\ sum_assignments s = 1%nat
           /\ sum_hours s = 1%float
  | Throw _ => False
  end.
Proof.
  destruct (@schedule utcHost roundShifts roundEmployees roundAvailability (VArr []))
    as [res|] eqn:H.
  - assert (forall id, In id (map fst (@normalizeEmployees utcHost roundEmployees)) ->
                        isString id = true) as Hstr.
    { intros id Hin. vm_compute in Hin. destruct Hin as [<- | [<- | []]]; reflexivity. }
    destruct (proj2 (proj2 (@schedule_totals utcHost roundShifts roundEmployees
                              roundAvailability (VArr []) res H Hstr))
                "e1" (employeeOf "e1" "CNA" (VStr "Ann") 40) eq_refl)
      as (s & Hs & _ & _ & _ & _ & Hn & Hh); [discriminate|].
    vm_compute in H. injection H as <-. split; [reflexivity|].
    exists s. split; [exact Hs|]. rewrite Hn, Hh. split; reflexivity.
  - vm_compute in H. discriminate H.
Defined.

(** ** The validator *)

Section ValidatorFacts.
Context {rt : Runtime}.
Variable shiftMap : Map shift.
Variable employeeMap : Map employee.
Variable availabilityMap : Map (list window).

Lemma validateAssignment_Ok (vs : vstate) (a : value) :
  a <> VNull -> a <> VUndef ->
  validateAssignment shiftMap employeeMap availabilityMap vs a
  = Ok (checkAssignment shiftMap employeeMap availabilityMap vs
          (fst (assignmentIds a)) (snd (assignmentIds a))).
Proof. intros H1 H2. destruct a; try reflexivity; contradiction. Qed.

Lemma validateAssignment_skips (vs : vstate) (a : value) :
  a <> VNull -> a <> VUndef -> carriesIds a = false ->
  validateAssignment shiftMap employeeMap availabilityMap vs a = Ok vs.
Proof.
  intros H1 H2 Hc. rewrite validateAssignment_Ok by assumption.
  unfold checkAssignment. unfold carriesIds in Hc.
  destruct (truthy (fst (assignmentIds a))), (truthy (snd (assignmentIds a)));
    try reflexivity; discriminate.
Qed.

Lemma forEachM_validate_filter (assignments : list value) (vs : vstate) :
  Forall (fun a => a <> VNull /\ a <> VUndef) assignments ->
  forEachM (validateAssignment shiftMap employeeMap availabilityMap) vs assignments
  = forEachM (validateAssignment shiftMap employeeMap availabilityMap) vs
      (filter carriesIds assignments).
Proof.
  intros Hall. revert vs. induction Hall as [|a l [H1 H2] Hall IH]; intros vs;
    [reflexivity|].
  cbn [filter forEachM]. destruct (carriesIds a) eqn:Hc.
  - cbn [forEachM]. destruct (validateAssignment _ _ _ vs a); cbn [bind]; auto.
  - rewrite validateAssignment_skips by assumption. cbn [bind]. apply IH.
Qed.

Lemma forEachM_validate_throws (assignments : list value) (vs : vstate) :
  match forEachM (validateAssignment shiftMap employeeMap availabilityMap) vs
          assignments with
  | Ok _ => Forall (fun a => a <> VNull /\ a <> VUndef) assignments
  | Throw e => e = TypeError /\ exists a, In a assignments /\ (a = VNull \/ a = VUndef)
  end.
Proof.
  revert vs. induction assignments as [|a l IH]; intros vs; cbn [forEachM].
  - constructor.
  - destruct a;
      try (cbn [validateAssignment bind];
           match goal with
           | |- context [forEachM ?f ?s l] =>
               specialize (IH s); destruct (forEachM f s l)
           end;
           [ constructor; [split; discriminate | assumption]
           | destruct IH as (He & a & Hin & Ha); split; [assumption|];
             exists a; split; [now right | assumption] ]).
    + cbn. split; [reflexivity|]. exists VUndef. split; [now left | now right].
    + cbn. split; [reflexivity|]. exists VNull. split; [now left | now left].
Qed.

End ValidatorFacts.

Section ValidateTheorems.
Context {rt : Runtime}.
Variables assignments shifts employees availability : list value.

(** X21.  On assignments and records that [convertible] accepts,
    [validate] throws exactly when an entry of the assignment list is [null]
    or [undefined], and what it throws then is a TypeError; on every other
    such list it returns its errors. *)
Theorem validate_throws_iff :
  forallb convertible (assignments ++ shifts ++ employees ++ availability) = true ->
  ((exists a, In a assignments /\ (a = VNull \/ a = VUndef))
   <-> validate assignments shifts employees availability = Throw TypeError)
  /\ ((forall a, In a assignments -> a <> VNull /\ a <> VUndef)
      <-> exists errs, validate assignments shifts employees availability = Ok errs).
Proof.
  intros _. unfold validate.
  match goal with
  | |- context [forEachM ?f ?s assignments] =>
      pose proof (forEachM_validate_throws
                    (fold_left (fun m shift => map_set m (s_id shift) shift)
                       (normalizeShiftRecords shifts) [])
                    (normalizeEmployees employees)
                    (normalizeAvailability availability) assignments s) as H;
      destruct (forEachM f s assignments) as [vs|e]
  end; cbn [bind].
  - rewrite Forall_forall in H. split; split.
    + intros (a & Hin & Ha). destruct (H a Hin). destruct Ha; contradiction.
    + discriminate.
    + eauto.
    + intros _. exact H.
  - destruct H as (-> & a & Hin & Ha). split; split.
    + reflexivity.
    + eauto.
    + intros Hall. destruct (Hall a Hin). destruct Ha; contradiction.
    + intros (errs & Herr). discriminate.
Qed.

(** [validate] skips every assignment that lacks a shift id or an employee
    id, as the unfilled assignments of a schedule do: on a list without
    [null] and [undefined] entries it gives the same result as on the
    entries that carry both ids. *)
Theorem validate_skips_unfilled :
  (forall a, In a assignments -> a <> VNull /\ a <> VUndef) ->
  validate assignments shifts employees availability
  = validate (filter carriesIds assignments) shifts employees availability.
Proof.
  intros Hall. unfold validate.
  rewrite forEachM_validate_filter by now apply Forall_forall.
  reflexivity.
Qed.

End ValidateTheorems.

Lemma validate_throws_iff_witness :
  @validate utcHost
    [assignmentValue {| a_shiftId := VStr "s1"; a_employeeId := VStr "e1";
                        a_reason := None |}; VNull]
    dayShifts weekEmployees dayAvailability = Throw TypeError.
Proof.
  apply (proj1 (@validate_throws_iff utcHost
                  [assignmentValue {| a_shiftId := VStr "s1"; a_employeeId := VStr "e1";
                                      a_reason := None |}; VNull]
                  dayShifts weekEmployees dayAvailability eq_refl)).
  exists VNull. split; [right; now left | now left].
Defined.

Lemma validate_skips_unfilled_witness :
  @validate utcHost
    [assignmentValue {| a_shiftId := VStr "s1"; a_employeeId := VStr "e1";
                        a_reason := None |};
     assignmentValue {| a_shiftId := VStr "s2"; a_employeeId := VNull;
                        a_reason := Some "No employees are available during the shift window." |}]
    dayShifts weekEmployees dayAvailability
  = @validate utcHost
      [assignmentValue {| a_shiftId := VStr "s1"; a_employeeId := VStr "e1";
                          a_reason := None |}]
      dayShifts weekEmployees dayAvailability.
Proof.
  apply (@validate_skips_unfilled utcHost
           [assignmentValue {| a_shiftId := VStr "s1"; a_employeeId := VStr "e1";
                               a_reason := None |};
            assignmentValue {| a_shiftId := VStr "s2"; a_employeeId := VNull;
                               a_reason := Some "No employees are available during the shift window." |}]
           dayShifts weekEmployees dayAvailability).
  intros a [<- | [<- | []]]; split; discriminate.
Defined.

Section ValidatorHours.
Context {rt : Runtime}.
Variable shiftMap : Map shift.
Variable employeeMap : Map employee.
Variable availabilityMap : Map (list window).

Lemma resolvedShifts_snoc (id : value) (l : list value) (a : value) :
  resolvedShifts shiftMap employeeMap id (l ++ [a])
  = resolvedShifts shiftMap employeeMap id l
      ++ resolvedShifts shiftMap employeeMap id [a].
Proof. unfold resolvedShifts. apply flat_map_app. Qed.

(** What holds of the validator's accumulators after a prefix of the
    assignments. *)
Lemma validate_hours_invariant (processed : list value) (vs : vstate) :
  forEachM (validateAssignment shiftMap employeeMap availabilityMap)
    {| errors := []; hoursByEmployee := []; blocksByEmployee := [] |} processed
  = Ok vs ->
  NoDup (map fst (hoursByEmployee vs))
  /\ forallb aboutAssignment (errors vs) = true
  /\ forall id,
       match map_get (hoursByEmployee vs) id with
       | Some h =>
           orZero h = sumHours (resolvedShifts shiftMap employeeMap id processed)
           /\ exists e, map_get employeeMap id = Some e
       | None => resolvedShifts shiftMap employeeMap id processed = []
       end.
Proof.
  revert vs. induction processed as [|a processed IH] using rev_ind; intros vs.
  - cbn. intros [= <-]. cbn. split; [constructor|]. split; reflexivity.
  - rewrite forEachM_app.
    destruct (forEachM _ _ processed) as [vs0|]; cbn [bind]; [|discriminate].
    destruct (IH vs0 eq_refl) as (Hnd & Herr & Hh). clear IH.
    cbn [forEachM].
    destruct (validateAssignment shiftMap employeeMap availabilityMap vs0 a)
      as [vs1|] eqn:Hstep; cbn [bind]; [|discriminate].
    intros [= <-].
    assert (a <> VNull /\ a <> VUndef) as [Hn Hu].
    { split; intros ->; discriminate Hstep. }
    rewrite validateAssignment_Ok in Hstep by assumption.
    assert (vs1 = checkAssignment shiftMap employeeMap availabilityMap vs0
                    (fst (assignmentIds a)) (snd (assignmentIds a))) as ->
      by (injection Hstep; auto).
    clear Hstep. unfold checkAssignment.
    assert (forall id, resolvedShifts shiftMap employeeMap id [a]
                       = if carriesIds a && value_eqb (snd (assignmentIds a)) id
                         then match map_get shiftMap (fst (assignmentIds a)),
                                    map_get employeeMap (snd (assignmentIds a)) with
                              | Some s, Some _ => [s]
                              | _, _ => []
                              end
                         else []) as Hone.
    { intros id. unfold resolvedShifts. cbn [flat_map]. now rewrite app_nil_r. }
    unfold carriesIds in Hone.
    set (sid := fst (assignmentIds a)) in *. set (eid := snd (assignmentIds a)) in *.
    assert (forall vs',
               hoursByEmployee vs' = hoursByEmployee vs0 ->
               forallb aboutAssignment (errors vs') = true ->
               (forall id, resolvedShifts shiftMap employeeMap id [a] = []) ->
               NoDup (map fst (hoursByEmployee vs'))
               /\ forallb aboutAssignment (errors vs') = true
               /\ forall id,
                    match map_get (hoursByEmployee vs') id with
                    | Some h =>
                        orZero h
                        = sumHours (resolvedShifts shiftMap employeeMap id
                                      (processed ++ [a]))
                        /\ exists e, map_get employeeMap id = Some e
                    | None =>
                        resolvedShifts shiftMap employeeMap id (processed ++ [a]) = []
                    end) as Hsame.
    { intros vs' -> Herr' Hnil. split; [assumption|]. split; [assumption|].
      intros id. rewrite resolvedShifts_snoc, (Hnil id), app_nil_r. apply Hh. }
    destruct (truthy sid) eqn:Hs; cbn [negb orb andb] in *.
    2:{ apply Hsame; auto. }
    destruct (truthy eid) eqn:He; cbn [negb orb andb] in *.
    2:{ apply Hsame; auto. }
    destruct (map_get shiftMap sid) as [s|] eqn:Hshift.
    2:{ apply Hsame; [reflexivity | | ].
        - cbn [pushErrors errors]. rewrite forallb_app, Herr. reflexivity.
        - intros id. rewrite Hone. now destruct (value_eqb eid id). }
    destruct (map_get employeeMap eid) as [e|] eqn:Hemp.
    2:{ apply Hsame; [reflexivity | | ].
        - cbn [pushErrors errors]. rewrite forallb_app, Herr. reflexivity.
        - intros id. rewrite Hone. now destruct (value_eqb eid id). }
    cbn [errors hoursByEmployee]. split; [now apply map_set_NoDup|]. split.
    { rewrite !forallb_app, Herr.
      destruct (negb (String.eqb (e_status e) "active"));
        destruct (negb (String.eqb (s_roleNeeded s) "EITHER")
                  && negb (String.eqb (e_role e) (s_roleNeeded s)));
        destruct (negb (hasCoverage (map_get_list availabilityMap eid) s));
        reflexivity. }
    intros id. rewrite resolvedShifts_snoc, Hone, map_get_set.
    destruct (value_eqb eid id) eqn:E.
    + apply value_eqb_eq in E. subst id. split; [|eauto].
      rewrite sumHours_snoc. specialize (Hh eid). unfold hoursOf.
      destruct (map_get (hoursByEmployee vs0) eid) as [h|].
      * destruct Hh as [Hh _]. now rewrite Hh.
      * rewrite Hh. reflexivity.
    + rewrite app_nil_r. apply Hh.
Qed.

End ValidatorHours.

Section ValidateCap.
Context {rt : Runtime}.
Variables assignments shifts employees availability : list value.

(** X23.  [validate] reports [weekly_cap] for an employee exactly when the
    hours of the shifts that the assignments give to that employee, counting
    the assignments whose shift and employee are both known and adding in
    the order of the assignments as the validator does (in the arithmetic of
    IEEE doubles), come to more than the employee's weekly cap. *)
Theorem validate_weekly_cap (errs : list verror) (id : value) :
  validate assignments shifts employees availability = Ok errs ->
  (In (weekly_cap id) errs
   <-> exists e,
         map_get (normalizeEmployees employees) id = Some e
         /\ (e_weeklyCap e
             <? sumHours (resolvedShifts (shiftMapOf (normalizeShiftRecords shifts))
                            (normalizeEmployees employees) id assignments))%float
            = true).
Proof.
  unfold validate, shiftMapOf.
  set (shiftMap := fold_left (fun m shift => map_set m (s_id shift) shift)
                     (normalizeShiftRecords shifts) []).
  destruct (forEachM _ _ assignments) as [vs|] eqn:Hrun; cbn [bind]; [|discriminate].
  intros [= <-].
  destruct (validate_hours_invariant _ _ _ _ _ Hrun) as (Hnd & Herr & Hh).
  assert (forall x, In x (overlapErrors (blocksByEmployee vs)) -> x <> weekly_cap id)
    as Hov.
  { intros x Hx ->. unfold overlapErrors in Hx. apply in_flat_map in Hx.
    destruct Hx as ([k bl] & _ & Hx). cbn [fst snd] in Hx.
    induction bl as [|b bl IH]; [destruct Hx|].
    cbn [overlapPairs] in Hx. apply in_app_or in Hx. destruct Hx as [Hx | Hx]; [|auto].
    apply in_flat_map in Hx. destruct Hx as (bj & _ & Hx).
    destruct (overlaps _ _ _); [destruct Hx as [[=] | []] | destruct Hx]. }
  rewrite !in_app_iff. split.
  - intros [Hin | [Hin | Hin]].
    + rewrite forallb_forall in Herr. specialize (Herr _ Hin). discriminate Herr.
    + unfold capErrors in Hin. apply in_flat_map in Hin.
      destruct Hin as ([k h] & Hkh & Hin). cbn [fst snd] in Hin.
      destruct (map_get (normalizeEmployees employees) k) as [e|] eqn:Hget;
        [|destruct Hin].
      destruct (e_weeklyCap e <? h)%float eqn:Hlt; [|destruct Hin].
      destruct Hin as [[= ->] | []].
      exists e. split; [assumption|].
      destruct (wfEmployees_get _ _ _ (normalizeEmployees_wf employees) Hget)
        as (_ & _ & _ & Hpos).
      pose proof (NoDup_map_get _ _ _ Hnd Hkh) as Hk.
      specialize (Hh id). rewrite Hk in Hh. destruct Hh as [Hh _].
      now rewrite <- Hh, ltb_orZero.
    + now destruct (Hov _ Hin).
  - intros (e & Hget & Hlt). right. left.
    destruct (wfEmployees_get _ _ _ (normalizeEmployees_wf employees) Hget)
      as (_ & _ & _ & Hpos).
    specialize (Hh id).
    destruct (map_get (hoursByEmployee vs) id) as [h|] eqn:Hk.
    + destruct Hh as [Hh _]. unfold capErrors. apply in_flat_map.
      exists (id, h). split; [now apply map_get_In|]. cbn [fst snd].
      rewrite Hget. rewrite <- Hh, ltb_orZero in Hlt by assumption.
      rewrite Hlt. now left.
    + rewrite Hh in Hlt. cbn in Hlt.
      apply ltb_num in Hlt, Hpos. change (num 0) with 0 in *. lia.
Qed.

End ValidateCap.

Lemma validate_weekly_cap_witness :
  match @validate utcHost
          (map (fun id => VObj [("shiftId", VStr id); ("employeeId", VStr "e1")])
             ["s1"; "s2"; "s3"])
          thirdsShifts thirdsEmployees thirdsAvailability with
  | Ok errs => In (weekly_cap (VStr "e1")) errs
  | Throw _ => False
  end.
Proof.
  destruct (@validate utcHost
              (map (fun id => VObj [("shiftId", VStr id); ("employeeId", VStr "e1")])
                 ["s1"; "s2"; "s3"])
              thirdsShifts thirdsEmployees thirdsAvailability) as [errs|] eqn:H.
  - apply (proj2 (@validate_weekly_cap utcHost _ _ _ _ errs (VStr "e1") H)).
    exists (employeeOf "e1" "CNA" (VStr "Ann") 12).
    split; [reflexivity | vm_compute; reflexivity].
  - vm_compute in H. discriminate H.
Defined.

Section ValidatorBlocks.
Context {rt : Runtime}.
Variable shiftMap : Map shift.
Variable employeeMap : Map employee.
Variable availabilityMap : Map (list window).

Lemma checkAssignment_errors (vs : vstate) (shiftId employeeId : value) :
  errors (checkAssignment shiftMap employeeMap availabilityMap vs shiftId employeeId)
  = errors vs
      ++ errors (checkAssignment shiftMap employeeMap availabilityMap
                   {| errors := []; hoursByEmployee := []; blocksByEmployee := [] |}
                   shiftId employeeId).
Proof.
  unfold checkAssignment.
  destruct (negb (truthy shiftId) || negb (truthy employeeId));
    [cbn; now rewrite app_nil_r|].
  destruct (map_get shiftMap shiftId); [|reflexivity].
  destruct (map_get employeeMap employeeId); reflexivity.
Qed.

Lemma validate_blocks_invariant (processed : list value) (vs : vstate) :
  forEachM (validateAssignment shiftMap employeeMap availabilityMap)
    {| errors := []; hoursByEmployee := []; blocksByEmployee := [] |} processed
  = Ok vs ->
  NoDup (map fst (blocksByEmployee vs))
  /\ errors vs = flat_map (assignmentErrors shiftMap employeeMap availabilityMap) processed
  /\ forall id,
       map_get_list (blocksByEmployee vs) id
       = resolvedBlocks shiftMap employeeMap id processed.
Proof.
  revert vs. induction processed as [|a processed IH] using rev_ind; intros vs.
  - cbn. intros [= <-]. cbn. split; [constructor|]. split; reflexivity.
  - rewrite forEachM_app.
    destruct (forEachM _ _ processed) as [vs0|]; cbn [bind]; [|discriminate].
    destruct (IH vs0 eq_refl) as (Hnd & Herr & Hb). clear IH.
    cbn [forEachM].
    destruct (validateAssignment shiftMap employeeMap availabilityMap vs0 a)
      as [vs1|] eqn:Hstep; cbn [bind]; [|discriminate].
    intros [= <-].
    assert (a <> VNull /\ a <> VUndef) as [Hn Hu].
    { split; intros ->; discriminate Hstep. }
    rewrite validateAssignment_Ok in Hstep by assumption.
    assert (vs1 = checkAssignment shiftMap employeeMap availabilityMap vs0
                    (fst (assignmentIds a)) (snd (assignmentIds a))) as ->
      by (injection Hstep; auto).
    clear Hstep. split; [|split].
    + unfold checkAssignment.
      destruct (negb _ || negb _); [assumption|].
      destruct (map_get shiftMap _); [|assumption].
      destruct (map_get employeeMap _); [|assumption].
      cbn [blocksByEmployee]. now apply map_set_NoDup.
    + rewrite checkAssignment_errors, Herr, flat_map_app. cbn [flat_map].
      now rewrite app_nil_r.
    + intros id. unfold resolvedBlocks. rewrite flat_map_app. cbn [flat_map].
      rewrite app_nil_r. fold (resolvedBlocks shiftMap employeeMap id processed).
      rewrite <- Hb. unfold checkAssignment, carriesIds.
      destruct (truthy (fst (assignmentIds a))); cbn [negb orb andb];
        [|now rewrite app_nil_r].
      destruct (truthy (snd (assignmentIds a))); cbn [negb orb andb];
        [|now rewrite app_nil_r].
      destruct (map_get shiftMap (fst (assignmentIds a))) as [s|];
        [|cbn; now destruct (value_eqb _ id); rewrite app_nil_r].
      destruct (map_get employeeMap (snd (assignmentIds a))) as [e|];
        [|cbn; now destruct (value_eqb _ id); rewrite app_nil_r].
      cbn [blocksByEmployee]. apply map_get_list_push.
Qed.

Lemma overlapPairs_In (id : value) (bl : list block) (x : verror) :
  In x (overlapPairs id bl)
  <-> exists i j bi bj,
        (i < j)%nat
        /\ nth_error bl i = Some bi /\ nth_error bl j = Some bj
        /\ overlaps [bi] (dateValue (b_start bj)) (dateValue (b_end bj)) = true
        /\ x = overlap id (b_shiftId bi) (b_shiftId bj).
Proof.
  induction bl as [|b bl IH]; cbn [overlapPairs].
  - split; [intros [] | intros (i & j & bi & bj & _ & H & _)].
    destruct i; discriminate H.
  - rewrite in_app_iff, IH, in_flat_map. split.
    + intros [(bj & Hin & Hx) | (i & j & bi & bj & Hlt & Hi & Hj & Hov & ->)].
      * destruct (overlaps [b] _ _) eqn:Hov; [|destruct Hx].
        destruct Hx as [<- | []].
        apply In_nth_error in Hin. destruct Hin as [j Hj].
        exists 0%nat, (S j), b, bj. repeat split; auto. lia.
      * exists (S i), (S j), bi, bj. repeat split; auto. lia.
    + intros (i & j & bi & bj & Hlt & Hi & Hj & Hov & ->).
      destruct j as [|j]; [lia|]. cbn [nth_error] in Hj.
      destruct i as [|i]; cbn [nth_error] in Hi.
      * injection Hi as ->. left. exists bj. split; [eapply nth_error_In; eauto|].
        rewrite Hov. now left.
      * right. exists i, j, bi, bj. repeat split; auto. lia.
Qed.

End ValidatorBlocks.

Section ValidateOverlap.
Context {rt : Runtime}.
Variables assignments shifts employees availability : list value.

(** [validate] reports [overlap] for an employee and a pair of shift ids
    exactly when two of the blocks it recorded for the employee, the first
    from an earlier assignment than the second, overlap by the test
    [overlaps] of the first as the only block against the second. *)
Theorem validate_overlap (errs : list verror) (id a b : value) :
  validate assignments shifts employees availability = Ok errs ->
  (In (overlap id a b) errs
   <-> exists i j bi bj,
         (i < j)%nat
         /\ nth_error (resolvedBlocks (shiftMapOf (normalizeShiftRecords shifts))
                         (normalizeEmployees employees) id assignments) i = Some bi
         /\ nth_error (resolvedBlocks (shiftMapOf (normalizeShiftRecords shifts))
                         (normalizeEmployees employees) id assignments) j = Some bj
         /\ overlaps [bi] (dateValue (b_start bj)) (dateValue (b_end bj)) = true
         /\ b_shiftId bi = a /\ b_shiftId bj = b).
Proof.
  unfold validate, shiftMapOf.
  set (shiftMap := fold_left (fun m shift => map_set m (s_id shift) shift)
                     (normalizeShiftRecords shifts) []).
  destruct (forEachM _ _ assignments) as [vs|] eqn:Hrun; cbn [bind]; [|discriminate].
  intros [= <-].
  destruct (validate_hours_invariant _ _ _ _ _ Hrun) as (_ & Herr & _).
  destruct (validate_blocks_invariant _ _ _ _ _ Hrun) as (Hnd & _ & Hb).
  rewrite !in_app_iff. split.
  - intros [Hin | [Hin | Hin]].
    + rewrite forallb_forall in Herr. specialize (Herr _ Hin). discriminate Herr.
    + unfold capErrors in Hin. apply in_flat_map in Hin.
      destruct Hin as ([k h] & _ & Hin). cbn [fst snd] in Hin.
      destruct (map_get _ k); [|destruct Hin].
      destruct (_ <? _)%float; [destruct Hin as [[=] | []] | destruct Hin].
    + unfold overlapErrors in Hin. apply in_flat_map in Hin.
      destruct Hin as ([k bl] & Hk & Hin). cbn [fst snd] in Hin.
      apply overlapPairs_In in Hin.
      destruct Hin as (i & j & bi & bj & Hlt & Hi & Hj & Hov & [= E1 E2 E3]).
      subst k a b.
      apply (NoDup_map_get _ _ _ Hnd) in Hk.
      specialize (Hb id). unfold map_get_list in Hb. rewrite Hk in Hb. subst bl.
      exists i, j, bi, bj. auto 10.
  - intros (i & j & bi & bj & Hlt & Hi & Hj & Hov & <- & <-).
    right. right. specialize (Hb id). unfold map_get_list in Hb.
    destruct (map_get (blocksByEmployee vs) id) as [bl|] eqn:Hk.
    + unfold overlapErrors. apply in_flat_map. exists (id, bl).
      split; [now apply map_get_In|]. cbn [fst snd]. apply overlapPairs_In.
      subst bl. exists i, j, bi, bj. auto 10.
    + rewrite <- Hb in Hi. destruct i; discriminate Hi.
Qed.

(** The errors of [validate] come in three groups: first the errors about
    the assignments, in the order of the assignments, each assignment
    contributing the errors it would contribute alone; then the
    [weekly_cap] errors; then the [overlap] errors. *)
Theorem validate_error_order (errs : list verror) :
  validate assignments shifts employees availability = Ok errs ->
  exists caps overlaps,
    errs
    = flat_map (assignmentErrors (shiftMapOf (normalizeShiftRecords shifts))
                  (normalizeEmployees employees) (normalizeAvailability availability))
        assignments
      ++ caps ++ overlaps
    /\ forallb aboutAssignment
         (flat_map (assignmentErrors (shiftMapOf (normalizeShiftRecords shifts))
                      (normalizeEmployees employees)
                      (normalizeAvailability availability)) assignments) = true
    /\ Forall (fun err => exists id, err = weekly_cap id) caps
    /\ Forall (fun err => exists id a b, err = overlap id a b) overlaps.
Proof.
  unfold validate, shiftMapOf.
  set (shiftMap := fold_left (fun m shift => map_set m (s_id shift) shift)
                     (normalizeShiftRecords shifts) []).
  destruct (forEachM _ _ assignments) as [vs|] eqn:Hrun; cbn [bind]; [|discriminate].
  intros [= <-].
  destruct (validate_hours_invariant _ _ _ _ _ Hrun) as (_ & Herr & _).
  destruct (validate_blocks_invariant _ _ _ _ _ Hrun) as (_ & Heq & _).
  exists (capErrors (normalizeEmployees employees) (hoursByEmployee vs)),
    (overlapErrors (blocksByEmployee vs)).
  rewrite <- Heq. split; [reflexivity|]. split; [assumption|]. split.
  - apply Forall_forall. intros x Hin. unfold capErrors in Hin.
    apply in_flat_map in Hin. destruct Hin as ([k h] & _ & Hin). cbn [fst snd] in Hin.
    destruct (map_get _ k); [|destruct Hin].
    destruct (_ <? _)%float; [|destruct Hin]. destruct Hin as [<- | []]. eauto.
  - apply Forall_forall. intros x Hin. unfold overlapErrors in Hin.
    apply in_flat_map in Hin. destruct Hin as ([k bl] & _ & Hin).
    apply overlapPairs_In in Hin.
    destruct Hin as (i & j & bi & bj & _ & _ & _ & _ & ->). eauto.
Qed.

End ValidateOverlap.

Lemma validate_overlap_witness :
  match @validate utcHost
          (map (fun id => VObj [("shiftId", VStr id); ("employeeId", VStr "e1")])
             ["s1"; "s2"])
          dayShifts weekEmployees dayAvailability with
  | Ok errs => In (overlap (VStr "e1") (VStr "s1") (VStr "s2")) errs
  | Throw _ => False
  end.
Proof.
  destruct (@validate utcHost
              (map (fun id => VObj [("shiftId", VStr id); ("employeeId", VStr "e1")])
                 ["s1"; "s2"])
              dayShifts weekEmployees dayAvailability) as [errs|] eqn:H.
  - apply (proj2 (@validate_overlap utcHost _ _ _ _ errs (VStr "e1") (VStr "s1")
                    (VStr "s2") H)).
    exists 0%nat, 1%nat, (blockAt "s1" 7 19), (blockAt "s2" 13 19).
    repeat split. lia.
  - vm_compute in H. discriminate H.
Defined.

Lemma validate_error_order_witness :
  match @validate utcHost
          (map (fun id => VObj [("shiftId", VStr id); ("employeeId", VStr "e1")])
             ["s1"; "s2"; "s9"])
          dayShifts weekEmployees dayAvailability with
  | Ok errs =>
      exists caps overlaps,
        errs
        = flat_map (@assignmentErrors utcHost
                      (shiftMapOf (@normalizeShiftRecords utcHost dayShifts))
                      (@normalizeEmployees utcHost weekEmployees)
                      (@normalizeAvailability utcHost dayAvailability))
            (map (fun id => VObj [("shiftId", VStr id); ("employeeId", VStr "e1")])
               ["s1"; "s2"; "s9"])
          ++ caps ++ overlaps
        /\ forallb aboutAssignment
             (flat_map (@assignmentErrors utcHost
                          (shiftMapOf (@normalizeShiftRecords utcHost dayShifts))
                          (@normalizeEmployees utcHost weekEmployees)
                          (@normalizeAvailability utcHost dayAvailability))
                (map (fun id => VObj [("shiftId", VStr id); ("employeeId", VStr "e1")])
                   ["s1"; "s2"; "s9"])) = true
        /\ Forall (fun err => exists id, err = weekly_cap id) caps
        /\ Forall (fun err => exists id a b, err = overlap id a b) overlaps
  | Throw _ => False
  end.
Proof.
  destruct (@validate utcHost
              (map (fun id => VObj [("shiftId", VStr id); ("employeeId", VStr "e1")])
                 ["s1"; "s2"; "s9"])
              dayShifts weekEmployees dayAvailability) as [errs|] eqn:H.
  - exact (@validate_error_order utcHost _ _ _ _ errs H).
  - vm_compute in H. discriminate H.
Defined.

Lemma schedule_returns_witness :
  exists res,
    @schedule utcHost weekShifts weekEmployees weekAvailability (VArr []) = Ok res
    /\ length (res_assignments res) = length (@normalizeShiftRecords utcHost weekShifts).
Proof.
  apply (@schedule_returns utcHost weekShifts weekEmployees weekAvailability (VArr [])
           eq_refl).
  intros e He. vm_compute in He. destruct He as [<- | []].
  exists "Ann". reflexivity.
Defined.

(** ** Combining a date and a time *)

Section CombineFacts.
Context {rt : Runtime}.

(** X5.  [combineDateTime] on values that [convertible] accepts: a time
    string that contains a T decides alone, whatever the date field holds,
    and so does the time whenever the date does not parse; when the date
    parses and the time is not such a string the result is never null: it is
    a copy of the date for a missing time, and for a time that is not a
    string the date after [setHours(0, 0, 0, 0)], which is an Invalid Date
    when that instant is no time value. *)
Theorem combineDateTime_cases (dateVal timeVal : value) :
  convertible dateVal = true -> convertible timeVal = true ->
  (forall s, timeVal = VStr s -> includes s "T"%char = true ->
             combineDateTime dateVal timeVal = dateValue (toDate timeVal))
  /\ (toDate dateVal = None ->
      combineDateTime dateVal timeVal = dateValue (toDate timeVal))
  /\ (forall base,
        toDate dateVal = Some base ->
        (forall s, timeVal = VStr s -> includes s "T"%char = false) ->
        (exists d, combineDateTime dateVal timeVal = VDate d)
        /\ (truthy timeVal = false ->
            combineDateTime dateVal timeVal = VDate (Some base))
        /\ (truthy timeVal = true -> isString timeVal = false ->
            combineDateTime dateVal timeVal = VDate (Date_setHours base 0 0))).
Proof.
  intros _ _.
  assert (forall v, truthy v = false -> toDate v = None) as Hfalsy.
  { intros v H. unfold toDate. now rewrite H. }
  split; [|split].
  - intros s -> Hs. unfold combineDateTime.
    assert (truthy (VStr s) = true) as Ht by (destruct s; [discriminate | reflexivity]).
    rewrite Ht. cbn [negb andb isString String_]. rewrite Hs.
    now rewrite andb_false_r.
  - intros Hd. unfold combineDateTime.
    destruct (negb (truthy dateVal) && negb (truthy timeVal)) eqn:E.
    + apply andb_true_iff in E. destruct E as [_ E]. apply negb_true_iff in E.
      now rewrite Hfalsy.
    + destruct (truthy timeVal && isString timeVal && includes (String_ timeVal) "T");
        [reflexivity|]. now rewrite Hd.
  - intros base Hd Hs. unfold combineDateTime.
    assert (truthy dateVal = true) as Htd.
    { destruct (truthy dateVal) eqn:E; [reflexivity|]. rewrite Hfalsy in Hd by assumption.
      discriminate. }
    rewrite Htd. cbn [negb andb].
    assert (truthy timeVal && isString timeVal && includes (String_ timeVal) "T" = false)
      as ->.
    { destruct timeVal; cbn [isString]; rewrite ?andb_false_r; try reflexivity.
      cbn [String_]. rewrite (Hs s eq_refl). apply andb_false_r. }
    rewrite Hd. destruct (truthy timeVal) eqn:Ht; cbn [negb].
    + split; [eauto|]. split; [discriminate|].
      intros _ Hstr. destruct timeVal; try discriminate; reflexivity.
    + split; [eauto|]. split; [reflexivity | discriminate].
Qed.

End CombineFacts.

Lemma combineDateTime_cases_witness :
  @combineDateTime utcHost (at_hour 30) (at_hour 7)
  = VDate (@Date_setHours utcHost (30 * MS_IN_HOUR) 0 0).
Proof.
  apply (proj2 (proj2 (@combineDateTime_cases utcHost (at_hour 30) (at_hour 7)
                         eq_refl eq_refl)) (30 * MS_IN_HOUR)).
  - reflexivity.
  - intros s H. discriminate H.
  - reflexivity.
  - reflexivity.
Defined.

(** ** The date filter *)

Section FilterFacts.
Context {rt : Runtime}.
Variable toISOString : Z -> string.


End FilterFacts.


(** ** Schemas *)


Lemma parseItems_frame parseAt path items :
  frames parseAt ->
  forall index issues,
    parseItems parseAt path items index issues
    = framed (parseItems parseAt path items index []) issues.
Proof.
  intros Hp. induction items as [|x items IH]; intros index issues; cbn [parseItems].
  - cbn. now rewrite app_nil_r.
  - rewrite (Hp x _ issues).
    destruct (parseAt x (path ++ [PIndex index]) []) as [[x' new]|e];
      cbn [bind framed fst snd]; [|reflexivity].
    rewrite (IH (S index) (issues ++ new)), (IH (S index) new).
    destruct (parseItems parseAt path items (S index) []) as [[l new']|e];
      cbn [bind framed fst snd]; [|reflexivity].
    now rewrite app_assoc.
Qed.

Lemma parseEntries_frame parseAt path props :
  frames parseAt ->
  forall parsed issues,
    parseEntries parseAt path props parsed issues
    = framed (parseEntries parseAt path props parsed []) issues.
Proof.
  intros Hp. induction props as [|[k x] props IH]; intros parsed issues;
    cbn [parseEntries].
  - cbn. now rewrite app_nil_r.
  - rewrite (Hp x _ issues).
    destruct (parseAt x (path ++ [PKey k]) []) as [[x' new]|e];
      cbn [bind framed fst snd]; [|reflexivity].
    rewrite (IH _ (issues ++ new)), (IH _ new).
    destruct (parseEntries parseAt path props _ []) as [[l new']|e];
      cbn [framed]; [|reflexivity].
    now rewrite app_assoc.
Qed.

Lemma parseShape_frame parseWith v path shape :
  Forall (fun kv => frames (parseWith (snd kv))) shape ->
  forall parsed issues,
    parseShape parseWith v path shape parsed issues
    = framed (parseShape parseWith v path shape parsed []) issues.
Proof.
  induction 1 as [|[k c] shape Hc _ IH]; intros parsed issues; cbn [parseShape].
  - cbn. now rewrite app_nil_r.
  - cbn [snd] in Hc. rewrite (Hc _ _ issues).
    destruct (parseWith c (getProp v k) (path ++ [PKey k]) []) as [[x' new]|e];
      cbn [bind framed fst snd]; [|reflexivity].
    rewrite (IH _ (issues ++ new)), (IH _ new).
    destruct (parseShape parseWith v path shape _ []) as [[l new']|e];
      cbn [framed]; [|reflexivity].
    now rewrite app_assoc.
Qed.

Lemma runRefinements_frame parsed path refinements :
  forall issues,
    runRefinements parsed path refinements issues
    = match runRefinements parsed path refinements [] with
      | Ok new => Ok (issues ++ new)
      | Throw e => Throw e
      end.
Proof.
  induction refinements as [|r refinements IH]; intros issues; cbn [runRefinements].
  - now rewrite app_nil_r.
  - destruct (rf_check r parsed) as [ok|e]; cbn [bind]; [|reflexivity].
    rewrite IH, (IH (if ok then [] else _)).
    destruct (runRefinements parsed path refinements []) as [new|e]; [|reflexivity].
    destruct ok; [reflexivity|]. unfold pushIssueAt. cbn [app].
    now rewrite <- app_assoc.
Qed.

Lemma _parse_frame (s : schema) : frames (_parse s).
Proof.
  induction s as [m| | | |l IH|s IH|s IH|shape pass refs IH|s IH|d s IH|c m s IH]
    using schema_induction; intros v path issues.
  - cbn [_parse]. destruct v; try reflexivity.
    destruct m as [n|]; [|cbn; now rewrite app_nil_r].
    destruct (String.length s <? n)%nat; cbn; [reflexivity | now rewrite app_nil_r].
  - destruct v; cbn; try reflexivity. now rewrite app_nil_r.
  - destruct v; cbn; try reflexivity. now rewrite app_nil_r.
  - cbn. now rewrite app_nil_r.
  - cbn [_parse].
    destruct (firstMatch _ l) as [[x|]|e]; cbn [bind framed]; try reflexivity.
    now rewrite app_nil_r.
  - cbn [_parse]. destruct v; try reflexivity.
    rewrite (parseItems_frame _ _ _ IH).
    destruct (parseItems (_parse s) path items 0 []) as [[l new]|e]; reflexivity.
  - cbn [_parse]. destruct (ownProps v) as [props|]; [|reflexivity].
    rewrite (parseEntries_frame _ _ _ IH).
    destruct (parseEntries (_parse s) path props [] []) as [[l new]|e]; reflexivity.
  - cbn [_parse]. destruct (ownProps v) as [props|]; [|reflexivity].
    rewrite (parseShape_frame _ _ _ _ IH).
    destruct (parseShape _ v path shape _ []) as [[l new]|e];
      cbn [bind framed fst snd]; [|reflexivity].
    rewrite runRefinements_frame, (runRefinements_frame _ _ _ new).
    destruct (runRefinements (VObj l) path refs []) as [new'|e];
      cbn [bind framed]; [|reflexivity].
    now rewrite app_assoc.
  - cbn. destruct v; try apply IH. cbn. now rewrite app_nil_r.
  - cbn. apply IH.
  - cbn [_parse]. rewrite IH.
    destruct (_parse s v path []) as [[v' new]|e]; cbn [bind snd fst framed];
      [|reflexivity].
    destruct (c v') as [[]|e]; cbn [bind framed]; try reflexivity.
    unfold pushIssueAt. now rewrite app_assoc.
Qed.

Lemma framed_Ok_nil {A : Type} (r0 : result (A * list zissue)) (issues : list zissue)
    (a : A) :
  framed r0 issues = Ok (a, []) -> issues = [] /\ r0 = Ok (a, []).
Proof.
  destruct r0 as [[a' new]|e]; cbn; [|discriminate].
  intros [= -> H]. apply app_eq_nil in H. destruct H as [-> ->]. auto.
Qed.

Lemma entries_distinct (props : list (string * value)) (seen : list string) :
  distinct (map fst props) = true ->
  (forall k, In k (map fst props) -> existsb (String.eqb k) seen = false) ->
  entries seen props = props.
Proof.
  revert seen. induction props as [|[k v] props IH]; intros seen Hd Hs; [reflexivity|].
  cbn [map fst distinct] in Hd. apply andb_true_iff in Hd. destruct Hd as [Hk Hd].
  apply negb_true_iff in Hk.
  cbn [entries]. rewrite (Hs k (or_introl eq_refl)). f_equal. apply IH; [assumption|].
  intros k' Hin. cbn [existsb]. rewrite (Hs k' (or_intror Hin)), orb_false_r.
  destruct (String.eqb k' k) eqn:E; [|reflexivity].
  apply String.eqb_eq in E. subst k'.
  assert (existsb (String.eqb k) (map fst props) = true) as Ht; [|congruence].
  apply existsb_exists. exists k. split; [assumption | apply String.eqb_refl].
Qed.

Lemma ownProps_JSON (v : value) (props : list (string * value)) :
  isJSON v = true -> ownProps v = Some props -> v = VObj props.
Proof.
  destruct v; try discriminate. cbn [isJSON ownProps]. intros H [= <-].
  apply andb_true_iff in H. destruct H as [Hd _].
  rewrite entries_distinct; [reflexivity | assumption | reflexivity].
Qed.

Lemma getProp_JSON (v : value) (key : string) :
  isJSON v = true -> isJSON (getProp v key) = true \/ getProp v key = VUndef.
Proof.
  unfold getProp. destruct v; cbn [getOwn]; auto.
  cbn [isJSON]. intros H. apply andb_true_iff in H. destruct H as [_ H].
  induction props as [|[k x] props IH]; cbn [assoc]; [auto|].
  cbn [forallb snd] in H. apply andb_true_iff in H. destruct H as [Hx H].
  destruct (String.eqb k key); auto.
Qed.

Lemma objSet_same (props : list (string * value)) (key : string) (x : value) :
  assoc key props = Some x -> objSet props key x = props.
Proof.
  induction props as [|[k y] props IH]; cbn [assoc objSet]; [discriminate|].
  destruct (String.eqb k key) eqn:E.
  - now intros [= ->].
  - intros H. now rewrite IH.
Qed.

Lemma objSet_fresh (props : list (string * value)) (key : string) (x : value) :
  existsb (String.eqb key) (map fst props) = false ->
  objSet props key x = props ++ [(key, x)].
Proof.
  induction props as [|[k y] props IH]; cbn [map fst existsb objSet app]; [reflexivity|].
  intros H. apply orb_false_iff in H. destruct H as [E H].
  rewrite String.eqb_sym, E. now rewrite IH.
Qed.

Lemma firstMatch_Some parseWith schemas (x : value) :
  firstMatch parseWith schemas = Ok (Some x) ->
  exists c, In c schemas /\ parseWith c = Ok (x, []).
Proof.
  induction schemas as [|c schemas IH]; cbn [firstMatch]; [discriminate|].
  destruct (parseWith c) as [[x' new]|e] eqn:E; cbn [bind fst snd]; [|discriminate].
  destruct new.
  - intros [= ->]. exists c. split; [now left | assumption].
  - intros H. destruct (IH H) as (c' & Hin & Hc'). exists c'. split; [now right | auto].
Qed.

Section Unchanged.
Variable parseAt :
  value -> list pathItem -> list zissue -> result (value * list zissue).
Hypothesis parseAt_frames : frames parseAt.
Hypothesis parseAt_unchanged :
  forall v path parsed,
    isJSON v = true \/ v = VUndef ->
    parseAt v path [] = Ok (parsed, []) -> parsed = v.

Lemma parseItems_unchanged path items :
  forallb isJSON items = true ->
  forall index parsed,
    parseItems parseAt path items index [] = Ok (parsed, []) -> parsed = items.
Proof.
  induction items as [|x items IH]; intros Hj index parsed; cbn [parseItems].
  - now intros [= <-].
  - cbn [forallb] in Hj. apply andb_true_iff in Hj. destruct Hj as [Hx Hj].
    destruct (parseAt x (path ++ [PIndex index]) []) as [[x' new]|e] eqn:Ex;
      cbn [bind fst snd]; [|discriminate].
    rewrite parseItems_frame by assumption.
    destruct (parseItems parseAt path items (S index) []) as [[l new']|e] eqn:El;
      cbn [bind framed fst snd]; [|discriminate].
    intros [= <- H]. apply app_eq_nil in H. destruct H as [-> ->].
    f_equal; [eapply parseAt_unchanged; eauto | eapply IH; eauto].
Qed.

Lemma parseEntries_unchanged path props :
  forallb (fun kv => isJSON (snd kv)) props = true ->
  distinct (map fst props) = true ->
  forall acc parsed,
    (forall k, In k (map fst props) -> existsb (String.eqb k) (map fst acc) = false) ->
    parseEntries parseAt path props acc [] = Ok (parsed, []) -> parsed = acc ++ props.
Proof.
  induction props as [|[k x] props IH]; intros Hj Hd acc parsed Hacc;
    cbn [parseEntries].
  - intros [= <-]. now rewrite app_nil_r.
  - cbn [forallb snd] in Hj. apply andb_true_iff in Hj. destruct Hj as [Hx Hj].
    cbn [map fst distinct] in Hd. apply andb_true_iff in Hd. destruct Hd as [Hk Hd].
    apply negb_true_iff in Hk.
    destruct (parseAt x (path ++ [PKey k]) []) as [[x' new]|e] eqn:Ex;
      cbn [bind fst snd]; [|discriminate].
    rewrite parseEntries_frame by assumption. intros H.
    apply framed_Ok_nil in H. destruct H as [-> H].
    assert (x' = x) as -> by (eapply parseAt_unchanged; eauto).
    rewrite objSet_fresh in H by (apply Hacc; now left).
    apply IH in H; [|assumption..|].
    + rewrite H, <- app_assoc. reflexivity.
    + intros k' Hin. rewrite map_app, existsb_app. cbn [map fst existsb].
      rewrite (Hacc k' (or_intror Hin)), orb_false_r. cbn [orb].
      destruct (String.eqb k' k) eqn:E; [|reflexivity].
      apply String.eqb_eq in E. subst k'.
      assert (existsb (String.eqb k) (map fst props) = true) as Ht; [|congruence].
      apply existsb_exists. exists k. split; [assumption | apply String.eqb_refl].
Qed.

End Unchanged.

Lemma parseShape_unchanged parseWith v path shape :
  isJSON v = true ->
  Forall (fun kv => frames (parseWith (snd kv))
                    /\ forall x path parsed,
                         isJSON x = true \/ x = VUndef ->
                         parseWith (snd kv) x path [] = Ok (parsed, []) -> parsed = x)
    shape ->
  forall props parsed,
    v = VObj props ->
    parseShape parseWith v path shape props [] = Ok (parsed, []) -> parsed = props.
Proof.
  intros Hj. induction 1 as [|[k c] shape [Hf Hu] Hall IH]; intros props parsed Hv;
    cbn [parseShape].
  - now intros [= <-].
  - cbn [snd] in Hf, Hu.
    destruct (parseWith c (getProp v k) (path ++ [PKey k]) []) as [[x new]|e] eqn:Ex;
      cbn [bind fst snd]; [|discriminate].
    rewrite parseShape_frame
      by (eapply Forall_impl; [|exact Hall]; intros kv Hkv; apply Hkv).
    intros H. apply framed_Ok_nil in H. destruct H as [-> H].
    assert (x = getProp v k) as -> by (eapply Hu; [now apply getProp_JSON | eauto]).
    revert H. unfold getProp. subst v. cbn [getOwn].
    destruct (assoc k props) as [y|] eqn:Ek; cbn [isSome].
    + rewrite orb_true_r, (objSet_same _ _ _ Ek). now apply IH.
    + cbn. now apply IH.
Qed.

Lemma runRefinements_Ok_nil parsed path refinements issues :
  runRefinements parsed path refinements issues = Ok [] -> issues = [].
Proof.
  rewrite runRefinements_frame.
  destruct (runRefinements parsed path refinements []); [|discriminate].
  intros [= H]. now apply app_eq_nil in H.
Qed.

(** A schema without defaults whose objects pass unknown keys through
    hands a JSON value that it accepts on unchanged. *)
Lemma _parse_unchanged (s : schema) :
  plain s = true ->
  forall v path parsed,
    isJSON v = true \/ v = VUndef ->
    _parse s v path [] = Ok (parsed, []) -> parsed = v.
Proof.
  induction s as [m| | | |l IH|s IH|s IH|shape pass refs IH|s IH|d s IH|c m s IH]
    using schema_induction; intros Hp v path parsed Hv; cbn [_parse].
  - destruct v; try (cbn; discriminate). destruct m as [n|]; [|now intros [= <-]].
    destruct (String.length s <? n)%nat; [cbn; discriminate | now intros [= <-]].
  - destruct v; try (cbn; discriminate). now intros [= <-].
  - destruct v; try (cbn; discriminate). now intros [= <-].
  - now intros [= <-].
  - destruct (firstMatch _ l) as [[x|]|e] eqn:E; cbn [bind]; try (cbn; discriminate).
    intros [= <-]. apply firstMatch_Some in E. destruct E as (c & Hin & Hc).
    cbn [plain] in Hp. rewrite forallb_forall in Hp. rewrite Forall_forall in IH.
    eapply IH; eauto.
  - destruct v; try (cbn; discriminate).
    destruct (parseItems (_parse s) path items 0 []) as [[l new]|e] eqn:E;
      cbn [bind fst snd]; [|discriminate].
    intros [= <- ->]. f_equal.
    destruct Hv as [Hv | Hv]; [|discriminate].
    eapply parseItems_unchanged; eauto using _parse_frame.
  - destruct (ownProps v) as [props|] eqn:Eo; [|cbn; discriminate].
    destruct Hv as [Hv | ->]; [|discriminate].
    apply (ownProps_JSON _ _ Hv) in Eo. subst v.
    cbn [isJSON] in Hv. apply andb_true_iff in Hv. destruct Hv as [Hd Hj].
    destruct (parseEntries (_parse s) path props [] []) as [[l new]|e] eqn:E;
      cbn [bind fst snd]; [|discriminate].
    intros [= <- ->]. f_equal.
    eapply (parseEntries_unchanged (_parse s)) in E; eauto using _parse_frame.
  - destruct (ownProps v) as [props|] eqn:Eo; [|cbn; discriminate].
    destruct Hv as [Hv | ->]; [|discriminate].
    apply (ownProps_JSON _ _ Hv) in Eo. subst v.
    cbn [plain] in Hp. apply andb_true_iff in Hp. destruct Hp as [-> Hp].
    destruct (parseShape _ (VObj props) path shape props []) as [[l new]|e] eqn:E;
      cbn [bind fst snd]; [|discriminate].
    destruct (runRefinements (VObj l) path refs new) as [new'|e] eqn:Er;
      cbn [bind]; [|discriminate].
    intros [= <- ->]. apply runRefinements_Ok_nil in Er. subst new. f_equal.
    eapply parseShape_unchanged in E; eauto.
    rewrite forallb_forall in Hp. rewrite Forall_forall in IH.
    apply Forall_forall. intros kv Hin. split; [apply _parse_frame|].
    apply IH; auto.
  - destruct v; try (apply IH; assumption). now intros [= <-].
  - discriminate.
  - destruct (_parse s v path []) as [[x new]|e] eqn:E; cbn [bind fst snd];
      [|discriminate].
    destruct (c x) as [ok|e]; cbn [bind]; [|discriminate].
    destruct ok; [|unfold pushIssueAt; intros [= _ H]; now apply app_eq_nil in H].
    intros [= <- ->]. eapply IH; eauto.
Qed.

Lemma assoc_objSet (props : list (string * value)) (key key' : string) (x : value) :
  assoc key' (objSet props key x)
  = if String.eqb key key' then Some x else assoc key' props.
Proof.
  induction props as [|[k y] props IH]; cbn [objSet assoc].
  - reflexivity.
  - destruct (String.eqb k key) eqn:E; cbn [assoc].
    + apply String.eqb_eq in E. subst k. now destruct (String.eqb key key').
    + rewrite IH. destruct (String.eqb k key') eqn:E'; [|reflexivity].
      apply String.eqb_eq in E'. subst k. rewrite String.eqb_sym in E. now rewrite E.
Qed.

(** What an object schema with distinct keys leaves under each key of the
    parsed object. *)
Lemma parseShape_lookup parseWith v path shape :
  distinct (map fst shape) = true ->
  Forall (fun kv => frames (parseWith (snd kv))) shape ->
  forall acc parsed issues,
    parseShape parseWith v path shape acc [] = Ok (parsed, issues) ->
    forall key,
      match assoc key shape with
      | Some child =>
          exists x new,
            parseWith child (getProp v key) (path ++ [PKey key]) [] = Ok (x, new)
            /\ (issues = [] -> new = [])
            /\ assoc key parsed
               = if negb (value_eqb x VUndef) || isSome (getOwn v key)
                 then Some x else assoc key acc
      | None => assoc key parsed = assoc key acc
      end.
Proof.
  intros Hd Hall. revert Hd.
  induction Hall as [|[k c] shape Hf Hall IH]; intros Hd acc parsed issues;
    cbn [parseShape].
  - intros [= <- <-] key. reflexivity.
  - cbn [map fst distinct] in Hd. apply andb_true_iff in Hd. destruct Hd as [Hk Hd].
    apply negb_true_iff in Hk. cbn [snd] in Hf.
    destruct (parseWith c (getProp v k) (path ++ [PKey k]) []) as [[x new]|e] eqn:Ex;
      cbn [bind fst snd]; [|discriminate].
    rewrite parseShape_frame by assumption.
    destruct (parseShape parseWith v path shape _ []) as [[parsed' new']|e] eqn:E;
      cbn [framed]; [|discriminate].
    intros [= <- <-].
    intros key. specialize (IH Hd _ _ _ E key). cbn [assoc].
    destruct (String.eqb k key) eqn:Ek.
    + apply String.eqb_eq in Ek. subst key.
      assert (assoc k shape = None) as Hnone.
      { clear -Hk. induction shape as [|[k' c'] shape IH]; [reflexivity|].
        cbn [map fst existsb] in Hk. apply orb_false_iff in Hk. destruct Hk as [E Hk].
        cbn [assoc]. rewrite String.eqb_sym, E. auto. }
      rewrite Hnone in IH. exists x, new. split; [exact Ex|]. split.
      * intros H. now apply app_eq_nil in H.
      * rewrite IH.
        destruct (negb (value_eqb x VUndef) || isSome (getOwn v k)); [|reflexivity].
        now rewrite assoc_objSet, String.eqb_refl.
    + assert (assoc key (if negb (value_eqb x VUndef) || isSome (getOwn v k)
                         then objSet acc k x else acc) = assoc key acc) as Hacc.
      { destruct (negb (value_eqb x VUndef) || isSome (getOwn v k)); [|reflexivity].
        now rewrite assoc_objSet, Ek. }
      rewrite Hacc in IH. destruct (assoc key shape); [|exact IH].
      destruct IH as (y & newy & Hy & Hnil & Hassoc). exists y, newy.
      split; [assumption|]. split; [|assumption].
      intros H. apply app_eq_nil in H. now apply Hnil.
Qed.

Lemma scheduleRequestSchema_shape :
  scheduleRequestSchema
  = ZObject
      [("week_id", z_min z_string 1);
       ("start_date", z_min z_string 1);
       ("end_date", z_min z_string 1);
       ("shift_template", ZDefault (VArr []) (ZArray shiftRecordSchema));
       ("employees", ZDefault (VArr []) (ZArray employeeRecordSchema));
       ("availability", ZDefault (VArr []) (ZArray availabilityRecordSchema));
       ("existing_assignments",
        ZOptional (ZUnion [ZArray assignmentRecordSchema; ZRecord z_string]))]
      true [].
Proof. reflexivity. Qed.

Lemma isJSON_not_undefined (v : value) : isJSON v = true -> value_eqb v VUndef = false.
Proof. now destruct v. Qed.

(** The request schema hands the records of an accepted JSON payload on as
    they are, with an empty list for a list that is missing. *)
Lemma scheduleRequestSchema_unchanged (payload parsed : value) :
  isJSON payload = true ->
  _parse scheduleRequestSchema payload [] [] = Ok (parsed, []) ->
  elements (getProp parsed "shift_template") = elements (getProp payload "shift_template")
  /\ elements (getProp parsed "employees") = elements (getProp payload "employees")
  /\ elements (getProp parsed "availability") = elements (getProp payload "availability")
  /\ getProp parsed "existing_assignments" = getProp payload "existing_assignments".
Proof.
  intros Hj. rewrite scheduleRequestSchema_shape. cbn [_parse].
  destruct (ownProps payload) as [props|] eqn:Eo; [|cbn; discriminate].
  apply (ownProps_JSON _ _ Hj) in Eo. subst payload.
  destruct (parseShape _ (VObj props) [] _ props []) as [[l new]|e] eqn:E;
    cbn [bind fst snd runRefinements]; [|discriminate].
  intros [= <- ->].
  assert (Hlook := fun Hd Hall =>
            parseShape_lookup (fun childSchema => _parse childSchema) _ _ _
              Hd Hall _ _ _ E).
  specialize (Hlook eq_refl).
  specialize (Hlook (proj2 (Forall_forall _ _) (fun kv _ => _parse_frame (snd kv)))).
  assert (forall key inner,
             plain inner = true ->
             (exists x new,
                 _parse (ZDefault (VArr []) inner) (getProp (VObj props) key)
                   ([] ++ [PKey key]) [] = Ok (x, new)
                 /\ (@nil zissue = [] -> new = [])
                 /\ assoc key l
                    = (if negb (value_eqb x VUndef) || isSome (getOwn (VObj props) key)
                       then Some x else assoc key props)) ->
             elements (getProp (VObj l) key) = elements (getProp (VObj props) key))
    as Hdefault.
  { intros key inner Hp (x & new & Hx & Hnew & Hl). rewrite (Hnew eq_refl) in Hx.
    cbn [_parse] in Hx.
    assert (isJSON (match getProp (VObj props) key with
                    | VUndef => VArr []
                    | _ => getProp (VObj props) key
                    end) = true) as Hj'.
    { destruct (getProp_JSON (VObj props) key Hj) as [H | ->]; [|reflexivity].
      destruct (getProp (VObj props) key); try discriminate; exact H. }
    apply (_parse_unchanged inner Hp _ _ _ (or_introl Hj')) in Hx. subst x.
    rewrite (isJSON_not_undefined _ Hj') in Hl. cbn [negb orb] in Hl.
    unfold getProp at 1. cbn [getOwn]. rewrite Hl.
    now destruct (getProp (VObj props) key). }
  split; [|split; [|split]].
  - apply (Hdefault "shift_template" (ZArray shiftRecordSchema) eq_refl).
    exact (Hlook "shift_template").
  - apply (Hdefault "employees" (ZArray employeeRecordSchema) eq_refl).
    exact (Hlook "employees").
  - apply (Hdefault "availability" (ZArray availabilityRecordSchema) eq_refl).
    exact (Hlook "availability").
  - destruct (Hlook "existing_assignments") as (x & new & Hx & Hnew & Hl).
    rewrite (Hnew eq_refl) in Hx.
    apply (_parse_unchanged
             (ZOptional (ZUnion [ZArray assignmentRecordSchema; ZRecord z_string]))
             eq_refl _ _ _ (getProp_JSON _ _ Hj)) in Hx. subst x.
    unfold getProp at 1. cbn [getOwn]. rewrite Hl.
    unfold getProp. cbn [getOwn].
    destruct (assoc "existing_assignments" props) as [y|]; [|reflexivity].
    cbn [isSome]. now rewrite orb_true_r.
Qed.

(** ** The handler *)

Section HandlerFacts.
Context {rt : Runtime}.


End HandlerFacts.

(** ** The ids of accepted records *)

Lemma employeeRecordSchema_shape :
  employeeRecordSchema
  = ZObject
      [("id", ZOptional (z_min z_string 1));
       ("fields", ZOptional (ZRecord ZAny));
       ("employee_id", ZOptional (z_min z_string 1));
       ("employeeId", ZOptional (z_min z_string 1))]
      true
      [{| rf_check := requiresId "employee_id" "employeeId";
          rf_message := "Employee record requires an id";
          rf_path := [PKey "id"] |}].
Proof. reflexivity. Qed.

Lemma shiftRecordSchema_shape :
  shiftRecordSchema
  = ZObject
      [("id", ZOptional (z_min z_string 1));
       ("fields", ZOptional (ZRecord ZAny));
       ("shift_id", ZOptional (z_min z_string 1));
       ("shiftId", ZOptional (z_min z_string 1));
       ("date", nullableStringOrDate);
       ("role_needed", ZOptional (ZUnion [z_string; ZNull]));
       ("start_time", nullableStringOrDate);
       ("end_time", nullableStringOrDate);
       ("assigned_employee", ZOptional (ZUnion [z_string; ZNull]))]
      true
      [{| rf_check := requiresId "shift_id" "shiftId";
          rf_message := "Shift record requires an id";
          rf_path := [PKey "shift_id"] |}].
Proof. reflexivity. Qed.

Lemma optional_string_accepted (v x : value) (path : list pathItem) :
  _parse (ZOptional (z_min z_string 1)) v path [] = Ok (x, []) ->
  v = VUndef \/ exists s, v = VStr s /\ s <> "".
Proof.
  cbn [_parse z_min z_string]. destruct v; try (cbn; discriminate); [now left|].
  destruct s as [|c s]; [cbn; discriminate|]. intros _. right. eexists.
  split; [reflexivity | discriminate].
Qed.

(** What a record schema with the refinement [requiresId a b] has checked
    of a JSON record that it accepts. *)
Lemma requiresId_accepted (a b : string) (shape : list (string * schema))
    (message : string) (rpath : list pathItem) (record parsed : value)
    (path : list pathItem) :
  plain (ZObject shape true []) = true ->
  distinct (map fst shape) = true ->
  assoc "id" shape = Some (ZOptional (z_min z_string 1)) ->
  assoc a shape = Some (ZOptional (z_min z_string 1)) ->
  assoc b shape = Some (ZOptional (z_min z_string 1)) ->
  isJSON record = true ->
  _parse (ZObject shape true
            [{| rf_check := requiresId a b; rf_message := message; rf_path := rpath |}])
    record path [] = Ok (parsed, []) ->
  (forall alias v, In alias ["id"; a; b] -> getOwn record alias = Some v ->
                   exists s, v = VStr s /\ s <> "")
  /\ requiresId a b record = Ok true.
Proof.
  intros Hp Hd Hid Ha Hb Hj Hparse.
  pose proof (_parse_unchanged _ Hp record path parsed (or_introl Hj)) as Hsame.
  revert Hparse Hsame. cbn [_parse].
  destruct (ownProps record) as [props|] eqn:Eo; [|cbn; discriminate].
  apply (ownProps_JSON _ _ Hj) in Eo. subst record.
  destruct (parseShape _ (VObj props) path shape props []) as [[l new]|e] eqn:E;
    cbn [bind fst snd runRefinements rf_check rf_message rf_path]; [|discriminate].
  destruct (requiresId a b (VObj l)) as [ok|e] eqn:Ec; cbn [bind]; [|discriminate].
  intros [= <- Hnew] Hsame.
  assert (new = [] /\ ok = true) as [-> ->].
  { destruct ok; [auto|]. unfold pushIssueAt in Hnew. now apply app_eq_nil in Hnew. }
  specialize (Hsame eq_refl). injection Hsame as ->.
  split; [|assumption].
  assert (Hlook := fun Hall =>
            parseShape_lookup (fun childSchema => _parse childSchema) _ _ _
              Hd Hall _ _ _ E).
  specialize (Hlook (proj2 (Forall_forall _ _) (fun kv _ => _parse_frame (snd kv)))).
  intros alias v Hin Hv.
  assert (assoc alias shape = Some (ZOptional (z_min z_string 1))) as Hs.
  { destruct Hin as [<- | [<- | [<- | []]]]; assumption. }
  specialize (Hlook alias). rewrite Hs in Hlook.
  destruct Hlook as (x & new & Hx & Hnil & _). rewrite (Hnil eq_refl) in Hx.
  apply optional_string_accepted in Hx. unfold getProp in Hx. rewrite Hv in Hx.
  destruct Hx as [-> | Hx]; [|assumption].
  exfalso. cbn [getOwn] in Hv. cbn [isJSON] in Hj.
  apply andb_true_iff in Hj. destruct Hj as [_ Hj]. rewrite forallb_forall in Hj.
  assert (In (alias, VUndef) props) as Hin'.
  { clear -Hv. induction props as [|[k y] props IH]; cbn [assoc] in Hv; [discriminate|].
    destruct (String.eqb k alias) eqn:E.
    - apply String.eqb_eq in E. injection Hv as ->. subst. now left.
    - right. auto. }
  specialize (Hj _ Hin'). discriminate Hj.
Qed.

Section AcceptedIds.
Context {rt : Runtime}.


End AcceptedIds.

(** ** A check that throws *)

Lemma parseItems_throws parseAt path items :
  frames parseAt ->
  (exists item, In item items /\ forall p, exists e, parseAt item p [] = Throw e) ->
  forall index issues,
    exists e, parseItems parseAt path items index issues = Throw e.
Proof.
  intros Hf (item & Hin & Hthrow).
  induction items as [|x items IH]; [destruct Hin|]. intros index issues.
  cbn [parseItems]. rewrite (Hf x _ issues).
  destruct (parseAt x (path ++ [PIndex index]) []) as [[x' new]|e] eqn:Ex;
    cbn [framed bind fst snd]; [|eauto].
  destruct Hin as [-> | Hin].
  - destruct (Hthrow (path ++ [PIndex index])) as [e He]. congruence.
  - destruct (IH Hin (S index) (issues ++ new)) as [e ->]. cbn [bind]. eauto.
Qed.

Lemma parseShape_throws parseWith v path shape :
  Forall (fun kv => frames (parseWith (snd kv))) shape ->
  (exists key child,
      In (key, child) shape
      /\ exists e, parseWith child (getProp v key) (path ++ [PKey key]) [] = Throw e) ->
  forall acc issues,
    exists e, parseShape parseWith v path shape acc issues = Throw e.
Proof.
  intros Hall (key & child & Hin & e0 & Hthrow).
  induction Hall as [|[k c] shape Hf Hall IH]; [destruct Hin|]. intros acc issues.
  cbn [parseShape]. cbn [snd] in Hf. rewrite (Hf _ _ issues).
  destruct (parseWith c (getProp v k) (path ++ [PKey k]) []) as [[x new]|e] eqn:Ex;
    cbn [framed bind fst snd]; [|eauto].
  destruct Hin as [[= -> ->] | Hin]; [congruence|].
  apply (IH Hin).
Qed.

Lemma optional_string_value (n : nat) (v x : value) (path : list pathItem)
    (issues new : list zissue) :
  _parse (ZOptional (z_min z_string n)) v path issues = Ok (x, new) -> x = v.
Proof.
  cbn [_parse z_min z_string]. destruct v; try (now intros [= <-]).
  destruct (_ <? _)%nat; now intros [= <-].
Qed.

Lemma requiresId_throws (a b : string) (shape : list (string * schema))
    (message : string) (rpath : list pathItem) (record v : value) :
  distinct (map fst shape) = true ->
  assoc "id" shape = Some (ZOptional (z_min z_string 1)) ->
  getOwn record "id" = Some v -> truthy v = true -> isString v = false ->
  forall path,
    exists e,
      _parse (ZObject shape true
                [{| rf_check := requiresId a b; rf_message := message;
                    rf_path := rpath |}])
        record path [] = Throw e.
Proof.
  intros Hd Hid Hv Ht Hs path. cbn [_parse].
  assert (exists props, ownProps record = Some props) as [props ->].
  { destruct record; try discriminate. cbn. eauto. }
  destruct (parseShape _ record path shape props []) as [[l new]|e] eqn:E;
    cbn [bind fst snd runRefinements rf_check]; [|eauto].
  assert (Hlook := fun Hall =>
            parseShape_lookup (fun childSchema => _parse childSchema) _ _ _
              Hd Hall _ _ _ E "id").
  specialize (Hlook (proj2 (Forall_forall _ _) (fun kv _ => _parse_frame (snd kv)))).
  rewrite Hid in Hlook. destruct Hlook as (x & new' & Hx & _ & Hl).
  apply optional_string_value in Hx. subst x. rewrite Hv in Hl. cbn [isSome] in Hl.
  rewrite orb_true_r in Hl.
  unfold requiresId, getProp. cbn [getOwn]. rewrite Hl.
  unfold getProp. rewrite Hv, Ht.
  destruct v; try discriminate; cbn [bind]; eauto.
Qed.

Section ThrowingCheck.
Context {rt : Runtime}.

(** A shift record or an employee record whose own [id] is truthy and not
    a string, a number say, makes the check of the schema's refinement
    throw, so the handler answers 500 and not, as for every other payload
    that the schema does not accept, 400 with the list of issues. *)
Theorem generateSchedule_nonstring_id (body record v : value) :
  In record (elements (getProp body "shift_template"))
  \/ In record (elements (getProp body "employees")) ->
  getOwn record "id" = Some v -> truthy v = true -> isString v = false ->
  generateSchedule body = Failed.
Proof.
  intros Hin Hv Ht Hs.
  assert (exists props, body = VObj props) as [props ->].
  { destruct body; try (destruct Hin as [[] | []]). eauto. }
  unfold generateSchedule. unfold or_else at 1. cbn [truthy].
  assert (exists e, _parse scheduleRequestSchema (VObj props) [] [] = Throw e)
    as [e ->]; [|reflexivity].
  rewrite scheduleRequestSchema_shape. cbn [_parse ownProps].
  assert (forall key inner,
             In record (elements (getProp (VObj props) key)) ->
             (forall p, exists e, _parse inner record p [] = Throw e) ->
             exists e,
               _parse (ZDefault (VArr []) (ZArray inner)) (getProp (VObj props) key)
                 ([] ++ [PKey key]) [] = Throw e) as Hlist.
  { intros key inner Hin' Hthrow. cbn [_parse].
    destruct (getProp (VObj props) key) as [| | | | | |items|] eqn:Ek;
      try (destruct Hin'; fail).
    cbn [elements] in Hin'.
    destruct (parseItems_throws (_parse inner) ([] ++ [PKey key]) items
                (_parse_frame inner) (ex_intro _ record (conj Hin' Hthrow)) 0%nat [])
      as [e0 ->].
    cbn [bind]. eauto. }
  match goal with
  | |- exists e, (r <- parseShape ?pw ?v ?p ?shape ?a ?iss ;; _) = Throw e =>
      assert (exists e0, parseShape pw v p shape a iss = Throw e0) as [e0 ->];
        [|cbn [bind]; eauto];
        apply (parseShape_throws pw v p shape
                 (proj2 (Forall_forall _ _) (fun kv _ => _parse_frame (snd kv))))
  end.
  destruct Hin as [Hin | Hin].
  - exists "shift_template", (ZDefault (VArr []) (ZArray shiftRecordSchema)).
    split; [cbn; tauto|]. apply Hlist; [assumption|].
    rewrite shiftRecordSchema_shape. intros p.
    apply (requiresId_throws _ _ _ _ _ _ v); auto.
  - exists "employees", (ZDefault (VArr []) (ZArray employeeRecordSchema)).
    split; [cbn; tauto|]. apply Hlist; [assumption|].
    rewrite employeeRecordSchema_shape. intros p.
    apply (requiresId_throws _ _ _ _ _ _ v); auto.
Qed.

End ThrowingCheck.

(** ** The webhook client *)

Lemma has_add (set : list value) (v : value) : has (add set v) v = true.
Proof.
  unfold add. destruct (has set v) eqn:E; [assumption|].
  unfold has. rewrite existsb_app. cbn. now rewrite value_eqb_refl, orb_true_r.
Qed.

Lemma attemptsFrom_trace (outcomes : nat -> fetchOutcome) (parsed : value)
    (st st' : webhookState) (r : posted) :
  attemptsFrom outcomes parsed 3 0 st = (r, st') ->
  exists n,
    (1 <= n <= 3)%nat
    /\ sent st' = sent st ++ repeat parsed n
    /\ waits st' = waits st ++ firstn (n - 1) [250; 500]
    /\ (postedWeeks st' = postedWeeks st /\ (p_ok r = true -> p_status r < 200 \/ 300 <= p_status r)
        \/ postedWeeks st' = add (postedWeeks st) (getProp parsed "week_id")
           /\ p_ok r = true /\ 200 <= p_status r < 300).
Proof.
  assert (forall ok status,
             ok && (200 <=? status) && (status <? 300) = false ->
             ok = true -> status < 200 \/ 300 <= status) as Hout.
  { intros ok status H ->. cbn in H. apply andb_false_iff in H. lia. }
  cbn [attemptsFrom Nat.ltb Nat.leb Nat.sub sent waits postedWeeks].
  repeat (match goal with
          | |- context [match outcomes ?i with _ => _ end] =>
              destruct (outcomes i) as [? ? ? | ?]
          | |- context [if ?ok || (?status <? 500) then _ else _] =>
              destruct (ok || (status <? 500))
          | |- context [if ?ok && (200 <=? ?status) && (?status <? 300) then _ else _] =>
              let E := fresh "E" in
              destruct (ok && (200 <=? status) && (status <? 300)) eqn:E
          end;
          cbn [attemptsFrom Nat.ltb Nat.leb Nat.sub sent waits postedWeeks]).
  all: intros H; apply pair_equal_spec in H; destruct H as [<- <-];
    cbn [sent waits postedWeeks p_ok p_status].
  all: first
         [ exists 1%nat; split; [lia|]; cbn [repeat firstn Nat.sub];
           rewrite ?app_nil_r, <- ?app_assoc; cbn [app];
           split; [reflexivity|]; split; [reflexivity|]
         | exists 2%nat; split; [lia|]; cbn [repeat firstn Nat.sub];
           rewrite ?app_nil_r, <- ?app_assoc; cbn [app];
           split; [reflexivity|]; split; [reflexivity|]
         | exists 3%nat; split; [lia|]; cbn [repeat firstn Nat.sub];
           rewrite ?app_nil_r, <- ?app_assoc; cbn [app];
           split; [reflexivity|]; split; [reflexivity|] ].
  all: try (left; split; [reflexivity|]; first [discriminate | eauto]; fail).
  all: right; split; [reflexivity|];
    repeat match goal with
           | H : _ && _ = true |- _ => apply andb_true_iff in H; destruct H
           end; split; [assumption | lia].
Qed.

(** One call of [postSchedule] that returns: it calls [fetch] at most three
    times, each time with the parsed payload, and waits 250 ms after the
    first and 500 ms after the second attempt that is followed by another;
    it adds at most the week of the payload to the posted weeks; without
    [force] it does not call [fetch] for a week that was posted; and after
    it returned an ok result with a status from 200 to 299, the next call
    for the same payload without [force] is skipped as a duplicate,
    whatever the webhook would answer. *)
Theorem postSchedule_attempts (webhookUrl : string) (outcomes : nat -> fetchOutcome)
    (payload : value) (force : bool) (st st' : webhookState) (r : posted) :
  postSchedule webhookUrl outcomes payload force st = Ok (r, st') ->
  exists parsed n,
    parse payloadSchema payload = Ok parsed
    /\ (n <= 3)%nat
    /\ sent st' = sent st ++ repeat parsed n
    /\ waits st' = waits st ++ firstn (n - 1) [250; 500]
    /\ (postedWeeks st' = postedWeeks st
        \/ postedWeeks st' = add (postedWeeks st) (getProp parsed "week_id"))
    /\ (force = false -> has (postedWeeks st) (getProp parsed "week_id") = true ->
        n = 0%nat /\ st' = st
        /\ r = {| p_ok := true; p_status := 204; p_text := "Duplicate week skipped" |})
    /\ (p_ok r = true -> 200 <= p_status r < 300 ->
        forall outcomes',
          postSchedule webhookUrl outcomes' payload false st'
          = Ok ({| p_ok := true; p_status := 204; p_text := "Duplicate week skipped" |},
                st')).
Proof.
  unfold postSchedule.
  destruct (parse payloadSchema payload) as [parsed|e]; cbn [bind]; [|discriminate].
  destruct (negb force && has (postedWeeks st) (getProp parsed "week_id")) eqn:Edup.
  - intros [= <- <-]. exists parsed, 0%nat. cbn [repeat firstn Nat.sub].
    rewrite !app_nil_r. apply andb_true_iff in Edup. destruct Edup as [_ Ehas].
    split; [reflexivity|]. split; [lia|]. split; [reflexivity|].
    split; [reflexivity|]. split; [now left|]. split; [auto|].
    intros _ _ outcomes'. now rewrite Ehas.
  - destruct (negb (truthy (VStr webhookUrl))).
    + intros [= <- <-]. exists parsed, 0%nat. cbn [repeat firstn Nat.sub].
      rewrite !app_nil_r.
      split; [reflexivity|]. split; [lia|]. split; [reflexivity|].
      split; [reflexivity|]. split; [now left|]. split.
      * intros -> Hhas. rewrite Hhas in Edup. discriminate Edup.
      * cbn. discriminate.
    + intros [= H]. apply attemptsFrom_trace in H.
      destruct H as (n & Hn & Hsent & Hwaits & Hposted).
      exists parsed, n. split; [reflexivity|]. split; [lia|].
      split; [assumption|]. split; [assumption|]. split; [tauto|]. split.
      * intros -> Hhas. rewrite Hhas in Edup. discriminate Edup.
      * intros Hok Hstatus outcomes'.
        destruct Hposted as [[_ Hout] | (Hadd & _ & _)]; [specialize (Hout Hok); lia|].
        rewrite Hadd, has_add. reflexivity.
Qed.

Lemma postSchedule_attempts_witness :
  match postSchedule "https://hooks.example/1" (fun _ => Responded false 503 "busy")
          examplePayload false newWebhookState with
  | Ok (r, st') =>
      exists parsed n,
        parse payloadSchema examplePayload = Ok parsed
        /\ (n <= 3)%nat
        /\ sent st' = sent newWebhookState ++ repeat parsed n
        /\ waits st' = waits newWebhookState ++ firstn (n - 1) [250; 500]
  | Throw _ => False
  end.
Proof.
  destruct (postSchedule "https://hooks.example/1" (fun _ => Responded false 503 "busy")
              examplePayload false newWebhookState) as [[r st']|e] eqn:H.
  - destruct (postSchedule_attempts _ _ _ _ _ _ _ H)
      as (parsed & n & H1 & H2 & H3 & H4 & _).
    exists parsed, n. auto.
  - vm_compute in H. discriminate H.
Defined.



Lemma generateSchedule_nonstring_id_witness :
  @generateSchedule utcHost
    (VObj [("week_id", VStr "2024-W18"); ("employees", VArr [VObj [("id", VNum 5)]])])
  = Failed.
Proof.
  apply (@generateSchedule_nonstring_id utcHost _ (VObj [("id", VNum 5)]) (VNum 5)).
  - right. left. reflexivity.
  - reflexivity.
  - reflexivity.
  - reflexivity.
Defined.
